(** * Showtime builder: the scheduling engine of [app.js], the downtime
    analyzer of [dashboard.js] and the stepping loops of the prime page.

    Conventions of the embedding.

    - An instant (a JavaScript [Date]) is an integer number of minutes counted
      from local midnight of the day on which the page runs.  Every [Date] of
      the engine is built by [dtFromHM] ([setHours(H, M, 0, 0)]) and moved by
      whole minutes or whole days, so nothing finer than a minute occurs; a
      day is 1440 minutes (no daylight-saving change on the days involved).
    - The global [state] object is a record that every function receives and
      returns.  Functions that can stop on a [TypeError] return an [option]
      or a completion next to the state they leave behind.
    - Only the fields the engine reads are kept in the records. *)

From Stdlib Require Import ZArith Lia List String Ascii Bool DecimalString DecimalZ
  OrderedTypeEx.
From stdpp Require Import base list strings gmap sorting.

Open Scope Z_scope.

(** ** Time utilities *)

(** [String(n)] for an integer. *)
Definition numStr (z : Z) : string := NilEmpty.string_of_int (Z.to_int z).

(** [pad(n)]: [n.toString().padStart(2, "0")]. *)
Definition pad (n : Z) : string :=
  let s := numStr n in
  if (String.length s <? 2)%nat then "0" +:+ s else s.

Definition isDigit (c : ascii) : bool :=
  let n := nat_of_ascii c in ((48 <=? n) && (n <=? 57))%nat.

Definition digitVal (c : ascii) : Z := Z.of_nat (nat_of_ascii c) - 48.

(** A whole string matched by [\d{1,2}], read by [parseInt(_, 10)]. *)
Definition digits12 (s : string) : option Z :=
  match s with
  | String a EmptyString =>
      if isDigit a then Some (digitVal a) else None
  | String a (String b EmptyString) =>
      if isDigit a && isDigit b then Some (10 * digitVal a + digitVal b)
      else None
  | _ => None
  end.

(** [hm.match(/^(\d{1,2}):(\d{1,2})$/)]: the two captured numbers. *)
Definition matchHM (hm : string) : option (Z * Z) :=
  match hm with
  | String a (String b r) =>
      if Ascii.eqb b ":" then
        H ← digits12 (String a EmptyString); M ← digits12 r; Some (H, M)
      else
        match r with
        | String c r' =>
            if Ascii.eqb c ":" then
              H ← digits12 (String a (String b EmptyString));
              M ← digits12 r'; Some (H, M)
            else None
        | EmptyString => None
        end
  | _ => None
  end.

(** [dtFromHM(hm)]: today at the given time; 00:00 when [hm] does not parse.
    It never rolls the date over by itself. *)
Definition dtFromHM (hm : string) : Z :=
  match matchHM hm with
  | Some (H, M) => Z.min 23 (Z.max 0 H) * 60 + Z.min 59 (Z.max 0 M)
  | None => 0
  end.

Definition getHours (d : Z) : Z := (d mod 1440) / 60.
Definition getMinutes (d : Z) : Z := d mod 60.

(** [d.setDate(d.getDate() + 1)]. *)
Definition nextDay (d : Z) : Z := d + 1440.

Definition addMins (d mins : Z) : Z := d + mins.

(** [Math.round((a - b) / 60000)]; the quotient is already an integer. *)
Definition diffMins (a b : Z) : Z := a - b.

(** [Math.ceil(x / 5) * 5]. *)
Definition roundUp5 (x : Z) : Z := - ((- x) / 5) * 5.

(** [getTime()], in milliseconds from the same origin as the instants. *)
Definition getTime (d : Z) : Z := d * 60000.

(** [to12(d)]: 12-hour clock with am/pm suffix. *)
Definition to12 (d : Z) : string :=
  let h := getHours d in
  let m := pad (getMinutes d) in
  let isPm := 12 <=? h in
  let h12 := if h mod 12 =? 0 then 12 else h mod 12 in
  numStr h12 +:+ ":" +:+ m +:+ (if isPm then "pm" else "am").

(** ** Catalog *)

Record Film := mkFilm {
  f_id : string;
  f_title : string;
  f_format : string;          (* empty when the film has no format *)
  f_runtime : Z;
  f_trailer : Z;
  f_clean : Z
}.

Record Aud := mkAud {
  a_id : Z;
  a_name : string
}.

(** A prime or extra row; [r_filmId], [r_audId] are [None] for [null]. *)
Record Row := mkRow {
  r_rowId : string;
  r_filmId : option string;
  r_audId : option Z;
  r_primeHM : string
}.

Inductive Source := Prime | Manual | Override.

Record Show := mkShow {
  s_id : string;
  s_rowId : string;
  s_offset : option Z;        (* manual shows carry no offset *)
  s_audId : Z;
  s_audName : string;
  s_filmId : string;
  s_filmTitle : string;
  s_start : Z;
  s_end : Z;
  s_runtime : Z;
  s_trailer : Z;
  s_clean : Z;
  s_cycle : Z;
  s_source : Source
}.

(** The sparse patch stored under a show id; an absent key is [None]. *)
Record OverridePatch := mkOv {
  ov_start : option Z;
  ov_audId : option Z;
  ov_filmId : option string
}.

Inductive UndoEntry :=
| UEdit (showId : string) (prevStart : Z)
| UHide (showId : string) (prevHidden : bool)
| UManual (show : Show)
| UMoveAud (showId : string) (prevAudId : Z)
| UEditFilm (showId : string) (prevFilmId : string).

(** A manual show as it sits in a per-date snapshot: after a reload its
    [start] / [end] are ISO strings rather than [Date] objects. *)
Record StoredShow := mkStored {
  st_show : Show;
  st_startIsText : bool;
  st_endIsText : bool
}.

Record Snapshot := mkSnapshot {
  sn_primeRows : list Row;
  sn_extraRows : list Row;
  sn_manualShows : list StoredShow;
  sn_overrides : gmap string OverridePatch;
  sn_hiddenShows : gset string;
  sn_undoStack : list UndoEntry
}.

(** The global state.  [undoStack] keeps the most recent entry at the head
    ([push] is [cons], [pop] takes the head). *)
Record State := mkState {
  auds : list Aud;
  films : list Film;
  primeRows : list Row;
  extraRows : list Row;
  manualShows : list Show;
  overrides : gmap string OverridePatch;
  hiddenShows : gset string;
  scheduleByDate : gmap string Snapshot;
  currentDate : option string;
  firstShowHM : string;
  lastShowHM : string;
  undoStack : list UndoEntry
}.

#[global] Instance Source_eq_dec : EqDecision Source.
Proof. solve_decision. Defined.
#[global] Instance Film_eq_dec : EqDecision Film.
Proof. solve_decision. Defined.
#[global] Instance Aud_eq_dec : EqDecision Aud.
Proof. solve_decision. Defined.
#[global] Instance Row_eq_dec : EqDecision Row.
Proof. solve_decision. Defined.
#[global] Instance Show_eq_dec : EqDecision Show.
Proof. solve_decision. Defined.
#[global] Instance OverridePatch_eq_dec : EqDecision OverridePatch.
Proof. solve_decision. Defined.
#[global] Instance UndoEntry_eq_dec : EqDecision UndoEntry.
Proof. solve_decision. Defined.
#[global] Instance StoredShow_eq_dec : EqDecision StoredShow.
Proof. solve_decision. Defined.
#[global] Instance Snapshot_eq_dec : EqDecision Snapshot.
Proof. solve_decision. Defined.
#[global] Instance State_eq_dec : EqDecision State.
Proof. solve_decision. Defined.

(** [state.films.find(f => f.id === id) || null]; no film has id [null]. *)
Definition filmById (st : State) (id : option string) : option Film :=
  i ← id; List.find (fun f => String.eqb (f_id f) i) (films st).

Definition audById (st : State) (id : option Z) : option Aud :=
  i ← id; List.find (fun a => a_id a =? i) (auds st).

(** [cycleMinutes(film)]: 0 for a missing film. *)
Definition cycleMinutes (film : option Film) : Z :=
  match film with
  | None => 0
  | Some f => roundUp5 (f_runtime f + f_trailer f + f_clean f)
  end.

(** [endOfMovie(start, film)] for a film that is there.  The source reads
    [film.runtime] without a guard, so a call with [null] is a [TypeError];
    the call sites below decide which of the two happens. *)
Definition endOfMovie (start : Z) (film : Film) : Z :=
  addMins start (f_runtime film + f_trailer film).

(** [film.title + (film.format ? ' ' + film.format : '')]. *)
Definition displayTitle (film : Film) : string :=
  f_title film +:+
  (if String.eqb (f_format film) "" then "" else " " +:+ f_format film).

(** ** Cycle generator *)

Definition makeRec (row : Row) (off start : Z) (film : Film) (aud : Aud) : Show :=
  {| s_id := r_rowId row +:+ ":" +:+ numStr off;
     s_rowId := r_rowId row;
     s_offset := Some off;
     s_audId := a_id aud;
     s_audName := a_name aud;
     s_filmId := f_id film;
     s_filmTitle := displayTitle film;
     s_start := start;
     s_end := endOfMovie start film;
     s_runtime := f_runtime film;
     s_trailer := f_trailer film;
     s_clean := f_clean film;
     s_cycle := cycleMinutes (Some film);
     s_source := Prime |}.

(** The window end, moved to the next day when it lies before 05:00. *)
Definition windowLast (st : State) : Z :=
  let last := dtFromHM (lastShowHM st) in
  if getHours last <? 5 then nextDay last else last.

(** The values of [i] in [for (let i = n; i >= 1; i--)]. *)
Definition countDown (n : Z) : list Z := reverse (seqZ 1 n).

Definition preShows (row : Row) (film : Film) (aud : Aud)
    (first prime cycle preCount : Z) : list Show :=
  omap (fun i =>
          let st := addMins prime (- i * cycle) in
          if st <? first then None else Some (makeRec row (- i) st film aud))
       (countDown preCount).

Definition postShows (row : Row) (film : Film) (aud : Aud)
    (last prime cycle postCount : Z) : list Show :=
  omap (fun i =>
          let st := addMins prime (i * cycle) in
          if last <? st then None else Some (makeRec row i st film aud))
       (seqZ 1 postCount).

Definition buildRowShowtimes (st : State) (row : Row) : list Show :=
  match filmById st (r_filmId row), audById st (r_audId row) with
  | Some film, Some aud =>
      if String.eqb (r_primeHM row) "" then [] else
      let first := dtFromHM (firstShowHM st) in
      let last := windowLast st in
      let prime := dtFromHM (r_primeHM row) in
      let cycle := cycleMinutes (Some film) in
      if cycle <=? 0 then [] else
      let preCount := diffMins prime first / cycle in
      let postCount := diffMins last prime / cycle in
      preShows row film aud first prime cycle preCount
        ++ [makeRec row 0 prime film aud]
        ++ postShows row film aud last prime cycle postCount
  | _, _ => []
  end.

(** ** The stepping loops of the prime page ([render]) *)

(** [while (t >= firstWindow && steps < 50)]: the fuel is [50 - steps]. *)
Fixpoint stepBack (fuel : nat) (cycle firstWindow t : Z) : list Z :=
  match fuel with
  | O => []
  | S k =>
      if firstWindow <=? t then t :: stepBack k cycle firstWindow (t - cycle)
      else []
  end.

(** [while (t <= lastWindow && steps < 50)]. *)
Fixpoint stepForward (fuel : nat) (cycle lastWindow t : Z) : list Z :=
  match fuel with
  | O => []
  | S k =>
      if t <=? lastWindow then t :: stepForward k cycle lastWindow (t + cycle)
      else []
  end.

Definition renderPreTimes (cycle primeStart firstWindow : Z) : list Z :=
  stepBack 50 cycle firstWindow (primeStart - cycle).

Definition renderPostTimes (cycle primeStart lastWindow : Z) : list Z :=
  stepForward 50 cycle lastWindow (primeStart + cycle).

(** ** Override and manual layer *)

(** JavaScript truthiness of an optional number / string field. *)
Definition truthyZ (o : option Z) : option Z :=
  match o with
  | Some a => if a =? 0 then None else Some a
  | None => None
  end.

Definition truthyStr (o : option string) : option string :=
  match o with
  | Some s => if String.eqb s "" then None else Some s
  | None => None
  end.

(** [`OV-${destAud}-${destFilm}`]. *)
Definition dynRowId (destAud : Z) (destFilm : string) : string :=
  "OV-" +:+ numStr destAud +:+ "-" +:+ destFilm.

Definition applyStart (st : State) (r : Show) (ov : OverridePatch) : option Show :=
  match ov_start ov with
  | Some s =>
      let fid := default (s_filmId r) (truthyStr (ov_filmId ov)) in
      match filmById st (Some fid) with
      | Some film =>
          Some {| s_id := s_id r; s_rowId := s_rowId r; s_offset := s_offset r;
                  s_audId := s_audId r; s_audName := s_audName r;
                  s_filmId := s_filmId r; s_filmTitle := s_filmTitle r;
                  s_start := s; s_end := endOfMovie s film;
                  s_runtime := s_runtime r; s_trailer := s_trailer r;
                  s_clean := s_clean r; s_cycle := s_cycle r;
                  s_source := s_source r |}
      | None => None          (* endOfMovie(updated.start, null) throws *)
      end
  | None => Some r
  end.

Definition applyAud (st : State) (u : Show) (ov : OverridePatch) : Show :=
  match truthyZ (ov_audId ov) with
  | Some a =>
      {| s_id := s_id u; s_rowId := s_rowId u; s_offset := s_offset u;
         s_audId := a;
         s_audName := match audById st (Some a) with
                      | Some x => a_name x
                      | None => s_audName u
                      end;
         s_filmId := s_filmId u; s_filmTitle := s_filmTitle u;
         s_start := s_start u; s_end := s_end u;
         s_runtime := s_runtime u; s_trailer := s_trailer u;
         s_clean := s_clean u; s_cycle := s_cycle u;
         s_source := s_source u |}
  | None => u
  end.

(** The fields of a show that follow its film. *)
Definition withFilm (u : Show) (film : Film) : Show :=
  {| s_id := s_id u; s_rowId := s_rowId u; s_offset := s_offset u;
     s_audId := s_audId u; s_audName := s_audName u;
     s_filmId := f_id film; s_filmTitle := displayTitle film;
     s_start := s_start u; s_end := endOfMovie (s_start u) film;
     s_runtime := f_runtime film; s_trailer := f_trailer film;
     s_clean := f_clean film; s_cycle := cycleMinutes (Some film);
     s_source := s_source u |}.

Definition applyFilm (st : State) (r u : Show) (ov : OverridePatch) : Show :=
  match truthyStr (ov_filmId ov) with
  | Some f =>
      if String.eqb f (s_filmId r) then u
      else match filmById st (Some f) with
           | Some film => withFilm u film
           | None => u
           end
  | None => u
  end.

(** [(ov.audId && ov.audId !== r.audId) || (ov.filmId && ov.filmId !== r.filmId)]. *)
Definition redirects (r : Show) (ov : OverridePatch) : bool :=
  match truthyZ (ov_audId ov) with
  | Some a => negb (a =? s_audId r)
  | None => false
  end
  || match truthyStr (ov_filmId ov) with
     | Some f => negb (String.eqb f (s_filmId r))
     | None => false
     end.

Definition regroup (r u : Show) (ov : OverridePatch) : Show :=
  if redirects r ov then
    let destAud := if s_audId u =? 0 then s_audId r else s_audId u in
    let destFilm := if String.eqb (s_filmId u) "" then s_filmId r else s_filmId u in
    {| s_id := s_id u; s_rowId := dynRowId destAud destFilm;
       s_offset := s_offset u;
       s_audId := s_audId u; s_audName := s_audName u;
       s_filmId := s_filmId u; s_filmTitle := s_filmTitle u;
       s_start := s_start u; s_end := s_end u;
       s_runtime := s_runtime u; s_trailer := s_trailer u;
       s_clean := s_clean u; s_cycle := s_cycle u;
       s_source := Override |}
  else u.

(** The body of the [.map] callback for a show that has an override. *)
Definition applyOverride (st : State) (r : Show) (ov : OverridePatch) : option Show :=
  u ← applyStart st r ov;
  Some (regroup r (applyFilm st r (applyAud st u ov) ov) ov).

Definition resolveShow (st : State) (r : Show) : option Show :=
  match overrides st !! s_id r with
  | None => Some r
  | Some ov => applyOverride st r ov
  end.

Definition asManual (ms : Show) : Show :=
  {| s_id := s_id ms; s_rowId := s_rowId ms; s_offset := s_offset ms;
     s_audId := s_audId ms; s_audName := s_audName ms;
     s_filmId := s_filmId ms; s_filmTitle := s_filmTitle ms;
     s_start := s_start ms; s_end := s_end ms;
     s_runtime := s_runtime ms; s_trailer := s_trailer ms;
     s_clean := s_clean ms; s_cycle := s_cycle ms;
     s_source := Manual |}.

(** The [shows] array before overrides: generated shows, then manual ones. *)
Definition rawShows (st : State) : list Show :=
  ((primeRows st ++ extraRows st) ≫= buildRowShowtimes st)
    ++ (asManual <$> manualShows st).

Definition visibleShows (st : State) : list Show :=
  filter (fun r => s_id r ∉ hiddenShows st) (rawShows st).

(** [Array.prototype.sort] with a comparator is stable; insertion from the
    right, placing an element before its equals, gives that order. *)
Section StableSort.
Context {A : Type} (leb : A -> A -> bool).

Fixpoint insertSorted (x : A) (l : list A) : list A :=
  match l with
  | [] => [x]
  | y :: l' => if leb x y then x :: l else y :: insertSorted x l'
  end.

Definition stableSort (l : list A) : list A := foldr insertSorted [] l.
End StableSort.

(** [mapped.sort((a, b) => a.start - b.start)]. *)
Definition sortByStart (l : list Show) : list Show :=
  stableSort (fun a b => s_start a <=? s_start b) l.

(** [`${startTime}_${rec.audId}_${rec.filmId}`]. *)
Definition showKey (rec : Show) : string :=
  numStr (getTime (s_start rec)) +:+ "_" +:+ numStr (s_audId rec)
    +:+ "_" +:+ s_filmId rec.

Fixpoint dedupe (seen : gset string) (l : list Show) : list Show :=
  match l with
  | [] => []
  | rec :: l' =>
      let key := showKey rec in
      if decide (key ∈ seen) then dedupe seen l'
      else rec :: dedupe ({[key]} ∪ seen) l'
  end.

(** [getAllShows()]; [None] when resolution stops on a [TypeError]. *)
Definition getAllShows (st : State) : option (list Show) :=
  mapped ← mapM (resolveShow st) (visibleShows st);
  Some (dedupe ∅ (sortByStart mapped)).

(** ** Snapshots and persistence (the in-memory part of [save]) *)

Definition truthyDate (o : option string) : option string := truthyStr o.

Definition snapshotOf (st : State) : Snapshot :=
  {| sn_primeRows := primeRows st;
     sn_extraRows := extraRows st;
     sn_manualShows := (fun s => mkStored s false false) <$> manualShows st;
     sn_overrides := overrides st;
     sn_hiddenShows := hiddenShows st;
     sn_undoStack := undoStack st |}.

Definition retention : nat := 14.

(** [pruneOldSchedules]: keys sorted as strings, the oldest ones deleted. *)
Definition pruneOldSchedules (m : gmap string Snapshot) : gmap string Snapshot :=
  let keys := (map_to_list m).*1 in
  if (length keys <=? retention)%nat then m
  else
    let sorted := stableSort String.leb keys in
    let toDelete := take (length keys - retention) sorted in
    foldr delete m toDelete.

Definition setScheduleByDate (m : gmap string Snapshot) (st : State) : State :=
  {| auds := auds st; films := films st; primeRows := primeRows st;
     extraRows := extraRows st; manualShows := manualShows st;
     overrides := overrides st; hiddenShows := hiddenShows st;
     scheduleByDate := m; currentDate := currentDate st;
     firstShowHM := firstShowHM st; lastShowHM := lastShowHM st;
     undoStack := undoStack st |}.

Definition setOverrides (o : gmap string OverridePatch) (st : State) : State :=
  {| auds := auds st; films := films st; primeRows := primeRows st;
     extraRows := extraRows st; manualShows := manualShows st;
     overrides := o; hiddenShows := hiddenShows st;
     scheduleByDate := scheduleByDate st; currentDate := currentDate st;
     firstShowHM := firstShowHM st; lastShowHM := lastShowHM st;
     undoStack := undoStack st |}.

Definition setHiddenShows (h : gset string) (st : State) : State :=
  {| auds := auds st; films := films st; primeRows := primeRows st;
     extraRows := extraRows st; manualShows := manualShows st;
     overrides := overrides st; hiddenShows := h;
     scheduleByDate := scheduleByDate st; currentDate := currentDate st;
     firstShowHM := firstShowHM st; lastShowHM := lastShowHM st;
     undoStack := undoStack st |}.

Definition setManualShows (l : list Show) (st : State) : State :=
  {| auds := auds st; films := films st; primeRows := primeRows st;
     extraRows := extraRows st; manualShows := l;
     overrides := overrides st; hiddenShows := hiddenShows st;
     scheduleByDate := scheduleByDate st; currentDate := currentDate st;
     firstShowHM := firstShowHM st; lastShowHM := lastShowHM st;
     undoStack := undoStack st |}.

Definition setUndoStack (l : list UndoEntry) (st : State) : State :=
  {| auds := auds st; films := films st; primeRows := primeRows st;
     extraRows := extraRows st; manualShows := manualShows st;
     overrides := overrides st; hiddenShows := hiddenShows st;
     scheduleByDate := scheduleByDate st; currentDate := currentDate st;
     firstShowHM := firstShowHM st; lastShowHM := lastShowHM st;
     undoStack := l |}.

Definition pushUndo (e : UndoEntry) (st : State) : State :=
  setUndoStack (e :: undoStack st) st.

(** [saveCurrentSchedule()]. *)
Definition saveCurrentSchedule (st : State) : State :=
  match truthyDate (currentDate st) with
  | None => st
  | Some d =>
      setScheduleByDate
        (pruneOldSchedules (<[d := snapshotOf st]> (scheduleByDate st))) st
  end.

(** [save()]: the snapshot of the current date is rewritten and old dates
    are pruned; writing to [localStorage] and the event leave [state] alone. *)
Definition save (st : State) : State :=
  match truthyDate (currentDate st) with
  | None => st
  | Some d =>
      setScheduleByDate
        (pruneOldSchedules (<[d := snapshotOf st]> (scheduleByDate st))) st
  end.

(** ** Mutation entry points *)

Inductive Completion := Normal | Thrown.

Definition Exec : Type := State * Completion.

Definition findShow (showId : string) (shows : list Show) : option Show :=
  List.find (fun r => String.eqb (s_id r) showId) shows.

(** [Object.keys(ov).length === 0]. *)
Definition isEmptyPatch (ov : OverridePatch) : bool :=
  match ov_start ov, ov_audId ov, ov_filmId ov with
  | None, None, None => true
  | _, _, _ => false
  end.

Definition patchStart (s : Z) (o : option OverridePatch) : OverridePatch :=
  match o with
  | Some ov => {| ov_start := Some s; ov_audId := ov_audId ov; ov_filmId := ov_filmId ov |}
  | None => {| ov_start := Some s; ov_audId := None; ov_filmId := None |}
  end.

Definition patchAud (a : Z) (o : option OverridePatch) : OverridePatch :=
  match o with
  | Some ov => {| ov_start := ov_start ov; ov_audId := Some a; ov_filmId := ov_filmId ov |}
  | None => {| ov_start := None; ov_audId := Some a; ov_filmId := None |}
  end.

Definition patchFilm (f : string) (o : option OverridePatch) : OverridePatch :=
  match o with
  | Some ov => {| ov_start := ov_start ov; ov_audId := ov_audId ov; ov_filmId := Some f |}
  | None => {| ov_start := None; ov_audId := None; ov_filmId := Some f |}
  end.

(** [delete state.overrides[id].audId], dropping the patch once it is empty. *)
Definition clearAud (showId : string) (ov : OverridePatch)
    (m : gmap string OverridePatch) : gmap string OverridePatch :=
  let ov' := {| ov_start := ov_start ov; ov_audId := None; ov_filmId := ov_filmId ov |} in
  if isEmptyPatch ov' then delete showId m else <[showId := ov']> m.

Definition clearFilm (showId : string) (ov : OverridePatch)
    (m : gmap string OverridePatch) : gmap string OverridePatch :=
  let ov' := {| ov_start := ov_start ov; ov_audId := ov_audId ov; ov_filmId := None |} in
  if isEmptyPatch ov' then delete showId m else <[showId := ov']> m.

(** [state.overrides[showId]?.start || rec.start]. *)
Definition prevStartOf (st : State) (showId : string) (rec : Show) : Z :=
  default (s_start rec) ((overrides st !! showId) ≫= ov_start).

(** [state.overrides[showId]?.audId || rec.audId]. *)
Definition prevAudOf (st : State) (showId : string) (rec : Show) : Z :=
  default (s_audId rec) (truthyZ ((overrides st !! showId) ≫= ov_audId)).

(** [state.overrides[showId]?.filmId || rec.filmId]. *)
Definition prevFilmOf (st : State) (showId : string) (rec : Show) : string :=
  default (s_filmId rec) (truthyStr ((overrides st !! showId) ≫= ov_filmId)).

Definition updateShowStart (showId hm : string) (st : State) : Exec :=
  match getAllShows st with
  | None => (st, Thrown)
  | Some shows =>
      match findShow showId shows with
      | None => (st, Normal)
      | Some rec =>
          if String.eqb hm "" then
            let st1 := pushUndo (UHide showId (bool_decide (showId ∈ hiddenShows st))) st in
            (save (setHiddenShows ({[showId]} ∪ hiddenShows st1) st1), Normal)
          else
            let prevStart := prevStartOf st showId rec in
            let st1 := pushUndo (UEdit showId prevStart) st in
            let newStart := dtFromHM hm in
            (save (setOverrides
                     (<[showId := patchStart newStart (overrides st1 !! showId)]>
                        (overrides st1)) st1), Normal)
      end
  end.

Definition setManualAud (st : State) (targetAud : Z) (ms : Show) : Show :=
  {| s_id := s_id ms; s_rowId := s_rowId ms; s_offset := s_offset ms;
     s_audId := targetAud;
     s_audName := match audById st (Some targetAud) with
                  | Some a => a_name a
                  | None => ""
                  end;
     s_filmId := s_filmId ms; s_filmTitle := s_filmTitle ms;
     s_start := s_start ms; s_end := s_end ms;
     s_runtime := s_runtime ms; s_trailer := s_trailer ms;
     s_clean := s_clean ms; s_cycle := s_cycle ms;
     s_source := s_source ms |}.

(** [state.manualShows.findIndex(x => x.id === showId)] with the element. *)
Definition findManual (showId : string) (st : State) : option (nat * Show) :=
  list_find (fun x => s_id x = showId) (manualShows st).

(** The override branch of [updateShowAud], for shows that are not handled
    as manual records. *)
Definition updateAudOverride (showId : string) (newAud : option Z)
    (prevAud : Z) (st : State) : Exec :=
  match newAud with
  | None =>
      match overrides st !! showId with
      | Some ov =>
          if bool_decide (is_Some (ov_audId ov)) then
            let st1 := pushUndo (UMoveAud showId prevAud) st in
            (save (setOverrides (clearAud showId ov (overrides st1)) st1), Normal)
          else (st, Normal)
      | None => (st, Normal)
      end
  | Some a =>
      if a =? prevAud then (st, Normal)
      else
        let st1 := pushUndo (UMoveAud showId prevAud) st in
        (save (setOverrides
                 (<[showId := patchAud a (overrides st1 !! showId)]> (overrides st1))
                 st1), Normal)
  end.

(** [updateShowAud(showId, audId)]; [newAud] is the parsed argument, [None]
    for [null], [undefined] and the empty string. *)
Definition updateShowAud (showId : string) (newAud : option Z) (st : State) : Exec :=
  match getAllShows st with
  | None => (st, Thrown)
  | Some shows =>
      match findShow showId shows with
      | None => (st, Normal)
      | Some rec =>
          let prevAud := prevAudOf st showId rec in
          match (if bool_decide (s_source rec = Manual) then findManual showId st else None) with
          | Some (msIdx, ms) =>
              let targetAud := default prevAud newAud in
              if targetAud =? prevAud then (st, Normal)
              else
                let st1 := pushUndo (UMoveAud showId prevAud) st in
                (save (setManualShows
                         (<[msIdx := setManualAud st1 targetAud ms]> (manualShows st1))
                         st1), Normal)
          | None => updateAudOverride showId newAud prevAud st
          end
      end
  end.

Definition updateFilmOverride (showId : string) (newFilmId : option string)
    (prevFilmId : string) (st : State) : Exec :=
  match newFilmId with
  | None =>
      match overrides st !! showId with
      | Some ov =>
          if bool_decide (is_Some (ov_filmId ov)) then
            let st1 := pushUndo (UEditFilm showId prevFilmId) st in
            (save (setOverrides (clearFilm showId ov (overrides st1)) st1), Normal)
          else (st, Normal)
      | None => (st, Normal)
      end
  | Some f =>
      let st1 := pushUndo (UEditFilm showId prevFilmId) st in
      (save (setOverrides
               (<[showId := patchFilm f (overrides st1 !! showId)]> (overrides st1))
               st1), Normal)
  end.

(** [updateShowFilm(showId, filmId)]; the empty string counts as [null]. *)
Definition updateShowFilm (showId : string) (filmId : option string) (st : State) : Exec :=
  match getAllShows st with
  | None => (st, Thrown)
  | Some shows =>
      match findShow showId shows with
      | None => (st, Normal)
      | Some rec =>
          let newFilmId := truthyStr filmId in
          let prevFilmId := prevFilmOf st showId rec in
          if bool_decide (newFilmId = Some prevFilmId) then (st, Normal)
          else
            match (if bool_decide (s_source rec = Manual) then findManual showId st else None) with
            | Some (msIdx, ms) =>
                let st1 := pushUndo (UEditFilm showId prevFilmId) st in
                match newFilmId with
                | None => (save st1, Normal)
                | Some f =>
                    match filmById st1 (Some f) with
                    | None => (st1, Normal)
                    | Some filmObj =>
                        (save (setManualShows
                                 (<[msIdx := withFilm ms filmObj]> (manualShows st1))
                                 st1), Normal)
                    end
                end
            | None => updateFilmOverride showId newFilmId prevFilmId st
            end
      end
  end.

(** [addManualShow(rowId, hm)]; [newId] stands for the identifier drawn from
    [Date.now()] and [Math.random()]. *)
Definition addManualShow (newId rowId hm : string) (st : State) : State :=
  match List.find (fun r => String.eqb (r_rowId r) rowId) (primeRows st ++ extraRows st) with
  | None => st
  | Some row =>
      match filmById st (r_filmId row), audById st (r_audId row) with
      | Some film, Some aud =>
          let start := dtFromHM hm in
          let rec :=
            {| s_id := newId; s_rowId := rowId; s_offset := None;
               s_audId := a_id aud; s_audName := a_name aud;
               s_filmId := f_id film; s_filmTitle := displayTitle film;
               s_start := start; s_end := endOfMovie start film;
               s_runtime := f_runtime film; s_trailer := f_trailer film;
               s_clean := f_clean film; s_cycle := cycleMinutes (Some film);
               s_source := Manual |} in
          save (pushUndo (UManual rec) (setManualShows (manualShows st ++ [rec]) st))
      | _, _ => st
      end
  end.

(** ** Undo engine *)

Definition unhideShow (showId : string) (prevHidden : bool) (st : State) : State :=
  if prevHidden then setHiddenShows ({[showId]} ∪ hiddenShows st) st
  else setHiddenShows (hiddenShows st ∖ {[showId]}) st.

Definition revertOverride (showId : string) (prevStart : Z) (st : State) : State :=
  setOverrides (<[showId := patchStart prevStart (overrides st !! showId)]> (overrides st)) st.

Definition undoMoveAud (sid : string) (prev : Z) (st : State) : Exec :=
  match getAllShows st with
  | None => (st, Thrown)
  | Some shows =>
      let currentBase := s_audId <$> findShow sid shows in
      if bool_decide (Some prev = currentBase) then
        match overrides st !! sid with
        | Some ov => (save (setOverrides (clearAud sid ov (overrides st)) st), Normal)
        | None => (save st, Normal)
        end
      else
        (save (setOverrides (<[sid := patchAud prev (overrides st !! sid)]> (overrides st)) st),
         Normal)
  end.

Definition dropFilmOverride (sid : string) (st : State) : State :=
  match overrides st !! sid with
  | Some ov =>
      match truthyStr (ov_filmId ov) with
      | Some _ => setOverrides (clearFilm sid ov (overrides st)) st
      | None => st
      end
  | None => st
  end.

Definition undoEditFilm (sid prevFilm : string) (st : State) : Exec :=
  match findManual sid st with
  | Some (msIdx, ms) =>
      match filmById st (Some prevFilm) with
      | Some filmObj =>
          (save (setManualShows (<[msIdx := withFilm ms filmObj]> (manualShows st)) st),
           Normal)
      | None => (save st, Normal)
      end
  | None =>
      if String.eqb prevFilm "" then (save (dropFilmOverride sid st), Normal)
      else
        match getAllShows st with
        | None => (st, Thrown)
        | Some shows =>
            if bool_decide (Some prevFilm = (s_filmId <$> findShow sid shows)) then
              (save (dropFilmOverride sid st), Normal)
            else
              (save (setOverrides
                       (<[sid := patchFilm prevFilm (overrides st !! sid)]> (overrides st))
                       st), Normal)
        end
  end.

Definition undo (st : State) : Exec :=
  match undoStack st with
  | [] => (st, Normal)
  | entry :: rest =>
      let st1 := setUndoStack rest st in
      match entry with
      | UEdit showId prevStart => (save (revertOverride showId prevStart st1), Normal)
      | UHide showId prevHidden => (save (unhideShow showId prevHidden st1), Normal)
      | UManual show =>
          match list_find (fun x => s_id x = s_id show) (manualShows st1) with
          | Some (idx, _) => (save (setManualShows (delete idx (manualShows st1)) st1), Normal)
          | None => (save st1, Normal)
          end
      | UMoveAud sid prev => undoMoveAud sid prev st1
      | UEditFilm sid prevFilm => undoEditFilm sid prevFilm st1
      end
  end.

(** Running a second call after a first one that completed. *)
Definition andThen (e : Exec) (k : State -> Exec) : Exec :=
  match e with
  | (st, Normal) => k st
  | (st, Thrown) => (st, Thrown)
  end.

(** ** Schedule snapshot store *)

(** [new Date(show.start)] on either representation gives a [Date]. *)
Definition deepCopyManualShows (ms : list StoredShow) : list StoredShow :=
  (fun show => {| st_show := st_show show; st_startIsText := false;
                   st_endIsText := false |}) <$> ms.

(** [rows.map(r => JSON.parse(JSON.stringify(r)))]: a row of strings,
    numbers and [null] comes back with the same value. *)
Definition deepCopyRows (rows : list Row) : list Row := (fun r => r) <$> rows.

(** The snapshot written under a target date.  The spreads
    [{ ...srcSched.overrides }] and [{ ...srcSched.hiddenShows }] copy one
    level: the target gets maps of its own, whose patch objects are the
    source's.  The snapshot is taken here by value, which is what the code
    leaves at the return of [copySchedule]; an edit made in place on a
    shared patch afterwards would show in both dates and is outside this
    model. *)
Definition copyOf (srcSched : Snapshot) : Snapshot :=
  {| sn_primeRows := deepCopyRows (sn_primeRows srcSched);
     sn_extraRows := deepCopyRows (sn_extraRows srcSched);
     sn_manualShows := deepCopyManualShows (sn_manualShows srcSched);
     sn_overrides := sn_overrides srcSched;
     sn_hiddenShows := sn_hiddenShows srcSched;
     sn_undoStack := [] |}.

(** The [targetDates.forEach] of [copySchedule]; empty targets are skipped. *)
Definition assignTargets (srcSched : Snapshot) (targetDates : list string)
    (m : gmap string Snapshot) : gmap string Snapshot :=
  foldl (fun acc targetDate =>
           if String.eqb targetDate "" then acc
           else <[targetDate := copyOf srcSched]> acc)
        m targetDates.

Definition copySchedule (fromDate : option string) (targetDates : list string)
    (st : State) : State :=
  match targetDates with
  | [] => st
  | _ =>
      match (match truthyDate fromDate with
             | Some d => Some d
             | None => truthyDate (currentDate st)
             end) with
      | None => st
      | Some sourceDate =>
          let st1 := saveCurrentSchedule st in
          match scheduleByDate st1 !! sourceDate with
          | None => st1
          | Some srcSched =>
              save (setScheduleByDate
                      (assignTargets srcSched targetDates (scheduleByDate st1)) st1)
          end
      end
  end.

(** ** Downtime analyzer ([dashboard.js]) *)

Definition GAP_THRESHOLD_MIN : Z := 45.
Definition GAP_HUGE_MIN : Z := 90.
Definition FIT_SLOT_MIN : Z := 105.

Definition normalizeDateForGap (dt : Z) : Z :=
  if getHours dt <? 5 then nextDay dt else dt.

(** [`${h}h${String(m).padStart(2, '0')}m`]; [%] is the remainder of
    truncated division. *)
Definition formatDuration (mins : Z) : string :=
  numStr (mins / 60) +:+ "h" +:+ pad (Z.rem mins 60) +:+ "m".

Inductive IssueType := Late | Gap | HugeGap.

Record Issue := mkIssue {
  i_audName : string;
  i_type : IssueType;
  i_message : string;
  i_minutes : Z
}.

(** An entry of a [byAud] list.  A resolved show always carries an [end], so
    the branch that recomputes a missing one is never taken. *)
Record Slot := mkSlot {
  sl_start : Z;
  sl_end : Z;
  sl_audName : string
}.

#[global] Instance IssueType_eq_dec : EqDecision IssueType.
Proof. solve_decision. Defined.
#[global] Instance Issue_eq_dec : EqDecision Issue.
Proof. solve_decision. Defined.
#[global] Instance Slot_eq_dec : EqDecision Slot.
Proof. solve_decision. Defined.

Definition slotOf (rec : Show) : Slot :=
  {| sl_start := s_start rec; sl_end := s_end rec; sl_audName := s_audName rec |}.

Fixpoint firstOccurrences (l : list Z) : list Z :=
  match l with
  | [] => []
  | x :: l' => x :: filter (fun y => y ≠ x) (firstOccurrences l')
  end.

(** A property key that is an array index: such keys come first, in
    ascending order, in [Object.keys]. *)
Definition isArrayIndex (a : Z) : bool := (0 <=? a) && (a <? 4294967295).

(** [Object.keys(byAud)]: shows without an auditorium ([!audId]) are left
    out; index keys ascending, then the other keys in insertion order. *)
Definition audKeys (shows : list Show) : list Z :=
  let uniq := firstOccurrences (filter (fun a => a ≠ 0) (s_audId <$> shows)) in
  stableSort Z.leb (filter (fun a => isArrayIndex a = true) uniq)
    ++ filter (fun a => isArrayIndex a ≠ true) uniq.

(** [byAud[audId]], in insertion order. *)
Definition slotsOfAud (shows : list Show) (audId : Z) : list Slot :=
  slotOf <$> filter (fun rec => s_audId rec = audId) shows.

Definition sortSlots (l : list Slot) : list Slot :=
  stableSort (fun a b => normalizeDateForGap (sl_start a) <=? normalizeDateForGap (sl_start b)) l.

Definition lateMinutes (windowStartRaw : Z) (first : Slot) : Z :=
  normalizeDateForGap (sl_start first) - normalizeDateForGap windowStartRaw.

Definition mkLate (audName : string) (windowStartRaw : Z) (first : Slot) : Issue :=
  {| i_audName := audName;
     i_type := Late;
     i_message := audName +:+ ": slot before first show from " +:+ to12 windowStartRaw
                    +:+ " to " +:+ to12 (sl_start first)
                    +:+ " (" +:+ formatDuration (lateMinutes windowStartRaw first) +:+ ")";
     i_minutes := lateMinutes windowStartRaw first |}.

Definition lateIssue (audName : string) (windowStartRaw : Z) (first : Slot) : list Issue :=
  if FIT_SLOT_MIN <=? lateMinutes windowStartRaw first
  then [mkLate audName windowStartRaw first] else [].

Definition gapMinutes (cur next : Slot) : Z :=
  normalizeDateForGap (sl_start next) - normalizeDateForGap (sl_end cur).

Definition mkGap (audName : string) (cur next : Slot) : Issue :=
  {| i_audName := audName;
     i_type := if GAP_HUGE_MIN <=? gapMinutes cur next then HugeGap else Gap;
     i_message := audName +:+ ": gap from " +:+ to12 (sl_end cur)
                    +:+ " to " +:+ to12 (sl_start next)
                    +:+ " (" +:+ formatDuration (gapMinutes cur next) +:+ ")";
     i_minutes := gapMinutes cur next |}.

Definition gapIssue (audName : string) (cur next : Slot) : list Issue :=
  if GAP_THRESHOLD_MIN <=? gapMinutes cur next then [mkGap audName cur next] else [].

(** [for (let i = 0; i < list.length - 1; i++)] over consecutive entries. *)
Fixpoint gapIssues (audName : string) (l : list Slot) : list Issue :=
  match l with
  | cur :: ((next :: _) as tl) => gapIssue audName cur next ++ gapIssues audName tl
  | _ => []
  end.

(** [list[0].audName || `Aud ${audId}`]. *)
Definition groupName (audId : Z) (first : Slot) : string :=
  if String.eqb (sl_audName first) "" then "Aud " +:+ numStr audId
  else sl_audName first.

(** The callback of [Object.keys(byAud).forEach]. *)
Definition issuesForAud (windowStartRaw audId : Z) (slots : list Slot) : list Issue :=
  match sortSlots slots with
  | [] => []
  | (first :: _) as list =>
      let audName := groupName audId first in
      lateIssue audName windowStartRaw first ++ gapIssues audName list
  end.

(** [issues.sort((a, b) => b.minutes - a.minutes)]. *)
Definition sortIssues (l : list Issue) : list Issue :=
  stableSort (fun a b => i_minutes b <=? i_minutes a) l.

Definition windowStartRawOf (st : State) : Z :=
  dtFromHM (if String.eqb (firstShowHM st) "" then "07:00" else firstShowHM st).

Definition analyze (windowStartRaw : Z) (shows : list Show) : list Issue :=
  sortIssues
    (audKeys shows ≫=
       fun audId => issuesForAud windowStartRaw audId (slotsOfAud shows audId)).

(** [computeFlaggedIssues()]; it stops when [getAllShows] does. *)
Definition computeFlaggedIssues (st : State) : option (list Issue) :=
  shows ← getAllShows st; Some (analyze (windowStartRawOf st) shows).

(** ** Vocabulary of the statements *)

(** The triple that deduplication is meant to keep unique. *)
Definition tripleOf (s : Show) : Z * Z * string := (s_start s, s_audId s, s_filmId s).

Fixpoint noUnderscore (s : string) : Prop :=
  match s with
  | EmptyString => True
  | String c s' => c <> "_"%char /\ noUnderscore s'
  end.

(** Row ids are minted as [`PRB-${b.id}`] for booking rows and as
    [`EX-${Date.now()}-...`] by [addExtraRow]. *)
Definition isMintedRowId (s : string) : bool :=
  String.prefix "PRB-" s || String.prefix "EX-" s.

(** The generated shows of a row that start before / after its prime time. *)
Definition preShowsIn (prime : Z) (l : list Show) : list Show :=
  filter (fun s => s_start s < prime) l.

Definition postShowsIn (prime : Z) (l : list Show) : list Show :=
  filter (fun s => prime < s_start s) l.

(** ** Sample data: the seed catalog of [defaultState] *)

Definition seedFilms : list Film :=
  [ mkFilm "F1" "Thunder Road" "" 124 18 20;
    mkFilm "F2" "Moon Harbor" "" 108 16 20;
    mkFilm "F3" "Galaxy Kids" "3D" 97 15 15 ].

Definition seedAuds : list Aud :=
  [ mkAud 1 "Aud 1"; mkAud 2 "Aud 2"; mkAud 3 "Aud 3" ].

Definition rowB1 : Row := mkRow "PRB-B1" (Some "F1") (Some 1) "19:00".

(** One prime row, window 07:00 to 23:00, nothing edited yet. *)
Definition seedState : State :=
  {| auds := seedAuds; films := seedFilms;
     primeRows := [rowB1]; extraRows := [];
     manualShows := []; overrides := ∅; hiddenShows := ∅;
     scheduleByDate := ∅; currentDate := Some "2025-08-19";
     firstShowHM := "07:00"; lastShowHM := "23:00";
     undoStack := [] |}.

(** A short film whose cycle is five minutes. *)
Definition shortFilm : Film := mkFilm "S1" "Short" "" 5 0 0.

Definition shortRow : Row := mkRow "PRB-S1" (Some "S1") (Some 1) "15:00".

Definition shortState : State :=
  {| auds := seedAuds; films := [shortFilm];
     primeRows := [shortRow]; extraRows := [];
     manualShows := []; overrides := ∅; hiddenShows := ∅;
     scheduleByDate := ∅; currentDate := Some "2025-08-19";
     firstShowHM := "07:00"; lastShowHM := "23:00";
     undoStack := [] |}.

(** An extra row still pointing at auditorium 4 after that auditorium was
    deleted from the catalog (the delete button of the auditorium list
    clears the reference in the prime rows only). *)
Definition strayRow : Row := mkRow "EX-1" (Some "F1") (Some 4) "19:00".

Definition strayState : State :=
  {| auds := seedAuds; films := seedFilms;
     primeRows := [rowB1]; extraRows := [strayRow];
     manualShows := []; overrides := ∅; hiddenShows := ∅;
     scheduleByDate := ∅; currentDate := Some "2025-08-19";
     firstShowHM := "07:00"; lastShowHM := "23:00";
     undoStack := [] |}.

(** The seed state after one manual show was added to the row at 13:00. *)
Definition manualState : State := addManualShow "M-1" "PRB-B1" "13:00" seedState.

(** The seed state after a film edit to an id the catalog does not hold,
    followed by a start edit of the same show. *)
Definition danglingState : Exec :=
  andThen (updateShowFilm "PRB-B1:0" (Some "ZZ") seedState)
          (updateShowStart "PRB-B1:0" "19:30").

(** The seed state with a manual show placed on the prime show's own slot. *)
Definition doubledState : State := addManualShow "M-2" "PRB-B1" "19:00" seedState.

(** The seed state after the prime show was moved to auditorium 2. *)
Definition movedState : State := fst (updateShowAud "PRB-B1:0" (Some 2) seedState).

(** The prime show of [rowB1] as generated. *)
Definition primeShowB1 : Show :=
  makeRec rowB1 0 (dtFromHM "19:00") (mkFilm "F1" "Thunder Road" "" 124 18 20) (mkAud 1 "Aud 1").

Definition emptySnapshot : Snapshot :=
  {| sn_primeRows := []; sn_extraRows := []; sn_manualShows := [];
     sn_overrides := ∅; sn_hiddenShows := ∅; sn_undoStack := [] |}.

(** The dates that copying can leave in the store: those already stored,
    the current date and the non-empty targets. *)
Definition datesAfterCopy (st : State) (targetDates : list string) : gset string :=
  dom (scheduleByDate st)
    ∪ from_option singleton ∅ (truthyDate (currentDate st))
    ∪ list_to_set (filter (fun t => t ≠ "") targetDates).

(** The dates of a set that sort after [t]. *)
Definition datesAfter (t : string) (K : gset string) : gset string :=
  filter (fun k => String.leb k t = false) K.

(** Fourteen stored dates, 2025-08-06 to 2025-08-19, the last one current
    and edited once. *)
Definition fullStore : gmap string Snapshot :=
  list_to_map
    ((fun d => (d, emptySnapshot)) <$>
       [ "2025-08-06"; "2025-08-07"; "2025-08-08"; "2025-08-09"; "2025-08-10";
         "2025-08-11"; "2025-08-12"; "2025-08-13"; "2025-08-14"; "2025-08-15";
         "2025-08-16"; "2025-08-17"; "2025-08-18"; "2025-08-19" ]).

Definition fullState : State :=
  setScheduleByDate fullStore (fst (updateShowStart "PRB-B1:0" "19:30" seedState)).

(** The seed state, edited once, with a second stored date whose manual
    show came back from storage with text dates. *)
Definition twoDateState : State :=
  setScheduleByDate
    {[ "2025-08-18" :=
         {| sn_primeRows := [rowB1]; sn_extraRows := [];
            sn_manualShows := [mkStored (asManual primeShowB1) true true];
            sn_overrides := ∅; sn_hiddenShows := {["PRB-B1:1"]};
            sn_undoStack := [UHide "PRB-B1:1" false] |} ]}
    (fst (updateShowStart "PRB-B1:0" "19:30" seedState)).

(** ** Further functions of [app.js] *)

(** [hmFromDate(d)]: 24-hour [HH:MM]. *)
Definition hmFromDate (d : Z) : string :=
  pad (getHours d) +:+ ":" +:+ pad (getMinutes d).








(** [listDates()]: [Object.keys(state.scheduleByDate).sort()]. *)
Definition listDates (st : State) : list string :=
  stableSort String.leb (map_to_list (scheduleByDate st)).*1.

(** The part of a state that [getAllShows] and the entry points work on. *)
Definition workingSet (st : State) :
    list Row * list Row * list Show * gmap string OverridePatch * gset string
    * list UndoEntry :=
  (primeRows st, extraRows st, manualShows st, overrides st, hiddenShows st,
   undoStack st).

(** What the generator reads: catalog, rows and operating window. *)
Definition generatorInputs (st : State) :
    list Aud * list Film * list Row * list Row * string * string :=
  (auds st, films st, primeRows st, extraRows st, firstShowHM st, lastShowHM st).

(** ** The pre and post cells of the prime page ([render]) *)

(** [times.sort((a, b) => a - b)]. *)
Definition sortTimes (times : list Z) : list Z := stableSort Z.leb times.

(** The [uniq] array: the label of each time in turn, pushed unless it is
    already included. *)
Definition uniqLabels (times : list Z) : list string :=
  foldl (fun uniq date =>
           let label := to12 date in
           if bool_decide (label ∈ uniq) then uniq else uniq ++ [label])
        [] times.

(** [uniq.slice(-8)] and [uniq.slice(0, 8)]. *)
Definition lastEight {A} (l : list A) : list A := drop (length l - 8) l.
Definition firstEight {A} (l : list A) : list A := take 8 l.

(** [row.filmId && row.audId && row.primeHM]. *)
Definition rowIsSet (row : Row) : bool :=
  match truthyStr (r_filmId row), truthyZ (r_audId row) with
  | Some _, Some _ => negb (String.eqb (r_primeHM row) "")
  | _, _ => false
  end.

(** The eight cells before the prime column: [new Array(8).fill(null)], the
    selected labels written into the rightmost cells. *)
Definition preCells (st : State) (row : Row) : list (option string) :=
  if rowIsSet row then
    let cycle := cycleMinutes (filmById st (r_filmId row)) in
    if 0 <? cycle then
      let primeStart := dtFromHM (r_primeHM row) in
      let firstWindow := dtFromHM (firstShowHM st) in
      let times := renderPreTimes cycle primeStart firstWindow in
      let selected := lastEight (uniqLabels (sortTimes times)) in
      replicate (8 - length selected) None ++ (Some <$> selected)
    else replicate 8 None
  else replicate 8 None.

(** The eight cells after the prime column, filled from the left. *)
Definition postCells (st : State) (row : Row) : list (option string) :=
  if rowIsSet row then
    let cycle := cycleMinutes (filmById st (r_filmId row)) in
    if 0 <? cycle then
      let primeStart := dtFromHM (r_primeHM row) in
      let lastWindow := windowLast st in
      let times := renderPostTimes cycle primeStart lastWindow in
      let selected := firstEight (uniqLabels (sortTimes times)) in
      (Some <$> selected) ++ replicate (8 - length selected) None
    else replicate 8 None
  else replicate 8 None.

(** ** The start-time options of a show ([optionsAround]) *)

(** The values of [m] in [for (let m = -90; m <= 90; m += 5)]. *)
Definition optionOffsets : list Z := (fun j => -90 + 5 * j) <$> seqZ 0 37.

(** [[...new Set(opts)]]: the first occurrence of each string, in order. *)
Fixpoint uniqueStrings (l : list string) : list string :=
  match l with
  | [] => []
  | x :: l' => x :: filter (fun y => y ≠ x) (uniqueStrings l')
  end.

(** [optionsAround(start)]; the default [sort()] compares the strings by
    code unit. *)
Definition optionsAround (st : State) (start : Z) : list string :=
  let first := dtFromHM (firstShowHM st) in
  let last := windowLast st in
  let opts :=
    omap (fun m =>
            let t := addMins start m in
            if (t <? first) || (last <? t) then None else Some (hmFromDate t))
         optionOffsets in
  stableSort String.leb (uniqueStrings opts).

(** * Proofs *)

Set Warnings "-clear-no-such-hyp".

(** * Generic list facts *)

Lemma omap_filter_fmap {A B C} (f : A -> option B) (g : B -> C) (h : A -> C)
    (P : A -> Prop) `{!forall x, Decision (P x)} (l : list A) :
  (forall x, x ∈ l -> P x -> exists y, f x = Some y /\ g y = h x) ->
  (forall x, x ∈ l -> ~ P x -> f x = None) ->
  g <$> omap f l = h <$> filter P l.
Proof.
  induction l as [|a l IH]; intros Hyes Hno; [reflexivity|].
  assert (Hin : a ∈ a :: l) by apply list_elem_of_here.
  assert (IH' : g <$> omap f l = h <$> filter P l).
  { apply IH; intros x Hx; [apply Hyes | apply Hno]; by apply list_elem_of_further. }
  destruct (decide (P a)) as [Hp|Hp].
  - destruct (Hyes a Hin Hp) as (y & Hy & Hg).
    rewrite filter_cons_True by done. cbn. rewrite Hy. cbn. by rewrite Hg, IH'.
  - rewrite filter_cons_False by done. cbn. rewrite (Hno a Hin Hp). exact IH'.
Qed.

Lemma filter_all {A} (P : A -> Prop) `{!forall x, Decision (P x)} (l : list A) :
  Forall P l -> filter P l = l.
Proof.
  induction 1 as [|x l Hx _ IH]; [reflexivity|].
  rewrite filter_cons_True by done. by rewrite IH.
Qed.

Lemma countDown_neg (n : Z) : countDown n = Z.opp <$> seqZ (- n) n.
Proof.
  unfold countDown.
  destruct (Z_le_gt_dec n 0) as [Hn|Hn].
  { by rewrite !seqZ_nil by done. }
  rewrite <- (Z2Nat.id n) by lia.
  induction (Z.to_nat n) as [|k IH]; [reflexivity|].
  rewrite seqZ_S, reverse_snoc, IH.
  rewrite (seqZ_cons (- Z.of_nat (S k))) by lia.
  cbn [fmap list_fmap]. f_equal; [lia|].
  f_equal. f_equal; lia.
Qed.

Lemma elem_of_countDown (n i : Z) : i ∈ countDown n <-> 1 <= i <= n.
Proof.
  unfold countDown. rewrite elem_of_reverse, elem_of_seqZ. lia.
Qed.

(** * Cycle generator *)

Lemma preShows_starts row film aud first prime cycle preCount :
  s_start <$> preShows row film aud first prime cycle preCount
  = (fun i => prime - i * cycle)
      <$> filter (fun i => first <= prime - i * cycle) (countDown preCount).
Proof.
  unfold preShows. apply omap_filter_fmap; intros i _ Hi; unfold addMins.
  - eexists. split.
    + destruct (Z.ltb_spec (prime + - i * cycle) first); [lia | reflexivity].
    + cbn. lia.
  - destruct (Z.ltb_spec (prime + - i * cycle) first); [reflexivity | lia].
Qed.

Lemma postShows_starts row film aud last prime cycle postCount :
  s_start <$> postShows row film aud last prime cycle postCount
  = (fun i => prime + i * cycle)
      <$> filter (fun i => prime + i * cycle <= last) (seqZ 1 postCount).
Proof.
  unfold postShows. apply omap_filter_fmap; intros i _ Hi; unfold addMins.
  - eexists. split.
    + destruct (Z.ltb_spec last (prime + i * cycle)); [lia | reflexivity].
    + reflexivity.
  - destruct (Z.ltb_spec last (prime + i * cycle)); [reflexivity | lia].
Qed.

Lemma buildRowShowtimes_unfold st row film aud :
  filmById st (r_filmId row) = Some film ->
  audById st (r_audId row) = Some aud ->
  r_primeHM row <> "" ->
  0 < cycleMinutes (Some film) ->
  buildRowShowtimes st row
  = preShows row film aud (dtFromHM (firstShowHM st)) (dtFromHM (r_primeHM row))
      (cycleMinutes (Some film))
      (diffMins (dtFromHM (r_primeHM row)) (dtFromHM (firstShowHM st))
         / cycleMinutes (Some film))
    ++ [makeRec row 0 (dtFromHM (r_primeHM row)) film aud]
    ++ postShows row film aud (windowLast st) (dtFromHM (r_primeHM row))
         (cycleMinutes (Some film))
         (diffMins (windowLast st) (dtFromHM (r_primeHM row))
            / cycleMinutes (Some film)).
Proof.
  intros Hf Ha Hp Hc. unfold buildRowShowtimes. rewrite Hf, Ha.
  destruct (String.eqb_spec (r_primeHM row) ""); [done|].
  destruct (Z.leb_spec (cycleMinutes (Some film)) 0); [lia | reflexivity].
Qed.

(** C1 (as amended).  Generation returns nothing exactly when the row's film
    or auditorium is not found in the catalog (an absent [filmId] or [audId]
    is never found), or the row has no prime time, or the film's cycle is not
    positive.  Otherwise, with the window end moved to the next day when its
    hour is before 05:00, the emitted starts are the pre-shows [p - i*c] for
    [i] from [preCount] down to 1 that are [>= first], then the prime show
    [p] itself whatever the window, then the post-shows [p + i*c] for [i]
    from 1 to [postCount] that are [<= last]; and when [p] lies in
    [[first, last)] these are exactly [p + k*c] for [k] from
    [-floor((p-first)/c)] to [floor((last-p)/c)], so their number is
    [floor((p-first)/c) + 1 + floor((last-p)/c)]. *)
Theorem generate_recurrence (st : State) (row : Row) :
  let first := dtFromHM (firstShowHM st) in
  let last0 := dtFromHM (lastShowHM st) in
  let last := windowLast st in
  let p := dtFromHM (r_primeHM row) in
  (buildRowShowtimes st row = [] <->
   filmById st (r_filmId row) = None \/ audById st (r_audId row) = None
   \/ r_primeHM row = "" \/ cycleMinutes (filmById st (r_filmId row)) <= 0)
  /\ (r_filmId row = None -> filmById st (r_filmId row) = None)
  /\ (r_audId row = None -> audById st (r_audId row) = None)
  /\ (last = if getHours last0 <? 5 then last0 + 1440 else last0)
  /\ forall film aud,
       filmById st (r_filmId row) = Some film ->
       audById st (r_audId row) = Some aud ->
       r_primeHM row <> "" ->
       let c := cycleMinutes (Some film) in
       0 < c ->
       let preCount := (p - first) / c in
       let postCount := (last - p) / c in
       s_start <$> buildRowShowtimes st row
       = ((fun i => p - i * c) <$> filter (fun i => first <= p - i * c) (countDown preCount))
         ++ [p]
         ++ ((fun i => p + i * c) <$> filter (fun i => p + i * c <= last) (seqZ 1 postCount))
       /\ Forall (fun s => exists k, s_start s = p + k * c) (buildRowShowtimes st row)
       /\ (first <= p < last ->
           s_start <$> buildRowShowtimes st row
           = (fun k => p + k * c) <$> seqZ (- preCount) (preCount + 1 + postCount)
           /\ Z.of_nat (length (buildRowShowtimes st row)) = preCount + 1 + postCount).
Proof.
  intros first last0 last p.
  split; [|split; [by intros ->|split; [by intros ->|split; [reflexivity|]]]].
  - split.
    + destruct (filmById st (r_filmId row)) as [film|] eqn:Hf; [|by left].
      destruct (audById st (r_audId row)) as [aud|] eqn:Ha; [|by right; left].
      destruct (String.eqb_spec (r_primeHM row) "") as [Hp|Hp]; [by right; right; left|].
      destruct (Z_le_gt_dec (cycleMinutes (Some film)) 0) as [Hc|Hc];
        [by right; right; right|].
      rewrite (buildRowShowtimes_unfold st row film aud Hf Ha Hp) by lia.
      intros H. apply (f_equal length) in H. rewrite !length_app in H. cbn in H. lia.
    + intros Hg. unfold buildRowShowtimes.
      destruct (filmById st (r_filmId row)) as [film|] eqn:Hf; [|reflexivity].
      destruct (audById st (r_audId row)) as [aud|] eqn:Ha; [|reflexivity].
      destruct Hg as [Hg|[Hg|[Hg|Hg]]]; [discriminate | discriminate | |].
      * rewrite Hg. reflexivity.
      * destruct (String.eqb (r_primeHM row) ""); [reflexivity|].
        destruct (Z.leb_spec (cycleMinutes (Some film)) 0); [reflexivity | lia].
  - intros film aud Hf Ha Hp c Hc preCount postCount.
    assert (Hstarts :
      s_start <$> buildRowShowtimes st row
      = ((fun i => p - i * c) <$> filter (fun i => first <= p - i * c) (countDown preCount))
        ++ [p]
        ++ ((fun i => p + i * c) <$> filter (fun i => p + i * c <= last) (seqZ 1 postCount))).
    { rewrite (buildRowShowtimes_unfold st row film aud Hf Ha Hp Hc).
      rewrite !fmap_app, preShows_starts, postShows_starts. reflexivity. }
    split; [exact Hstarts|]. split.
    + apply Forall_fmap with (f := s_start) (P := fun s => exists k, s = p + k * c).
      rewrite Hstarts. rewrite !Forall_app. repeat split.
      * apply Forall_fmap, Forall_forall. intros i _. exists (- i). cbn. lia.
      * repeat constructor. exists 0. lia.
      * apply Forall_fmap, Forall_forall. intros i _. exists i. reflexivity.
    + intros [Hlo Hhi].
      assert (Hpre : 0 <= preCount) by (apply Z.div_pos; lia).
      assert (Hpost : 0 <= postCount) by (apply Z.div_pos; lia).
      assert (Hpre' : c * preCount <= p - first) by (apply Z.mul_div_le; lia).
      assert (Hpost' : c * postCount <= last - p) by (apply Z.mul_div_le; lia).
      assert (Heq :
        s_start <$> buildRowShowtimes st row
        = (fun k => p + k * c) <$> seqZ (- preCount) (preCount + 1 + postCount)).
      { rewrite Hstarts.
        rewrite !filter_all.
        2:{ apply Forall_forall. intros i Hi. apply elem_of_seqZ in Hi. nia. }
        2:{ apply Forall_forall. intros i Hi. apply elem_of_countDown in Hi. nia. }
        rewrite countDown_neg, <- list_fmap_compose.
        replace (preCount + 1 + postCount) with (preCount + (1 + postCount)) by lia.
        rewrite (seqZ_app _ preCount) by lia.
        rewrite (seqZ_app _ 1 postCount) by lia.
        rewrite !fmap_app. f_equal.
        - apply list_fmap_ext. intros _ k _. cbn. lia.
        - replace (- preCount + preCount) with 0 by lia.
          change (seqZ 0 1) with [0]. change (0 + 1) with 1. cbn.
          f_equal. lia. }
      split; [exact Heq|].
      rewrite <- (length_fmap s_start), Heq, length_fmap, length_seqZ. lia.
Qed.

Lemma generate_recurrence_witness :
  s_start <$> buildRowShowtimes seedState rowB1 = [480; 645; 810; 975; 1140; 1305]
  /\ Z.of_nat (length (buildRowShowtimes seedState rowB1)) = 4 + 1 + 1.
Proof.
  destruct (generate_recurrence seedState rowB1) as (_ & _ & _ & _ & H).
  destruct (H (mkFilm "F1" "Thunder Road" "" 124 18 20) (mkAud 1 "Aud 1") eq_refl eq_refl)
    as (_ & _ & Hw).
  - discriminate.
  - vm_compute. reflexivity.
  - destruct Hw as [Hs Hl].
    + vm_compute. split; [discriminate | reflexivity].
    + split; [rewrite Hs | rewrite Hl]; vm_compute; reflexivity.
Defined.

(** C1 fails as stated: a row can have a film id, an auditorium id, a prime
    time inside the window and a film of positive cycle, and still generate
    nothing, not even its prime show, because its auditorium id names no
    auditorium of the catalog. *)
Lemma generate_stray_auditorium_counterexample :
  ~ (r_filmId strayRow <> None -> r_audId strayRow <> None ->
     r_primeHM strayRow <> "" ->
     0 < cycleMinutes (filmById strayState (r_filmId strayRow)) ->
     dtFromHM (firstShowHM strayState) <= dtFromHM (r_primeHM strayRow)
       < windowLast strayState ->
     dtFromHM (r_primeHM strayRow) ∈ s_start <$> buildRowShowtimes strayState strayRow
     /\ Z.of_nat (length (buildRowShowtimes strayState strayRow))
        = (dtFromHM (r_primeHM strayRow) - dtFromHM (firstShowHM strayState))
            / cycleMinutes (filmById strayState (r_filmId strayRow))
          + 1
          + (windowLast strayState - dtFromHM (r_primeHM strayRow))
            / cycleMinutes (filmById strayState (r_filmId strayRow))).
Proof.
  intros H.
  assert (Hc : 0 < cycleMinutes (filmById strayState (r_filmId strayRow)))
    by (vm_compute; reflexivity).
  assert (Hw : dtFromHM (firstShowHM strayState) <= dtFromHM (r_primeHM strayRow)
               < windowLast strayState)
    by (vm_compute; split; [discriminate | reflexivity]).
  destruct (H ltac:(discriminate) ltac:(discriminate) ltac:(discriminate) Hc Hw)
    as [Hin _].
  vm_compute in Hin. by apply elem_of_nil in Hin.
Qed.


(** * Stable sorting *)

Section StableSortFacts.
Context {A : Type} (leb : A -> A -> bool).

Lemma insertSorted_Permutation x l : insertSorted leb x l ≡ₚ x :: l.
Proof.
  induction l as [|y l IH]; cbn; [reflexivity|].
  destruct (leb x y); [reflexivity|].
  rewrite IH. apply Permutation_swap.
Qed.

Lemma stableSort_Permutation l : stableSort leb l ≡ₚ l.
Proof.
  induction l as [|x l IH]; cbn; [reflexivity|].
  rewrite insertSorted_Permutation. by rewrite IH.
Qed.

Lemma elem_of_stableSort x l : x ∈ stableSort leb l <-> x ∈ l.
Proof. by rewrite stableSort_Permutation. Qed.

Hypothesis leb_total : forall x y, leb x y = false -> leb y x = true.
Hypothesis leb_trans : forall x y z, leb x y = true -> leb y z = true -> leb x z = true.

Lemma insertSorted_StronglySorted x l :
  StronglySorted (fun a b => leb a b = true) l ->
  StronglySorted (fun a b => leb a b = true) (insertSorted leb x l).
Proof.
  induction 1 as [|y l Hl IH Hy]; cbn.
  - repeat constructor.
  - destruct (leb x y) eqn:Hxy.
    + constructor; [by constructor|].
      constructor; [exact Hxy|].
      eapply Forall_impl; [exact Hy|]. intros z Hz. by eapply leb_trans.
    + constructor; [exact IH|].
      rewrite insertSorted_Permutation. constructor; [by apply leb_total | exact Hy].
Qed.

Lemma stableSort_StronglySorted l :
  StronglySorted (fun a b => leb a b = true) (stableSort leb l).
Proof.
  induction l as [|x l IH]; cbn; [constructor|].
  by apply insertSorted_StronglySorted.
Qed.
End StableSortFacts.

Lemma StronglySorted_weaken {A} (R1 R2 : relation A) l :
  (forall a b, R1 a b -> R2 a b) -> StronglySorted R1 l -> StronglySorted R2 l.
Proof.
  intros HR. induction 1 as [|x l Hl IH Hx]; constructor; [exact IH|].
  eapply Forall_impl; [exact Hx|]. intros y. apply HR.
Qed.

Lemma sortByStart_Permutation l : sortByStart l ≡ₚ l.
Proof. apply stableSort_Permutation. Qed.

Lemma sortByStart_sorted l :
  StronglySorted (fun a b => s_start a <= s_start b) (sortByStart l).
Proof.
  eapply StronglySorted_weaken with (R1 := fun a b => (s_start a <=? s_start b) = true).
  - intros a b. apply Z.leb_le.
  - apply stableSort_StronglySorted.
    + intros x y H. apply Z.leb_gt in H. apply Z.leb_le. lia.
    + intros x y z H1 H2. apply Z.leb_le in H1, H2. apply Z.leb_le. lia.
Qed.

(** * Deduplication *)

Lemma dedupe_elem_of seen l x : x ∈ dedupe seen l -> x ∈ l.
Proof.
  revert seen. induction l as [|y l IH]; intros seen; cbn; [done|].
  destruct (decide (showKey y ∈ seen)).
  - intros H. right. by eapply IH.
  - intros [->|H]%elem_of_cons; [left | right; by eapply IH].
Qed.

Lemma dedupe_Forall (P : Show -> Prop) seen l : Forall P l -> Forall P (dedupe seen l).
Proof.
  intros H. apply Forall_forall. intros x Hx%dedupe_elem_of.
  by eapply Forall_forall in H.
Qed.

Lemma dedupe_StronglySorted (R : relation Show) seen l :
  StronglySorted R l -> StronglySorted R (dedupe seen l).
Proof.
  intros H. revert seen. induction H as [|y l Hl IH Hy]; intros seen; cbn; [constructor|].
  destruct (decide (showKey y ∈ seen)); [apply IH|].
  constructor; [apply IH | by apply dedupe_Forall].
Qed.

Lemma dedupe_keys_fresh seen l x : x ∈ dedupe seen l -> showKey x ∉ seen.
Proof.
  revert seen. induction l as [|y l IH]; intros seen; cbn; [by intros ?%elem_of_nil|].
  destruct (decide (showKey y ∈ seen)); [apply IH|].
  intros [->|H]%elem_of_cons; [done|].
  apply IH in H. set_solver.
Qed.

Lemma dedupe_keys_NoDup seen l : NoDup (showKey <$> dedupe seen l).
Proof.
  revert seen. induction l as [|y l IH]; intros seen; cbn; [constructor|].
  destruct (decide (showKey y ∈ seen)); [apply IH|].
  cbn. constructor; [|apply IH].
  intros (x & Hk & Hx)%list_elem_of_fmap.
  apply dedupe_keys_fresh in Hx. set_solver.
Qed.

Lemma dedupe_keeps_first seen l1 x l2 :
  showKey x ∉ seen ->
  (forall y, y ∈ l1 -> showKey y <> showKey x) ->
  x ∈ dedupe seen (l1 ++ x :: l2).
Proof.
  revert seen. induction l1 as [|y l1 IH]; intros seen Hseen Hl1; cbn.
  - destruct (decide (showKey x ∈ seen)); [done | left].
  - assert (Hy : showKey y <> showKey x) by (apply Hl1; left).
    destruct (decide (showKey y ∈ seen)).
    + apply IH; [done|]. intros z Hz. apply Hl1. by right.
    + right. apply IH; [set_solver|]. intros z Hz. apply Hl1. by right.
Qed.

(** * The deduplication key determines the triple *)


Lemma string_of_uint_noUnderscore d : noUnderscore (NilEmpty.string_of_uint d).
Proof. induction d; cbn; (split; [discriminate | assumption]) || exact I. Qed.

Lemma numStr_noUnderscore z : noUnderscore (numStr z).
Proof.
  unfold numStr. destruct (Z.to_int z) as [d|d]; cbn.
  - apply string_of_uint_noUnderscore.
  - split; [discriminate | apply string_of_uint_noUnderscore].
Qed.

Lemma numStr_inj z1 z2 : numStr z1 = numStr z2 -> z1 = z2.
Proof.
  unfold numStr. intros H. apply to_int_inj.
  assert (Some (Z.to_int z1) = Some (Z.to_int z2)) as [= ->]; [|done].
  rewrite <- !NilEmpty.isi. by rewrite H.
Qed.

Lemma split_at_underscore s1 s2 r1 r2 :
  noUnderscore s1 -> noUnderscore s2 ->
  s1 +:+ String "_" r1 = s2 +:+ String "_" r2 -> s1 = s2 /\ r1 = r2.
Proof.
  revert s2. induction s1 as [|c s1 IH]; intros [|c2 s2]; cbn.
  - intros _ _ [= ->]. done.
  - intros _ [Hc _] [= <- _]. done.
  - intros [Hc _] _ [= -> _]. done.
  - intros [_ H1] [_ H2] [= -> H]. destruct (IH _ H1 H2 H) as [-> ->]. done.
Qed.



Lemma showKey_inj x y : showKey x = showKey y <-> tripleOf x = tripleOf y.
Proof.
  unfold showKey, tripleOf. split.
  - intros H.
    apply split_at_underscore in H as [H1 H2]; try apply numStr_noUnderscore.
    apply split_at_underscore in H2 as [H2 H3]; try apply numStr_noUnderscore.
    apply numStr_inj in H1, H2. unfold getTime in H1.
    f_equal; [f_equal|]; [lia | done | done].
  - intros [= -> -> ->]. reflexivity.
Qed.

(** * Resolution *)

Lemma filmById_id st i film : filmById st (Some i) = Some film -> f_id film = i.
Proof.
  cbn. intros H. apply find_some in H as [_ H]. by apply String.eqb_eq in H.
Qed.

Lemma findShow_Some showId shows rec :
  findShow showId shows = Some rec -> rec ∈ shows /\ s_id rec = showId.
Proof.
  intros H. apply find_some in H as [Hin H].
  split; [by apply list_elem_of_In | by apply String.eqb_eq].
Qed.

Lemma truthyStr_Some o f : truthyStr o = Some f -> o = Some f /\ f <> "".
Proof.
  destruct o as [s|]; cbn; [|done].
  destruct (String.eqb_spec s ""); [done|]. by intros [= ->].
Qed.

Lemma truthyZ_Some o a : truthyZ o = Some a -> o = Some a /\ a <> 0.
Proof.
  destruct o as [z|]; cbn; [|done].
  destruct (Z.eqb_spec z 0); [done|]. by intros [= ->].
Qed.

Lemma regroup_fields r u ov :
  s_id (regroup r u ov) = s_id u /\ s_audId (regroup r u ov) = s_audId u
  /\ s_filmId (regroup r u ov) = s_filmId u /\ s_start (regroup r u ov) = s_start u.
Proof. unfold regroup. by destruct (redirects r ov). Qed.

Lemma applyFilm_fields st r u ov :
  s_id (applyFilm st r u ov) = s_id u /\ s_audId (applyFilm st r u ov) = s_audId u
  /\ s_start (applyFilm st r u ov) = s_start u
  /\ s_source (applyFilm st r u ov) = s_source u
  /\ s_rowId (applyFilm st r u ov) = s_rowId u.
Proof.
  unfold applyFilm. destruct (truthyStr (ov_filmId ov)); [|done].
  destruct (String.eqb _ _); [done|]. by destruct (filmById st _).
Qed.

Lemma applyAud_fields st u ov :
  s_id (applyAud st u ov) = s_id u /\ s_filmId (applyAud st u ov) = s_filmId u
  /\ s_start (applyAud st u ov) = s_start u
  /\ s_source (applyAud st u ov) = s_source u
  /\ s_rowId (applyAud st u ov) = s_rowId u
  /\ s_audId (applyAud st u ov) = default (s_audId u) (truthyZ (ov_audId ov)).
Proof. unfold applyAud. by destruct (truthyZ (ov_audId ov)). Qed.

Lemma applyStart_fields st r ov u :
  applyStart st r ov = Some u ->
  s_id u = s_id r /\ s_audId u = s_audId r /\ s_filmId u = s_filmId r
  /\ s_source u = s_source r /\ s_rowId u = s_rowId r
  /\ s_start u = default (s_start r) (ov_start ov).
Proof.
  unfold applyStart. destruct (ov_start ov); [|by intros [= <-]].
  destruct (filmById st _); [|done]. by intros [= <-].
Qed.

Lemma applyOverride_inv st r ov u :
  applyOverride st r ov = Some u ->
  exists u1, applyStart st r ov = Some u1
             /\ u = regroup r (applyFilm st r (applyAud st u1 ov) ov) ov.
Proof.
  unfold applyOverride. destruct (applyStart st r ov) as [u1|]; [|done].
  cbn. intros [= <-]. by exists u1.
Qed.

Lemma resolveShow_id st r u : resolveShow st r = Some u -> s_id u = s_id r.
Proof.
  unfold resolveShow. destruct (overrides st !! s_id r) as [ov|]; [|by intros [= <-]].
  intros (u1 & H1 & ->)%applyOverride_inv.
  destruct (regroup_fields r (applyFilm st r (applyAud st u1 ov) ov) ov) as (-> & _).
  destruct (applyFilm_fields st r (applyAud st u1 ov) ov) as (-> & _).
  destruct (applyAud_fields st u1 ov) as (-> & _).
  by destruct (applyStart_fields _ _ _ _ H1) as (-> & _).
Qed.

Lemma resolveShow_start st r u ov :
  resolveShow st r = Some u -> overrides st !! s_id r = Some ov ->
  s_start u = default (s_start r) (ov_start ov).
Proof.
  unfold resolveShow. intros H Hov. rewrite Hov in H.
  apply applyOverride_inv in H as (u1 & H1 & ->).
  destruct (regroup_fields r (applyFilm st r (applyAud st u1 ov) ov) ov) as (_ & _ & _ & ->).
  destruct (applyFilm_fields st r (applyAud st u1 ov) ov) as (_ & _ & -> & _).
  destruct (applyAud_fields st u1 ov) as (_ & _ & -> & _).
  by destruct (applyStart_fields _ _ _ _ H1) as (_ & _ & _ & _ & _ & ->).
Qed.

Lemma resolveShow_aud st r u ov :
  resolveShow st r = Some u -> overrides st !! s_id r = Some ov ->
  s_audId u = default (s_audId r) (truthyZ (ov_audId ov)).
Proof.
  unfold resolveShow. intros H Hov. rewrite Hov in H.
  apply applyOverride_inv in H as (u1 & H1 & ->).
  destruct (regroup_fields r (applyFilm st r (applyAud st u1 ov) ov) ov) as (_ & -> & _).
  destruct (applyFilm_fields st r (applyAud st u1 ov) ov) as (_ & -> & _).
  destruct (applyAud_fields st u1 ov) as (_ & _ & _ & _ & _ & ->).
  by destruct (applyStart_fields _ _ _ _ H1) as (_ & -> & _).
Qed.

(** The film of a resolved show: the override's film when it is set, differs
    from the base and is in the catalog; the base film otherwise. *)
Lemma resolveShow_film st r u ov :
  resolveShow st r = Some u -> overrides st !! s_id r = Some ov ->
  s_filmId u = match truthyStr (ov_filmId ov) with
               | Some f => if String.eqb f (s_filmId r) then s_filmId r
                           else match filmById st (Some f) with
                                | Some _ => f
                                | None => s_filmId r
                                end
               | None => s_filmId r
               end.
Proof.
  unfold resolveShow. intros H Hov. rewrite Hov in H.
  apply applyOverride_inv in H as (u1 & H1 & ->).
  destruct (regroup_fields r (applyFilm st r (applyAud st u1 ov) ov) ov) as (_ & _ & -> & _).
  destruct (applyAud_fields st u1 ov) as (_ & Haf & _).
  destruct (applyStart_fields _ _ _ _ H1) as (_ & _ & Hsf & _).
  unfold applyFilm. destruct (truthyStr (ov_filmId ov)) as [f|]; [|congruence].
  destruct (String.eqb f (s_filmId r)); [congruence|].
  destruct (filmById st (Some f)) as [film|] eqn:Hfilm; [|congruence].
  cbn. exact (filmById_id st f film Hfilm).
Qed.

Lemma resolveShow_source st r u :
  resolveShow st r = Some u -> s_source u = s_source r \/ s_source u = Override.
Proof.
  unfold resolveShow. destruct (overrides st !! s_id r) as [ov|]; [|intros [= <-]; by left].
  intros (u1 & H1 & ->)%applyOverride_inv.
  unfold regroup. destruct (redirects r ov); [by right|]. left.
  destruct (applyFilm_fields st r (applyAud st u1 ov) ov) as (_ & _ & _ & -> & _).
  destruct (applyAud_fields st u1 ov) as (_ & _ & _ & -> & _).
  by destruct (applyStart_fields _ _ _ _ H1) as (_ & _ & _ & -> & _).
Qed.

Lemma getAllShows_inv st shows :
  getAllShows st = Some shows ->
  exists mapped, mapM (resolveShow st) (visibleShows st) = Some mapped
                 /\ shows = dedupe ∅ (sortByStart mapped).
Proof.
  unfold getAllShows. destruct (mapM _ _) as [mapped|]; [|done].
  cbn. intros [= <-]. by exists mapped.
Qed.

Lemma mapM_elem_of {A B} (f : A -> option B) l k y :
  mapM f l = Some k -> y ∈ k -> exists x, x ∈ l /\ f x = Some y.
Proof.
  intros H%mapM_Some_1. induction H as [|x y' l k Hxy _ IH]; [by intros ?%elem_of_nil|].
  intros [->|Hy]%elem_of_cons.
  - exists x. split; [left | done].
  - destruct (IH Hy) as (x' & ? & ?). exists x'. split; [by right | done].
Qed.

Lemma getAllShows_elem_of st shows u :
  getAllShows st = Some shows -> u ∈ shows ->
  exists r, r ∈ visibleShows st /\ resolveShow st r = Some u.
Proof.
  intros (mapped & Hm & ->)%getAllShows_inv Hu.
  apply dedupe_elem_of in Hu. apply elem_of_stableSort in Hu.
  by eapply mapM_elem_of.
Qed.

Lemma buildRowShowtimes_elem st row r :
  r ∈ buildRowShowtimes st row -> s_rowId r = r_rowId row /\ s_source r = Prime.
Proof.
  unfold buildRowShowtimes.
  destruct (filmById st (r_filmId row)) as [film|]; [|by intros ?%elem_of_nil].
  destruct (audById st (r_audId row)) as [aud|]; [|by intros ?%elem_of_nil].
  destruct (String.eqb _ _); [by intros ?%elem_of_nil|].
  destruct (Z.leb _ _); [by intros ?%elem_of_nil|].
  rewrite !elem_of_app, list_elem_of_singleton.
  unfold preShows, postShows. rewrite !list_elem_of_omap.
  intros [(i & _ & Hi)|[->|(i & _ & Hi)]]; [|done|].
  - destruct (_ <? _); [done|]. by injection Hi as <-.
  - destruct (_ <? _); [done|]. by injection Hi as <-.
Qed.

(** C4. The resolved list holds no two shows with the same
    (start, audId, filmId) triple: it is what is left of the resolved shows,
    sorted by start, after every show whose triple already occurred earlier
    in that order has been dropped, so the earliest one of each triple is
    the one that is kept. *)
Theorem getAllShows_no_duplicate_triples (st : State) (shows : list Show) :
  getAllShows st = Some shows ->
  NoDup (tripleOf <$> shows)
  /\ exists mapped,
       mapM (resolveShow st) (visibleShows st) = Some mapped
       /\ sortByStart mapped ≡ₚ mapped
       /\ StronglySorted (fun a b => s_start a <= s_start b) (sortByStart mapped)
       /\ (forall x, x ∈ shows -> x ∈ sortByStart mapped)
       /\ (forall l1 x l2,
             sortByStart mapped = l1 ++ x :: l2 ->
             (forall y, y ∈ l1 -> tripleOf y <> tripleOf x) ->
             x ∈ shows).
Proof.
  intros (mapped & Hm & ->)%getAllShows_inv. split.
  - pose proof (dedupe_keys_NoDup ∅ (sortByStart mapped)) as Hk.
    induction (dedupe ∅ (sortByStart mapped)) as [|x l IH]; [constructor|].
    cbn in *. apply NoDup_cons in Hk as [Hx Hl].
    constructor; [|by apply IH].
    intros (y & Hy & Hin)%list_elem_of_fmap. apply Hx.
    apply list_elem_of_fmap. exists y. split; [|done].
    by apply showKey_inj.
  - exists mapped. split; [done|]. split; [apply sortByStart_Permutation|].
    split; [apply sortByStart_sorted|]. split.
    + intros x. apply dedupe_elem_of.
    + intros l1 x l2 -> Hfirst. apply dedupe_keeps_first; [set_solver|].
      intros y Hy Hk. apply (Hfirst y Hy). by apply showKey_inj.
Qed.

Lemma getAllShows_no_duplicate_triples_witness :
  exists shows, getAllShows doubledState = Some shows
                /\ NoDup (tripleOf <$> shows)
                /\ length (visibleShows doubledState) = 7%nat
                /\ length shows = 6%nat.
Proof.
  eexists. split; [vm_compute; reflexivity|]. split.
  - refine (proj1 (getAllShows_no_duplicate_triples doubledState _ _)).
    vm_compute; reflexivity.
  - split; vm_compute; reflexivity.
Defined.

(** C10. The list returned by [getAllShows] is in non-decreasing order of
    start time: it is sorted before deduplication, and dropping duplicates
    keeps the order. *)
Theorem getAllShows_sorted_by_start (st : State) (shows : list Show) :
  getAllShows st = Some shows ->
  StronglySorted (fun a b => s_start a <= s_start b) shows.
Proof.
  intros (mapped & Hm & ->)%getAllShows_inv.
  apply dedupe_StronglySorted, sortByStart_sorted.
Qed.

Lemma getAllShows_sorted_by_start_witness :
  exists shows, getAllShows manualState = Some shows
                /\ s_start <$> shows = [480; 645; 780; 810; 975; 1140; 1305]
                /\ StronglySorted (fun a b => s_start a <= s_start b) shows.
Proof.
  eexists. split; [vm_compute; reflexivity|]. split; [vm_compute; reflexivity|].
  apply (getAllShows_sorted_by_start manualState). vm_compute; reflexivity.
Defined.

(** * Regrouping *)

Lemma dynRowId_not_minted a f : isMintedRowId (dynRowId a f) = false.
Proof. reflexivity. Qed.

(** C5. When the override of a generated show leaves it with an auditorium
    or a film other than the base show's, the resolved show has source
    [Override] and the row id [OV-<aud>-<film>] built from its own resolved
    auditorium and film alone; shows redirected to one destination therefore
    share that row id, and it differs from the id of the generating row. *)
Theorem override_regroups_by_destination (st : State) (row : Row) (r u : Show) :
  r ∈ buildRowShowtimes st row ->
  isMintedRowId (r_rowId row) = true ->
  resolveShow st r = Some u ->
  s_audId u <> s_audId r \/ s_filmId u <> s_filmId r ->
  s_source u = Override
  /\ s_rowId u = dynRowId (s_audId u) (s_filmId u)
  /\ s_rowId u <> s_rowId r
  /\ forall row' r' u',
       r' ∈ buildRowShowtimes st row' ->
       resolveShow st r' = Some u' ->
       s_audId u' <> s_audId r' \/ s_filmId u' <> s_filmId r' ->
       s_audId u' = s_audId u -> s_filmId u' = s_filmId u ->
       s_rowId u' = s_rowId u.
Proof.
  assert (Hcore : forall r u,
    resolveShow st r = Some u ->
    s_audId u <> s_audId r \/ s_filmId u <> s_filmId r ->
    s_source u = Override /\ s_rowId u = dynRowId (s_audId u) (s_filmId u)).
  { clear. intros r u Hres Hdiff.
    destruct (overrides st !! s_id r) as [ov|] eqn:Hov.
    2:{ unfold resolveShow in Hres. rewrite Hov in Hres.
        injection Hres as <-. by destruct Hdiff. }
    pose proof (resolveShow_aud st r u ov Hres Hov) as Haud.
    pose proof (resolveShow_film st r u ov Hres Hov) as Hfilm.
    unfold resolveShow in Hres. rewrite Hov in Hres.
    apply applyOverride_inv in Hres as (u1 & H1 & Hu).
    set (u3 := applyFilm st r (applyAud st u1 ov) ov) in *.
    assert (Hred : redirects r ov = true).
    { unfold redirects. destruct Hdiff as [Hd|Hd].
      - rewrite Haud in Hd. destruct (truthyZ (ov_audId ov)) as [a|]; [|done].
        cbn in Hd. apply orb_true_iff. left. apply negb_true_iff. by apply Z.eqb_neq.
      - rewrite Hfilm in Hd. destruct (truthyStr (ov_filmId ov)) as [f|]; [|done].
        apply orb_true_iff. right.
        destruct (String.eqb f (s_filmId r)); [done | reflexivity]. }
    assert (Ha3 : s_audId u3 = s_audId u).
    { rewrite Hu. by destruct (regroup_fields r u3 ov) as (_ & -> & _). }
    assert (Hf3 : s_filmId u3 = s_filmId u).
    { rewrite Hu. by destruct (regroup_fields r u3 ov) as (_ & _ & -> & _). }
    rewrite Hu at 1 2. unfold regroup. rewrite Hred. cbn. split; [done|].
    rewrite Ha3, Hf3. f_equal.
    - destruct (Z.eqb_spec (s_audId u) 0) as [H0|]; [|done].
      rewrite Haud in *. destruct (truthyZ (ov_audId ov)) as [a|] eqn:Ha; [|done].
      apply truthyZ_Some in Ha as [_ Ha]. cbn in H0. done.
    - destruct (String.eqb_spec (s_filmId u) "") as [H0|]; [|done].
      rewrite Hfilm in *. destruct (truthyStr (ov_filmId ov)) as [f|] eqn:Hf; [|done].
      apply truthyStr_Some in Hf as [_ Hf].
      destruct (String.eqb f (s_filmId r)); [done|].
      destruct (filmById st (Some f)); [done | done]. }
  intros Hr Hminted Hres Hdiff.
  destruct (Hcore r u Hres Hdiff) as [Hsrc Hrow].
  split; [done|]. split; [done|]. split.
  - intros Heq. apply buildRowShowtimes_elem in Hr as [Hr _].
    rewrite <- Hr, <- Heq, Hrow, dynRowId_not_minted in Hminted. done.
  - intros row' r' u' _ Hres' Hdiff' Ha Hf.
    destruct (Hcore r' u' Hres' Hdiff') as [_ Hrow']. by rewrite Hrow', Hrow, Ha, Hf.
Qed.

Lemma override_regroups_by_destination_witness :
  exists u, resolveShow movedState primeShowB1 = Some u
            /\ s_source u = Override /\ s_rowId u = "OV-2-F1" /\ s_rowId u <> "PRB-B1".
Proof.
  eexists. split; [vm_compute; reflexivity|].
  assert (Hin : primeShowB1 ∈ buildRowShowtimes movedState rowB1).
  { vm_compute. do 4 right. left. }
  destruct (override_regroups_by_destination movedState rowB1 primeShowB1 _ Hin
              eq_refl eq_refl) as (H1 & H2 & H3 & _).
  - left. vm_compute. discriminate.
  - split; [exact H1|]. split; [exact H2 | exact H3].
Defined.

(** * Step bounds *)

Lemma stepBack_length fuel cycle firstWindow t :
  (length (stepBack fuel cycle firstWindow t) <= fuel)%nat.
Proof.
  revert t. induction fuel as [|k IH]; intros t; cbn; [lia|].
  destruct (firstWindow <=? t); cbn; [|lia]. specialize (IH (t - cycle)). lia.
Qed.

Lemma stepForward_length fuel cycle lastWindow t :
  (length (stepForward fuel cycle lastWindow t) <= fuel)%nat.
Proof.
  revert t. induction fuel as [|k IH]; intros t; cbn; [lia|].
  destruct (t <=? lastWindow); cbn; [|lia]. specialize (IH (t + cycle)). lia.
Qed.

Lemma length_omap_le {A B} (f : A -> option B) l : (length (omap f l) <= length l)%nat.
Proof. induction l as [|x l IH]; cbn; [lia|]. destruct (f x); cbn; lia. Qed.

Lemma filter_none {A} (P : A -> Prop) `{!forall x, Decision (P x)} (l : list A) :
  Forall (fun x => ~ P x) l -> filter P l = [].
Proof.
  induction 1 as [|x l Hx _ IH]; [reflexivity|].
  by rewrite filter_cons_False.
Qed.

Lemma preShows_before row film aud first prime cycle preCount :
  0 < cycle ->
  Forall (fun s => s_start s < prime) (preShows row film aud first prime cycle preCount).
Proof.
  intros Hc. apply Forall_forall. intros s (i & Hi & Hs)%list_elem_of_omap.
  apply elem_of_countDown in Hi. unfold addMins in Hs.
  destruct (_ <? _); [done|]. injection Hs as <-. cbn. nia.
Qed.

Lemma postShows_after row film aud last prime cycle postCount :
  0 < cycle ->
  Forall (fun s => prime < s_start s) (postShows row film aud last prime cycle postCount).
Proof.
  intros Hc. apply Forall_forall. intros s (i & Hi & Hs)%list_elem_of_omap.
  apply elem_of_seqZ in Hi. unfold addMins in Hs.
  destruct (_ <? _); [done|]. injection Hs as <-. cbn. nia.
Qed.

Lemma length_preShows row film aud first prime cycle preCount :
  (length (preShows row film aud first prime cycle preCount) <= Z.to_nat preCount)%nat.
Proof.
  unfold preShows. etransitivity; [apply length_omap_le|].
  unfold countDown. by rewrite length_reverse, length_seqZ.
Qed.

Lemma length_postShows row film aud last prime cycle postCount :
  (length (postShows row film aud last prime cycle postCount) <= Z.to_nat postCount)%nat.
Proof.
  unfold postShows. etransitivity; [apply length_omap_le|].
  by rewrite length_seqZ.
Qed.

(** C9 (as amended).  Generation has no iteration ceiling of its own: it
    ends because its two loops run over the finitely many steps
    [preCount .. 1] and [1 .. postCount], so a row yields at most
    [floor((prime - first) / cycle)] shows before its prime time and at most
    [floor((last - prime) / cycle)] after it.  The ceiling of 50 iterations
    belongs to the two stepping loops of the prime page, each of which
    collects at most 50 times whatever the cycle length is. *)
Theorem stepping_is_bounded (st : State) (row : Row)
    (cycle primeStart firstWindow lastWindow : Z) :
  let first := dtFromHM (firstShowHM st) in
  let last := windowLast st in
  let p := dtFromHM (r_primeHM row) in
  let c := cycleMinutes (filmById st (r_filmId row)) in
  (length (renderPreTimes cycle primeStart firstWindow) <= 50)%nat
  /\ (length (renderPostTimes cycle primeStart lastWindow) <= 50)%nat
  /\ (length (preShowsIn p (buildRowShowtimes st row)) <= Z.to_nat ((p - first) / c))%nat
  /\ (length (postShowsIn p (buildRowShowtimes st row)) <= Z.to_nat ((last - p) / c))%nat.
Proof.
  intros first last p c.
  split; [apply stepBack_length|]. split; [apply stepForward_length|].
  unfold preShowsIn, postShowsIn.
  destruct (filmById st (r_filmId row)) as [film|] eqn:Hf.
  2:{ unfold buildRowShowtimes. rewrite Hf. cbn. lia. }
  destruct (audById st (r_audId row)) as [aud|] eqn:Ha.
  2:{ unfold buildRowShowtimes. rewrite Hf, Ha. cbn. lia. }
  destruct (String.eqb_spec (r_primeHM row) "") as [Hp|Hp].
  { unfold buildRowShowtimes. rewrite Hf, Ha, Hp. cbn. lia. }
  destruct (Z_le_gt_dec c 0) as [Hc|Hc].
  { unfold buildRowShowtimes. rewrite Hf, Ha.
    destruct (String.eqb _ _); [cbn; lia|].
    fold c. destruct (Z.leb_spec c 0); [cbn; lia | lia]. }
  rewrite (buildRowShowtimes_unfold st row film aud Hf Ha Hp) by (fold c; lia).
  fold c first p last. unfold diffMins.
  pose proof (preShows_before row film aud first p c ((p - first) / c)) as Hpre.
  pose proof (postShows_after row film aud last p c ((last - p) / c)) as Hpost.
  rewrite !filter_app. split.
  - rewrite (filter_none _ [_]) by (repeat constructor; cbn; lia).
    rewrite (filter_none _ (postShows _ _ _ _ _ _ _)).
    2:{ eapply Forall_impl; [apply Hpost; lia|]. cbn. intros; lia. }
    rewrite !app_nil_r. etransitivity; [apply length_filter | apply length_preShows].
  - rewrite (filter_none _ [_]) by (repeat constructor; cbn; lia).
    rewrite (filter_none _ (preShows _ _ _ _ _ _ _)).
    2:{ eapply Forall_impl; [apply Hpre; lia|]. cbn. intros; lia. }
    cbn. etransitivity; [apply length_filter | apply length_postShows].
Qed.

(** C9 fails as stated: a film whose cycle is five minutes, in the window
    07:00 to 23:00 with prime time 15:00, gets 96 pre-shows and 96
    post-shows. *)
Lemma generation_ceiling_counterexample :
  ~ ((length (preShowsIn (dtFromHM "15:00")
               (buildRowShowtimes shortState shortRow))
      <= 50)%nat
     /\ (length (postShowsIn (dtFromHM "15:00")
                  (buildRowShowtimes shortState shortRow))
         <= 50)%nat).
Proof. vm_compute. intros [H _]. lia. Qed.

(** * Mutation entry points *)

Lemma undoStack_save st : undoStack (save st) = undoStack st.
Proof. unfold save. by destruct (truthyDate (currentDate st)). Qed.

Lemma visibleShows_manual st r :
  r ∈ visibleShows st -> s_source r = Manual ->
  exists ms, ms ∈ manualShows st /\ s_id ms = s_id r.
Proof.
  unfold visibleShows, rawShows.
  intros [_ Hr]%list_elem_of_filter Hsrc.
  apply elem_of_app in Hr as [Hr|Hr].
  - apply list_elem_of_bind in Hr as (row & Hr & _).
    apply buildRowShowtimes_elem in Hr as [_ Hr]. congruence.
  - apply list_elem_of_fmap in Hr as (ms & -> & Hms). by exists ms.
Qed.

(** What the entry points read off the show they find. *)
Lemma found_show_facts st shows showId rec :
  getAllShows st = Some shows -> findShow showId shows = Some rec ->
  s_id rec = showId
  /\ (showId ∉ hiddenShows st)
  /\ prevStartOf st showId rec = s_start rec
  /\ prevAudOf st showId rec = s_audId rec
  /\ (s_source rec = Manual -> is_Some (findManual showId st))
  /\ (is_Some (filmById st (Some (prevFilmOf st showId rec)))
      \/ truthyStr ((overrides st !! showId) ≫= ov_filmId) = None ->
      prevFilmOf st showId rec = s_filmId rec).
Proof.
  intros Hall [Hin Hid]%findShow_Some.
  destruct (getAllShows_elem_of st shows rec Hall Hin) as (r & Hvis & Hres).
  pose proof (resolveShow_id st r rec Hres) as Hrid.
  assert (Hr : s_id r = showId) by congruence.
  split; [done|]. split.
  { apply list_elem_of_filter in Hvis as [Hh _]. by rewrite <- Hr. }
  unfold prevStartOf, prevAudOf, prevFilmOf.
  destruct (overrides st !! showId) as [ov|] eqn:Hov; cbn.
  - rewrite <- Hr in Hov.
    pose proof (resolveShow_start st r rec ov Hres Hov) as Hs.
    pose proof (resolveShow_aud st r rec ov Hres Hov) as Ha.
    pose proof (resolveShow_film st r rec ov Hres Hov) as Hf.
    split; [|split; [|split]].
    + rewrite Hs. by destruct (ov_start ov).
    + rewrite Ha. by destruct (truthyZ (ov_audId ov)).
    + intros Hsrc. destruct (resolveShow_source st r rec Hres) as [Hsr|Hsr]; [|congruence].
      destruct (visibleShows_manual st r Hvis) as (ms & Hms & Hmid); [congruence|].
      eapply list_find_elem_of; [exact Hms | congruence].
    + rewrite Hf. destruct (truthyStr (ov_filmId ov)) as [f|]; cbn; [|done].
      destruct (String.eqb_spec f (s_filmId r)); [done|].
      destruct (find _ (films st)); [done|].
      intros [[x Hx]|Hx]; done.
  - split; [done|]. split; [done|]. split; [|done].
    intros Hsrc. destruct (resolveShow_source st r rec Hres) as [Hsr|Hsr]; [|congruence].
    destruct (visibleShows_manual st r Hvis) as (ms & Hms & Hmid); [congruence|].
    eapply list_find_elem_of; [exact Hms | congruence].
Qed.




(** * Resolution stopping on a missing film *)

Lemma resolveShow_None st r :
  resolveShow st r = None <->
  exists ov s, overrides st !! s_id r = Some ov /\ ov_start ov = Some s
               /\ filmById st (Some (default (s_filmId r) (truthyStr (ov_filmId ov)))) = None.
Proof.
  unfold resolveShow, applyOverride, applyStart. split.
  - destruct (overrides st !! s_id r) as [ov|]; [|done].
    destruct (ov_start ov) as [s|] eqn:Hs; [|done].
    destruct (filmById st _) eqn:Hf; [done|]. intros _. by exists ov, s.
  - intros (ov & s & -> & -> & ->). reflexivity.
Qed.

(** [getAllShows] stops exactly when some visible show has a start override
    while the film it would take its length from is not in the catalog. *)
Lemma getAllShows_None st :
  getAllShows st = None <->
  exists r ov s, r ∈ visibleShows st
                 /\ overrides st !! s_id r = Some ov /\ ov_start ov = Some s
                 /\ filmById st (Some (default (s_filmId r) (truthyStr (ov_filmId ov)))) = None.
Proof.
  unfold getAllShows. split.
  - destruct (mapM _ _) eqn:Hm; [done|]. intros _.
    apply mapM_None_1, Exists_exists in Hm as (r & Hr & Hn).
    apply resolveShow_None in Hn as (ov & s & ?). by exists r, ov, s.
  - intros (r & ov & s & Hr & H).
    assert (Hn : resolveShow st r = None) by (apply resolveShow_None; by exists ov, s).
    rewrite (mapM_None_2 (resolveShow st) (visibleShows st)); [done|].
    apply Exists_exists. by exists r.
Qed.

(** C7 (the code departs from it).  Two calls of the entry points on the
    seed state, a film edit to an id that the catalog does not hold and then
    a start edit of the same show, both complete; they leave an override
    with that start and that film, and from then on [getAllShows] stops on a
    [TypeError] instead of returning the shows. *)
Theorem dangling_film_with_start_throws :
  snd danglingState = Normal
  /\ overrides (fst danglingState) !! "PRB-B1:0"
     = Some {| ov_start := Some (dtFromHM "19:30"); ov_audId := None;
               ov_filmId := Some "ZZ" |}
  /\ filmById (fst danglingState) (Some "ZZ") = None
  /\ getAllShows (fst danglingState) = None
  /\ computeFlaggedIssues (fst danglingState) = None.
Proof. repeat split; vm_compute; reflexivity. Qed.

(** C2 (the code departs from it).  A manual show is moved from
    auditorium 1 to auditorium 2 and the move is undone at once.  [undo]
    pops the one entry and pushes none, but the manual record stays in
    auditorium 2 and an override back to auditorium 1 is layered on it, so
    the resolved show comes back under the row id [OV-1-F1] with source
    [Override] instead of row [PRB-B1] with source [Manual]. *)
Theorem undo_of_manual_move_leaves_override :
  exists before moved undone after,
    getAllShows manualState = Some before
    /\ updateShowAud "M-1" (Some 2) manualState = (moved, Normal)
    /\ undoStack moved = UMoveAud "M-1" 1 :: undoStack manualState
    /\ undo moved = (undone, Normal)
    /\ undoStack undone = undoStack manualState
    /\ getAllShows undone = Some after
    /\ after <> before
    /\ (s_audId <$> manualShows undone) = [2]
    /\ overrides undone !! "M-1"
       = Some {| ov_start := None; ov_audId := Some 1; ov_filmId := None |}
    /\ ((fun s => (s_rowId s, s_source s)) <$> findShow "M-1" before)
       = Some ("PRB-B1", Manual)
    /\ ((fun s => (s_rowId s, s_source s)) <$> findShow "M-1" after)
       = Some ("OV-1-F1", Override).
Proof.
  do 4 eexists.
  split; [vm_compute; reflexivity|].
  split; [vm_compute; reflexivity|].
  split; [vm_compute; reflexivity|].
  split; [vm_compute; reflexivity|].
  split; [vm_compute; reflexivity|].
  split; [vm_compute; reflexivity|].
  split; [vm_compute; discriminate|].
  repeat split; vm_compute; reflexivity.
Qed.

(** * Snapshot store *)

Lemma pruneOldSchedules_small (m : gmap string Snapshot) :
  (size m <= retention)%nat -> pruneOldSchedules m = m.
Proof.
  intros H. unfold pruneOldSchedules.
  rewrite length_fmap, length_map_to_list.
  destruct (Nat.leb_spec (size m) retention); [done | lia].
Qed.


Lemma dom_assignTargets srcSched targetDates (m : gmap string Snapshot) :
  dom (assignTargets srcSched targetDates m)
  = dom m ∪ list_to_set (filter (fun t => t ≠ "") targetDates).
Proof.
  unfold assignTargets. revert m.
  induction targetDates as [|x ts IH]; intros m; [cbn; set_solver|].
  cbn [foldl]. rewrite IH. destruct (String.eqb_spec x "") as [->|Hx].
  - rewrite filter_cons_False by (intros H; by apply H). done.
  - rewrite filter_cons_True by done. rewrite dom_insert_L. set_solver.
Qed.

Lemma assignTargets_keep srcSched targetDates (m : gmap string Snapshot) t :
  m !! t = Some (copyOf srcSched) ->
  assignTargets srcSched targetDates m !! t = Some (copyOf srcSched).
Proof.
  unfold assignTargets. revert m.
  induction targetDates as [|x ts IH]; intros m Hm; cbn; [done|].
  apply IH. destruct (String.eqb x ""); [done|].
  destruct (decide (x = t)) as [->|Hne];
    [by rewrite lookup_insert_eq | by rewrite lookup_insert_ne].
Qed.

Lemma assignTargets_lookup srcSched targetDates (m : gmap string Snapshot) t :
  t ∈ targetDates -> t ≠ "" ->
  assignTargets srcSched targetDates m !! t = Some (copyOf srcSched).
Proof.
  intros Hin Ht. revert m.
  induction Hin as [t ts|t x ts Hin IH]; intros m.
  - change (assignTargets srcSched (t :: ts) m)
      with (assignTargets srcSched ts
              (if String.eqb t "" then m else <[t := copyOf srcSched]> m)).
    apply assignTargets_keep.
    destruct (String.eqb_spec t ""); [done|]. by rewrite lookup_insert_eq.
  - apply (IH Ht).
Qed.

Lemma copyOf_fields srcSched :
  sn_undoStack (copyOf srcSched) = []
  /\ sn_primeRows (copyOf srcSched) = sn_primeRows srcSched
  /\ sn_extraRows (copyOf srcSched) = sn_extraRows srcSched
  /\ st_show <$> sn_manualShows (copyOf srcSched) = st_show <$> sn_manualShows srcSched
  /\ Forall (fun s => st_startIsText s = false /\ st_endIsText s = false)
            (sn_manualShows (copyOf srcSched))
  /\ sn_overrides (copyOf srcSched) = sn_overrides srcSched
  /\ sn_hiddenShows (copyOf srcSched) = sn_hiddenShows srcSched.
Proof.
  unfold copyOf, deepCopyRows, deepCopyManualShows. cbn.
  rewrite !list_fmap_id, <- list_fmap_compose.
  repeat split. apply Forall_fmap, Forall_forall. by intros.
Qed.

Lemma String_leb_iff a b : String.leb a b = true <-> String_as_OT.lt a b \/ a = b.
Proof.
  unfold String.leb. rewrite <- String_as_OT.cmp_lt, <- String_as_OT.cmp_eq.
  unfold String_as_OT.cmp. destruct (String.compare a b); naive_solver.
Qed.

Lemma String_leb_trans a b c :
  String.leb a b = true -> String.leb b c = true -> String.leb a c = true.
Proof.
  rewrite !String_leb_iff. intros [H1| ->] [H2| ->]; auto.
  left. by eapply String_as_OT.lt_trans.
Qed.

Lemma String_leb_total' a b : String.leb a b = false -> String.leb b a = true.
Proof. destruct (String.leb_total a b) as [H|H]; congruence. Qed.

Lemma sortedKeys_sorted (keys : list string) :
  StronglySorted (fun a b => String.leb a b = true) (stableSort String.leb keys).
Proof.
  apply stableSort_StronglySorted; [apply String_leb_total' | apply String_leb_trans].
Qed.

Lemma StronglySorted_app_le {A} (R : relation A) l1 l2 :
  StronglySorted R (l1 ++ l2) -> forall x y, x ∈ l1 -> y ∈ l2 -> R x y.
Proof.
  induction l1 as [|a l1 IH]; cbn; [by intros _ x y ?%elem_of_nil|].
  intros H x y [->|Hx]%elem_of_cons Hy.
  - apply StronglySorted_inv in H as [_ H]. eapply Forall_forall in H; [done|].
    apply elem_of_app. by right.
  - apply StronglySorted_inv in H as [H _]. by apply IH.
Qed.

Lemma lookup_foldr_delete_notin {V} (m : gmap string V) js k :
  k ∉ js -> foldr delete m js !! k = m !! k.
Proof.
  induction js as [|j js IH]; cbn; [done|].
  intros Hk. apply not_elem_of_cons in Hk as [Hne Hk].
  rewrite lookup_delete_ne by done. by apply IH.
Qed.

Lemma size_foldr_delete {V} (m : gmap string V) js :
  NoDup js -> (forall j, j ∈ js -> is_Some (m !! j)) ->
  size (foldr delete m js) = (size m - length js)%nat.
Proof.
  induction 1 as [|j js Hj Hjs IH]; intros Hin; cbn; [lia|].
  rewrite map_size_delete_Some.
  - rewrite IH by (intros; apply Hin; by right).
    assert (Hlen : (length js < size m)%nat).
    { assert (Hsub : (length (j :: js) <= size m)%nat).
      { rewrite <- (length_map_to_list m), <- (length_fmap fst).
        apply submseteq_length, NoDup_submseteq; [by constructor|].
        intros x Hx. destruct (Hin x Hx) as [v Hv].
        apply list_elem_of_fmap. exists (x, v). split; [done|].
        by apply elem_of_map_to_list. }
      cbn in Hsub. lia. }
    lia.
  - rewrite lookup_foldr_delete_notin by done. apply Hin. by left.
Qed.

Lemma String_leb_antisym a b :
  String.leb a b = true -> String.leb b a = true -> a = b.
Proof.
  rewrite !String_leb_iff. intros [H1|H1] [H2|H2]; try done.
  exfalso. apply (String_as_OT.lt_not_eq a a); [|reflexivity].
  by eapply String_as_OT.lt_trans.
Qed.

Lemma String_leb_refl a : String.leb a a = true.
Proof. apply String_leb_iff. by right. Qed.

(** What pruning deletes from a store of more than fourteen dates: the
    sorted keys split into the deleted ones and the fourteen kept. *)
Lemma pruneOldSchedules_large (m : gmap string Snapshot) :
  (retention < size m)%nat ->
  exists old kept,
    pruneOldSchedules m = foldr delete m old
    /\ length kept = retention
    /\ NoDup (old ++ kept)
    /\ (forall k, k ∈ old ++ kept <-> is_Some (m !! k))
    /\ (forall x y, x ∈ old -> y ∈ kept -> String.leb x y = true).
Proof.
  intros Hgt. unfold pruneOldSchedules.
  rewrite length_fmap, length_map_to_list.
  destruct (Nat.leb_spec (size m) retention) as [|_]; [lia|].
  set (keys := (map_to_list m).*1).
  set (sorted := stableSort String.leb keys).
  set (n := (size m - retention)%nat).
  assert (Hperm : sorted ≡ₚ keys) by apply stableSort_Permutation.
  assert (Hlen : length sorted = size m).
  { rewrite Hperm. unfold keys. by rewrite length_fmap, length_map_to_list. }
  exists (take n sorted), (drop n sorted). rewrite take_drop.
  split; [reflexivity|]. split; [rewrite length_drop, Hlen; unfold n; lia|].
  split; [rewrite Hperm; apply NoDup_fst_map_to_list|]. split.
  - intros k. rewrite Hperm. unfold keys. rewrite list_elem_of_fmap. split.
    + intros ([k0 v] & -> & Hkv). apply elem_of_map_to_list in Hkv. by exists v.
    + intros [v Hv]. exists (k, v). split; [done|]. by apply elem_of_map_to_list.
  - pose proof (sortedKeys_sorted keys) as Hsorted. fold sorted in Hsorted.
    rewrite <- (take_drop n sorted) in Hsorted.
    by apply (StronglySorted_app_le _ _ _ Hsorted).
Qed.

(** Pruning keeps a date exactly when fewer than fourteen stored dates sort
    after it. *)
Lemma pruneOldSchedules_lookup (m : gmap string Snapshot) (k : string) :
  pruneOldSchedules m !! k
  = if decide (size (datesAfter k (dom m)) < retention)%nat then m !! k else None.
Proof.
  assert (Hstored : is_Some (m !! k) ->
            (size (datesAfter k (dom m)) < size m)%nat).
  { intros Hk. rewrite <- size_dom.
    apply subset_size. split.
    - intros j [_ Hj]%elem_of_filter. exact Hj.
    - intros Hsub. assert (Hin : k ∈ datesAfter k (dom m)).
      { apply Hsub. by apply elem_of_dom. }
      apply elem_of_filter in Hin as [Hin _]. by rewrite String_leb_refl in Hin. }
  destruct (Nat.le_gt_cases (size m) retention) as [Hle|Hgt].
  { rewrite pruneOldSchedules_small by done. destruct (decide _) as [|Hn]; [done|].
    destruct (m !! k) eqn:Hk; [|done]. exfalso. apply Hn.
    assert (size (datesAfter k (dom m)) < size m)%nat by (apply Hstored; by eexists).
    lia. }
  destruct (pruneOldSchedules_large m Hgt) as (old & kept & -> & Hlen & Hnd & Hkeys & Hord).
  apply NoDup_app in Hnd as (Hndo & Hdisj & Hndk).
  destruct (decide (k ∈ old)) as [Hold|Hnold].
  - rewrite lookup_foldr_delete by done.
    destruct (decide _) as [Hlt|]; [|done]. exfalso.
    assert (Hsub : list_to_set kept ⊆ datesAfter k (dom m)).
    { intros j Hj%elem_of_list_to_set. apply elem_of_filter. split.
      - destruct (String.leb j k) eqn:Hjk; [|done]. exfalso.
        pose proof (String_leb_antisym _ _ (Hord k j Hold Hj) Hjk) as ->.
        by apply (Hdisj j).
      - apply elem_of_dom, Hkeys, elem_of_app. by right. }
    apply subseteq_size in Hsub. rewrite size_list_to_set in Hsub by done. lia.
  - rewrite lookup_foldr_delete_notin by done.
    destruct (decide _) as [|Hn]; [done|].
    destruct (m !! k) eqn:Hk; [|done]. exfalso. apply Hn.
    assert (Hkk : k ∈ kept).
    { assert (Hin : k ∈ old ++ kept) by (apply Hkeys; by eexists).
      apply elem_of_app in Hin as [|]; done. }
    assert (Hsub : datesAfter k (dom m) ⊆ list_to_set kept ∖ {[k]}).
    { intros j [Hjk Hj]%elem_of_filter. apply elem_of_difference. split.
      - apply elem_of_list_to_set.
        apply elem_of_dom, Hkeys, elem_of_app in Hj as [Hj|Hj]; [|done].
        rewrite (Hord j k Hj Hkk) in Hjk. done.
      - intros ->%elem_of_singleton. by rewrite String_leb_refl in Hjk. }
    apply subseteq_size in Hsub.
    rewrite size_difference in Hsub
      by (intros j ->%elem_of_singleton; by apply elem_of_list_to_set).
    rewrite size_list_to_set, size_singleton in Hsub by done.
    unfold retention in *. lia.
Qed.

Lemma currentDate_saveCurrentSchedule st :
  currentDate (saveCurrentSchedule st) = currentDate st.
Proof. unfold saveCurrentSchedule. by destruct (truthyDate (currentDate st)). Qed.

Lemma saveCurrentSchedule_kept st d k v :
  truthyDate (currentDate st) = Some d ->
  scheduleByDate (saveCurrentSchedule st) !! k = Some v ->
  <[d := snapshotOf st]> (scheduleByDate st) !! k = Some v.
Proof.
  intros Hd. unfold saveCurrentSchedule. rewrite Hd. cbn.
  rewrite pruneOldSchedules_lookup. by destruct (decide _).
Qed.

(** C8 (as amended).  When the source date is stored once the current
    schedule has been saved, [copySchedule] gives a non-empty target date
    other than the current date a snapshot with an empty undo stack whose
    rows, manual shows (their start and end as [Date]s), overrides and
    hidden flags have the values of the source snapshot, whatever the target
    held before, provided the retention pruning of the final [save] keeps
    the target: no date is current (then nothing is pruned), or fewer than
    fourteen of the dates in the store after the copy (those stored, the
    current date and the targets) sort after the target.  With a current
    date and fourteen or more dates after the target, the target is deleted
    again before [copySchedule] returns.  Stored dates, current date and
    targets being fourteen at most is a case of the first.  The source
    snapshot is the working schedule when the source is the current date
    and the stored snapshot otherwise. *)
Theorem copySchedule_copies_snapshot (st : State) (fromDate : option string)
    (targetDates : list string) (sourceDate : string) (srcSched : Snapshot)
    (t : string) :
  match truthyDate fromDate with
  | Some d => Some d
  | None => truthyDate (currentDate st)
  end = Some sourceDate ->
  scheduleByDate (saveCurrentSchedule st) !! sourceDate = Some srcSched ->
  t ∈ targetDates -> t ≠ "" -> truthyDate (currentDate st) ≠ Some t ->
  let K := datesAfterCopy (saveCurrentSchedule st) targetDates in
  (truthyDate (currentDate st) = Some sourceDate -> srcSched = snapshotOf st)
  /\ (truthyDate (currentDate st) ≠ Some sourceDate ->
      scheduleByDate st !! sourceDate = Some srcSched)
  /\ (truthyDate (currentDate st) = None \/ (size (datesAfter t K) < retention)%nat ->
      exists snap,
        scheduleByDate (copySchedule fromDate targetDates st) !! t = Some snap
        /\ sn_undoStack snap = []
        /\ sn_primeRows snap = sn_primeRows srcSched
        /\ sn_extraRows snap = sn_extraRows srcSched
        /\ st_show <$> sn_manualShows snap = st_show <$> sn_manualShows srcSched
        /\ Forall (fun s => st_startIsText s = false /\ st_endIsText s = false)
                  (sn_manualShows snap)
        /\ sn_overrides snap = sn_overrides srcSched
        /\ sn_hiddenShows snap = sn_hiddenShows srcSched)
  /\ (truthyDate (currentDate st) ≠ None ->
      (retention <= size (datesAfter t K))%nat ->
      scheduleByDate (copySchedule fromDate targetDates st) !! t = None)
  /\ ((size (datesAfterCopy st targetDates) <= retention)%nat ->
      (size (datesAfter t K) < retention)%nat).
Proof.
  intros Hsel Hsrc Hin Ht Hcur K.
  assert (HtK : t ∈ K).
  { unfold K, datesAfterCopy. apply elem_of_union. right.
    apply elem_of_list_to_set, list_elem_of_filter. done. }
  assert (Hstore : scheduleByDate (copySchedule fromDate targetDates st)
            = match truthyDate (currentDate st) with
              | Some d =>
                  pruneOldSchedules
                    (<[d := snapshotOf st]>
                       (assignTargets srcSched targetDates
                          (scheduleByDate (saveCurrentSchedule st))))
              | None => assignTargets srcSched targetDates (scheduleByDate st)
              end).
  { unfold copySchedule. destruct targetDates as [|t0 ts]; [by apply elem_of_nil in Hin|].
    rewrite Hsel, Hsrc. unfold save. cbn [currentDate setScheduleByDate].
    rewrite currentDate_saveCurrentSchedule.
    destruct (truthyDate (currentDate st)) as [d|] eqn:Hd.
    - cbn [scheduleByDate setScheduleByDate]. do 2 f_equal.
      unfold snapshotOf, saveCurrentSchedule. rewrite Hd. reflexivity.
    - cbn [scheduleByDate setScheduleByDate]. unfold saveCurrentSchedule.
      rewrite Hd. reflexivity. }
  assert (Hdom : forall d, truthyDate (currentDate st) = Some d ->
            dom (<[d := snapshotOf st]>
                   (assignTargets srcSched targetDates
                      (scheduleByDate (saveCurrentSchedule st)))) = K).
  { intros d Hd. rewrite dom_insert_L, dom_assignTargets. unfold K, datesAfterCopy.
    rewrite currentDate_saveCurrentSchedule, Hd. cbn. set_solver. }
  split; [|split; [|split; [|split]]].
  - intros Hd. apply (saveCurrentSchedule_kept st sourceDate) in Hsrc; [|done].
    rewrite lookup_insert_eq in Hsrc. congruence.
  - intros Hd. destruct (truthyDate (currentDate st)) as [d|] eqn:Hcd.
    + apply (saveCurrentSchedule_kept st d) in Hsrc; [|done].
      rewrite lookup_insert_ne in Hsrc by congruence. done.
    + unfold saveCurrentSchedule in Hsrc. by rewrite Hcd in Hsrc.
  - intros Hkeep. exists (copyOf srcSched). split; [|apply copyOf_fields].
    rewrite Hstore. destruct (truthyDate (currentDate st)) as [d|] eqn:Hd.
    + destruct Hkeep as [|Hkeep]; [done|].
      rewrite pruneOldSchedules_lookup, (Hdom d eq_refl).
      destruct (decide _) as [_|]; [|done].
      rewrite lookup_insert_ne by congruence. by apply assignTargets_lookup.
    + by apply assignTargets_lookup.
  - intros Hcd Hmany. rewrite Hstore.
    destruct (truthyDate (currentDate st)) as [d|] eqn:Hd; [|done].
    rewrite pruneOldSchedules_lookup, (Hdom d eq_refl).
    destruct (decide _) as [|_]; [lia | done].
  - intros Hsize.
    assert (Hsub : datesAfter t K ⊆ datesAfterCopy st targetDates ∖ {[t]}).
    { intros j [Hjt Hj]%elem_of_filter. apply elem_of_difference. split.
      - unfold K, datesAfterCopy in Hj. rewrite currentDate_saveCurrentSchedule in Hj.
        unfold datesAfterCopy.
        apply elem_of_union in Hj as [Hj|Hj]; [|set_solver].
        apply elem_of_union in Hj as [Hj|Hj]; [|set_solver].
        apply elem_of_dom in Hj as [v Hv].
        destruct (truthyDate (currentDate st)) as [d|] eqn:Hd.
        + apply (saveCurrentSchedule_kept st d) in Hv; [|done].
          destruct (decide (d = j)) as [->|Hne]; [cbn; set_solver|].
          rewrite lookup_insert_ne in Hv by done.
          apply elem_of_union. left. apply elem_of_union. left.
          apply elem_of_dom. by eexists.
        + unfold saveCurrentSchedule in Hv. rewrite Hd in Hv.
          apply elem_of_union. left. apply elem_of_union. left.
          apply elem_of_dom. by eexists.
      - intros ->%elem_of_singleton. by rewrite String_leb_refl in Hjt. }
    apply subseteq_size in Hsub.
    rewrite size_difference in Hsub.
    2:{ intros j ->%elem_of_singleton. unfold datesAfterCopy.
        apply elem_of_union. right. apply elem_of_list_to_set, list_elem_of_filter. done. }
    rewrite size_singleton in Hsub.
    assert (0 < size (datesAfterCopy st targetDates))%nat; [|lia].
    assert (Hne : datesAfterCopy st targetDates ≢ ∅).
    { intros He. assert (t ∈ datesAfterCopy st targetDates) as Hin'; [|set_solver].
      unfold datesAfterCopy. apply elem_of_union. right.
      apply elem_of_list_to_set, list_elem_of_filter. done. }
    apply size_non_empty_iff in Hne. lia.
Qed.

(** A forward copy on a full store: fourteen dates are stored, the schedule
    of the current date is copied to the next day; the target is written and
    the oldest date is pruned. *)
Lemma copySchedule_copies_snapshot_witness :
  (exists snap,
     scheduleByDate (copySchedule (Some "2025-08-19") ["2025-08-20"] fullState)
       !! "2025-08-20" = Some snap
     /\ sn_undoStack snap = []
     /\ sn_primeRows snap = [rowB1])
  /\ scheduleByDate (copySchedule (Some "2025-08-19") ["2025-08-20"] fullState)
       !! "2025-08-06" = None.
Proof.
  split; [|vm_compute; reflexivity].
  assert (Hsrc : exists srcSched,
    scheduleByDate (saveCurrentSchedule fullState) !! "2025-08-19" = Some srcSched
    /\ sn_primeRows srcSched = [rowB1]).
  { eexists. split; vm_compute; reflexivity. }
  destruct Hsrc as (srcSched & Hsrc & Hrows).
  assert (H1 : (size (datesAfter "2025-08-20"
                        (datesAfterCopy (saveCurrentSchedule fullState) ["2025-08-20"]))
                < retention)%nat) by (vm_compute; lia).
  assert (H2 : truthyDate (currentDate fullState) ≠ Some "2025-08-20")
    by (vm_compute; discriminate).
  assert (H3 : "2025-08-20" ∈ ["2025-08-20"]) by left.
  assert (H4 : "2025-08-20" ≠ "") by discriminate.
  destruct (copySchedule_copies_snapshot fullState (Some "2025-08-19")
              ["2025-08-20"] "2025-08-19" srcSched "2025-08-20"
              eq_refl Hsrc H3 H4 H2)
    as (_ & _ & Hcopy & _).
  destruct (Hcopy (or_intror H1)) as (snap & Hsnap & Hu & Hp & _).
  exists snap. split; [exact Hsnap|]. clear Hsnap Hsrc H1 H2 H3 H4 Hcopy.
  rewrite Hu, Hp, Hrows. split; reflexivity.
Defined.

(** C8 fails as stated: with fourteen dates stored, a copy to an earlier
    date adds a fifteenth key, and the pruning run by the final [save]
    deletes the oldest key, which is the target just written. *)
Lemma copySchedule_retention_counterexample :
  ~ (is_Some (scheduleByDate fullState !! "2025-08-19") ->
     exists snap,
       scheduleByDate (copySchedule (Some "2025-08-19") ["2025-08-01"] fullState)
         !! "2025-08-01" = Some snap
       /\ sn_undoStack snap = []).
Proof.
  intros H. destruct H as (snap & Hsnap & _).
  - eexists. vm_compute. reflexivity.
  - vm_compute in Hsnap. discriminate.
Qed.

(** A copy onto the current date is overwritten by the final [save], which
    writes the working schedule, undo stack included, back under that date. *)
Example copySchedule_onto_current_date :
  sn_undoStack <$>
    (scheduleByDate (copySchedule (Some "2025-08-18") ["2025-08-19"] twoDateState)
       !! "2025-08-19")
  = Some [UEdit "PRB-B1:0" 1140].
Proof. vm_compute. reflexivity. Qed.

(** The scenarios of the analyzer: a first show at 09:00 in a window opening
    at 07:00 is flagged Late with 120 minutes; a show ending at 20:00
    followed by one at 21:00 is flagged Gap with 60 minutes. *)
Example analyze_late_opening :
  analyze (dtFromHM "07:00")
    [mkShow "R:0" "R" (Some 0) 1 "Aud 1" "F1" "Thunder Road"
       (dtFromHM "09:00") (dtFromHM "11:22") 124 18 20 165 Prime]
  = [mkIssue "Aud 1" Late
       "Aud 1: slot before first show from 7:00am to 9:00am (2h00m)" 120].
Proof. vm_compute. reflexivity. Qed.

Example analyze_gap :
  (fun i => (i_type i, i_minutes i)) <$>
    analyze (dtFromHM "17:00")
      [mkShow "R:0" "R" (Some 0) 1 "Aud 1" "F1" "Thunder Road"
         (dtFromHM "17:38") (dtFromHM "20:00") 124 18 20 165 Prime;
       mkShow "R:1" "R" (Some 1) 1 "Aud 1" "F1" "Thunder Road"
         (dtFromHM "21:00") (dtFromHM "23:22") 124 18 20 165 Prime]
  = [(Gap, 60)].
Proof. vm_compute. reflexivity. Qed.

(** * Downtime analyzer *)

Lemma elem_of_firstOccurrences l x : x ∈ firstOccurrences l <-> x ∈ l.
Proof.
  induction l as [|y l IH]; cbn; [done|].
  rewrite !elem_of_cons, list_elem_of_filter, IH.
  destruct (decide (x = y)); naive_solver.
Qed.

Lemma NoDup_firstOccurrences l : NoDup (firstOccurrences l).
Proof.
  induction l as [|y l IH]; cbn; constructor.
  - rewrite list_elem_of_filter. naive_solver.
  - by apply NoDup_filter.
Qed.

Lemma elem_of_audKeys shows a :
  a ∈ audKeys shows <-> a <> 0 /\ exists s, s ∈ shows /\ s_audId s = a.
Proof.
  unfold audKeys. rewrite elem_of_app, elem_of_stableSort, !list_elem_of_filter,
    elem_of_firstOccurrences, list_elem_of_filter, list_elem_of_fmap.
  destruct (isArrayIndex a); naive_solver.
Qed.

Lemma NoDup_audKeys shows : NoDup (audKeys shows).
Proof.
  unfold audKeys.
  set (uniq := firstOccurrences _).
  assert (Hu : NoDup uniq) by apply NoDup_firstOccurrences.
  apply NoDup_app. split; [|split].
  - rewrite stableSort_Permutation. by apply NoDup_filter.
  - intros x. rewrite elem_of_stableSort, !list_elem_of_filter. naive_solver.
  - by apply NoDup_filter.
Qed.

Lemma sortSlots_Permutation l : sortSlots l ≡ₚ l.
Proof. apply stableSort_Permutation. Qed.


Lemma sortIssues_Permutation l : sortIssues l ≡ₚ l.
Proof. apply stableSort_Permutation. Qed.


Lemma elem_of_gapIssue name cur next iss :
  iss ∈ gapIssue name cur next <-> 45 <= gapMinutes cur next /\ iss = mkGap name cur next.
Proof.
  unfold gapIssue, GAP_THRESHOLD_MIN.
  destruct (Z.leb_spec 45 (gapMinutes cur next)).
  - rewrite list_elem_of_singleton. naive_solver.
  - rewrite elem_of_nil. split; [done | lia].
Qed.

Lemma elem_of_gapIssues name l iss :
  iss ∈ gapIssues name l <->
  exists i cur next, l !! i = Some cur /\ l !! S i = Some next
                     /\ 45 <= gapMinutes cur next /\ iss = mkGap name cur next.
Proof.
  induction l as [|cur [|next l] IH].
  - cbn. rewrite elem_of_nil. split; [done|]. by intros (i & ? & ? & ? & _).
  - cbn. rewrite elem_of_nil. split; [done|]. by intros ([|i] & ? & ? & _ & ? & _).
  - change (gapIssues name (cur :: next :: l))
      with (gapIssue name cur next ++ gapIssues name (next :: l)).
    rewrite elem_of_app, elem_of_gapIssue, IH. split.
    + intros [[Hg ->]|(i & c & n & Hc & Hn & Hg & ->)].
      * by exists O, cur, next.
      * by exists (S i), c, n.
    + intros ([|i] & c & n & Hc & Hn & Hg & ->).
      * left. cbn in Hc, Hn. by simplify_eq.
      * right. by exists i, c, n.
Qed.

Lemma elem_of_lateIssue name w first iss :
  iss ∈ lateIssue name w first <-> 105 <= lateMinutes w first /\ iss = mkLate name w first.
Proof.
  unfold lateIssue, FIT_SLOT_MIN.
  destruct (Z.leb_spec 105 (lateMinutes w first)).
  - rewrite list_elem_of_singleton. naive_solver.
  - rewrite elem_of_nil. split; [done | lia].
Qed.

Lemma elem_of_issuesForAud w a slots iss :
  iss ∈ issuesForAud w a slots <->
  exists first, sortSlots slots !! O = Some first
    /\ ((105 <= lateMinutes w first /\ iss = mkLate (groupName a first) w first)
        \/ exists i cur next,
             sortSlots slots !! i = Some cur /\ sortSlots slots !! S i = Some next
             /\ 45 <= gapMinutes cur next /\ iss = mkGap (groupName a first) cur next).
Proof.
  unfold issuesForAud. destruct (sortSlots slots) as [|first l] eqn:Hs.
  - rewrite elem_of_nil. split; [done|]. by intros (? & ? & _).
  - rewrite elem_of_app, elem_of_lateIssue, elem_of_gapIssues. split.
    + intros H. exists first. split; [done|]. exact H.
    + intros (f & Hf & H). cbn in Hf. injection Hf as <-. exact H.
Qed.



(** * Further properties of the engine *)

(** * Further properties: time utilities and the generator *)

Lemma roundUp5_spec x :
  roundUp5 x mod 5 = 0 /\ x <= roundUp5 x < x + 5.
Proof.
  unfold roundUp5.
  pose proof (Z.div_mod (- x) 5 ltac:(lia)) as Hd.
  pose proof (Z.mod_pos_bound (- x) 5 ltac:(lia)) as Hm.
  split; [|lia].
  replace (- (- x `div` 5) * 5) with ((- (- x `div` 5)) * 5) by lia.
  apply Z_mod_mult.
Qed.

(** X1. The cycle length of a film is the least multiple of five that is
    not below runtime + trailer + clean; it is positive exactly when that sum
    is, and a row whose film has a sum of zero or less generates nothing. *)
Theorem cycleMinutes_least_multiple_of_five (st : State) (row : Row) (film : Film) :
  let total := f_runtime film + f_trailer film + f_clean film in
  let c := cycleMinutes (Some film) in
  c mod 5 = 0
  /\ total <= c < total + 5
  /\ (forall m, m mod 5 = 0 -> total <= m -> c <= m)
  /\ (0 < c <-> 0 < total)
  /\ (filmById st (r_filmId row) = Some film -> total <= 0 ->
      buildRowShowtimes st row = []).
Proof.
  intros total c.
  destruct (roundUp5_spec total) as [Hmod Hrange]. fold (cycleMinutes (Some film)) in *.
  change (roundUp5 total) with c in *.
  split; [done|]. split; [done|]. split; [|split].
  - intros m Hm Hle.
    apply Z.mod_divide in Hm as [q Hq]; [|lia].
    apply Z.mod_divide in Hmod as [q' Hq']; [|lia]. lia.
  - split; [|lia]. intros Hc.
    apply Z.mod_divide in Hmod as [q' Hq']; [|lia]. lia.
  - intros Hf Ht.
    unfold buildRowShowtimes. rewrite Hf.
    destruct (audById st (r_audId row)); [|reflexivity].
    destruct (String.eqb _ _); [reflexivity|]. fold c.
    destruct (Z.leb_spec c 0); [reflexivity|].
    apply Z.mod_divide in Hmod as [q' Hq']; lia.
Qed.

Lemma hmFromDate_mod d : hmFromDate d = hmFromDate (d mod 1440).
Proof.
  unfold hmFromDate, getHours, getMinutes.
  rewrite Zmod_mod. f_equal. f_equal. f_equal.
  rewrite <- (Z.mod_mod_divide d 1440 60) at 1; [reflexivity|].
  exists 24. reflexivity.
Qed.

Lemma dtFromHM_hmFromDate_day :
  forallb (fun e => dtFromHM (hmFromDate e) =? e) (seqZ 0 1440) = true.
Proof. vm_compute. reflexivity. Qed.

(** X2. [dtFromHM] always lands inside today, from 00:00 to 23:59, whatever
    the string is (hours above 23 and minutes above 59 are clamped, a string
    that does not parse gives 00:00), and it reads back what [hmFromDate]
    prints: for every instant [d], [dtFromHM (hmFromDate d)] is the time of
    day of [d]. *)
Theorem dtFromHM_range_and_round_trip (hm : string) (d : Z) :
  0 <= dtFromHM hm <= 1439
  /\ dtFromHM (hmFromDate d) = d mod 1440
  /\ hmFromDate (dtFromHM (hmFromDate d)) = hmFromDate d.
Proof.
  assert (Hrt : dtFromHM (hmFromDate d) = d mod 1440).
  { rewrite hmFromDate_mod.
    pose proof (Z.mod_pos_bound d 1440 ltac:(lia)) as Hb.
    pose proof dtFromHM_hmFromDate_day as Hall.
    rewrite forallb_forall in Hall.
    apply Z.eqb_eq, Hall, list_elem_of_In, elem_of_seqZ. lia. }
  split; [|split; [exact Hrt|]].
  - unfold dtFromHM. destruct (matchHM hm) as [[H M]|]; lia.
  - rewrite Hrt. symmetry. apply hmFromDate_mod.
Qed.

Lemma string_app_inv_head (p s1 s2 : string) : p +:+ s1 = p +:+ s2 -> s1 = s2.
Proof. induction p as [|c p IH]; cbn; [done|]. intros [= H]. by apply IH. Qed.

Lemma NoDup_omap_inj {A B} (f : A -> option B) (l : list A) :
  (forall x y z, f x = Some z -> f y = Some z -> x = y) ->
  NoDup l -> NoDup (omap f l).
Proof.
  intros Hinj. induction 1 as [|x l Hx Hl IH]; cbn; [constructor|].
  destruct (f x) as [z|] eqn:Hfx; [|exact IH].
  constructor; [|exact IH].
  intros (y & Hy & Hfy)%list_elem_of_omap.
  apply Hx. by rewrite (Hinj x y z Hfx Hfy).
Qed.

(** The members of a generated list, by their signed step count. *)
Lemma buildRowShowtimes_members st row film aud s :
  filmById st (r_filmId row) = Some film ->
  audById st (r_audId row) = Some aud ->
  s ∈ buildRowShowtimes st row ->
  exists k,
    s = makeRec row k (dtFromHM (r_primeHM row) + k * cycleMinutes (Some film)) film aud
    /\ (k < 0 -> dtFromHM (firstShowHM st) <= s_start s)
    /\ (0 < k -> s_start s <= windowLast st).
Proof.
  intros Hf Ha. unfold buildRowShowtimes. rewrite Hf, Ha.
  destruct (String.eqb _ _); [by intros ?%elem_of_nil|].
  destruct (Z.leb_spec (cycleMinutes (Some film)) 0) as [|Hc]; [by intros ?%elem_of_nil|].
  rewrite !elem_of_app, list_elem_of_singleton.
  unfold preShows, postShows, addMins. rewrite !list_elem_of_omap.
  intros [(i & Hi & Hs)|[->|(i & Hi & Hs)]].
  - apply elem_of_countDown in Hi.
    destruct (Z.ltb_spec (dtFromHM (r_primeHM row) + - i * cycleMinutes (Some film))
                (dtFromHM (firstShowHM st))); [done|].
    injection Hs as <-. exists (- i). split; [reflexivity|]. cbn [s_start makeRec]. unfold cycleMinutes in *. split; lia.
  - exists 0. split; [by rewrite Z.mul_0_l, Z.add_0_r|]. split; lia.
  - apply elem_of_seqZ in Hi.
    destruct (Z.ltb_spec (windowLast st)
                (dtFromHM (r_primeHM row) + i * cycleMinutes (Some film))); [done|].
    injection Hs as <-. exists i. split; [reflexivity|]. cbn [s_start makeRec]. unfold cycleMinutes in *. split; lia.
Qed.

Lemma makeRec_id_inj row k1 k2 s1 s2 film aud :
  s_id (makeRec row k1 s1 film aud) = s_id (makeRec row k2 s2 film aud) -> k1 = k2.
Proof.
  cbn. intros H%string_app_inv_head. injection H as H. by apply numStr_inj.
Qed.

Lemma NoDup_countDown n : NoDup (countDown n).
Proof. unfold countDown. rewrite reverse_Permutation. apply NoDup_seqZ. Qed.

Lemma buildRowShowtimes_NoDup st row : NoDup (buildRowShowtimes st row).
Proof.
  unfold buildRowShowtimes.
  destruct (filmById st (r_filmId row)) as [film|]; [|constructor].
  destruct (audById st (r_audId row)) as [aud|]; [|constructor].
  destruct (String.eqb _ _); [constructor|].
  destruct (Z.leb_spec (cycleMinutes (Some film)) 0) as [|Hc]; [constructor|].
  assert (Hpre : forall s, s ∈ preShows row film aud (dtFromHM (firstShowHM st))
                   (dtFromHM (r_primeHM row)) (cycleMinutes (Some film))
                   (diffMins (dtFromHM (r_primeHM row)) (dtFromHM (firstShowHM st))
                      `div` cycleMinutes (Some film)) ->
                 exists k, k < 0 /\ s_offset s = Some k).
  { intros s (i & Hi & Hs)%list_elem_of_omap. apply elem_of_countDown in Hi.
    cbv zeta in Hs. destruct (_ <? _); [done|]. injection Hs as <-. exists (- i). split; [lia | done]. }
  assert (Hpost : forall s, s ∈ postShows row film aud (windowLast st)
                    (dtFromHM (r_primeHM row)) (cycleMinutes (Some film))
                    (diffMins (windowLast st) (dtFromHM (r_primeHM row))
                       `div` cycleMinutes (Some film)) ->
                  exists k, 0 < k /\ s_offset s = Some k).
  { intros s (i & Hi & Hs)%list_elem_of_omap. apply elem_of_seqZ in Hi.
    cbv zeta in Hs. destruct (_ <? _); [done|]. injection Hs as <-. exists i. split; [lia | done]. }
  apply NoDup_app. split; [|split].
  - apply NoDup_omap_inj; [|apply NoDup_countDown].
    intros x y z Hx Hy. cbv zeta in Hx, Hy.
    destruct (_ <? _); [done|]. destruct (_ <? _); [done|].
    unfold makeRec in Hx, Hy. assert (- x = - y) by congruence. lia.
  - intros s Hs [->|Hs']%elem_of_cons.
    + destruct (Hpre _ Hs) as (k & Hk & Ho). cbn in Ho. injection Ho as <-. lia.
    + destruct (Hpre _ Hs) as (k & Hk & Ho). destruct (Hpost _ Hs') as (k' & Hk' & Ho').
      rewrite Ho in Ho'. injection Ho' as <-. lia.
  - apply NoDup_cons. split.
    + intros Hs. destruct (Hpost _ Hs) as (k & Hk & Ho). cbn in Ho. injection Ho as <-. lia.
    + apply NoDup_omap_inj; [|apply NoDup_seqZ].
      intros x y z Hx Hy. cbv zeta in Hx, Hy.
    destruct (_ <? _); [done|]. destruct (_ <? _); [done|].
      unfold makeRec in Hx, Hy. assert (- x = - y) by congruence. lia.
Qed.

Lemma NoDup_only {A} (l : list A) (a : A) :
  NoDup l -> (forall x, x ∈ l <-> x = a) -> l = [a].
Proof.
  intros Hnd Hmem. destruct l as [|x l].
  - exfalso. eapply elem_of_nil. by apply (Hmem a).
  - assert (x = a) as -> by (apply Hmem; left).
    f_equal. destruct l as [|y l]; [reflexivity|]. exfalso.
    assert (y = a) as -> by (apply Hmem; right; left).
    apply NoDup_cons in Hnd as [Hnd _]. apply Hnd. left.
Qed.

(** X3. Every show generated for a row carries a signed step count [k]:
    its id is [rowId:k], it starts at [prime + k * cycle], ends
    [runtime + trailer] minutes later, has the row's auditorium and film and
    source [Prime]; a pre-show ([k < 0]) starts at or after the window start
    and a post-show ([k > 0]) at or before the window end.  No two shows of
    the row have the same id, and no two the same start.  A row with a prime
    time and a positive cycle has exactly one show of step count 0, the
    prime show, at the prime time. *)
Theorem generated_shows_have_stable_ids (st : State) (row : Row) (film : Film) (aud : Aud) :
  filmById st (r_filmId row) = Some film ->
  audById st (r_audId row) = Some aud ->
  (forall s, s ∈ buildRowShowtimes st row ->
     exists k,
       s_offset s = Some k
       /\ s_id s = r_rowId row +:+ ":" +:+ numStr k
       /\ s_rowId s = r_rowId row
       /\ s_start s = dtFromHM (r_primeHM row) + k * cycleMinutes (Some film)
       /\ s_end s = s_start s + f_runtime film + f_trailer film
       /\ s_audId s = a_id aud /\ s_filmId s = f_id film /\ s_source s = Prime
       /\ (k < 0 -> dtFromHM (firstShowHM st) <= s_start s)
       /\ (0 < k -> s_start s <= windowLast st))
  /\ NoDup (s_id <$> buildRowShowtimes st row)
  /\ NoDup (s_start <$> buildRowShowtimes st row)
  /\ (r_primeHM row <> "" -> 0 < cycleMinutes (Some film) ->
      let prime := makeRec row 0 (dtFromHM (r_primeHM row)) film aud in
      prime ∈ buildRowShowtimes st row
      /\ s_start prime = dtFromHM (r_primeHM row)
      /\ filter (fun s => s_offset s = Some 0) (buildRowShowtimes st row) = [prime]).
Proof.
  intros Hf Ha. split; [|split; [|split]].
  - intros s Hs.
    destruct (buildRowShowtimes_members st row film aud s Hf Ha Hs) as (k & -> & Hlo & Hhi).
    exists k. cbn in *. unfold endOfMovie, addMins. repeat split; try done; lia.
  - apply NoDup_fmap_2_strong; [|apply buildRowShowtimes_NoDup].
    intros x y Hx Hy Hid.
    destruct (buildRowShowtimes_members st row film aud x Hf Ha Hx) as (k1 & -> & _).
    destruct (buildRowShowtimes_members st row film aud y Hf Ha Hy) as (k2 & -> & _).
    apply makeRec_id_inj in Hid. by subst.
  - destruct (Z_le_gt_dec (cycleMinutes (Some film)) 0) as [Hc|Hc].
    { unfold buildRowShowtimes. rewrite Hf, Ha.
      destruct (String.eqb _ _); [constructor|].
      destruct (Z.leb_spec (cycleMinutes (Some film)) 0); [constructor | lia]. }
    apply NoDup_fmap_2_strong; [|apply buildRowShowtimes_NoDup].
    intros x y Hx Hy Hst.
    destruct (buildRowShowtimes_members st row film aud x Hf Ha Hx) as (k1 & -> & _).
    destruct (buildRowShowtimes_members st row film aud y Hf Ha Hy) as (k2 & -> & _).
    cbn [s_start makeRec] in Hst. assert (k1 = k2) as -> by nia. reflexivity.
  - intros Hp Hc prime.
    assert (Hin : prime ∈ buildRowShowtimes st row).
    { rewrite (buildRowShowtimes_unfold st row film aud Hf Ha Hp Hc).
      rewrite !elem_of_app, list_elem_of_singleton. right. by left. }
    split; [exact Hin|]. split; [reflexivity|].
    apply NoDup_only; [apply NoDup_filter, buildRowShowtimes_NoDup|].
    intros x. rewrite list_elem_of_filter. split.
    + intros [Ho Hx].
      destruct (buildRowShowtimes_members st row film aud x Hf Ha Hx) as (k & -> & _).
      cbn [s_offset makeRec] in Ho. injection Ho as ->.
      unfold prime. by rewrite Z.mul_0_l, Z.add_0_r.
    + intros ->. split; [reflexivity | exact Hin].
Qed.

Lemma generated_shows_have_stable_ids_witness :
  NoDup (s_id <$> buildRowShowtimes seedState rowB1)
  /\ s_id <$> buildRowShowtimes seedState rowB1
     = ["PRB-B1:-4"; "PRB-B1:-3"; "PRB-B1:-2"; "PRB-B1:-1"; "PRB-B1:0"; "PRB-B1:1"]
  /\ filter (fun s => s_offset s = Some 0) (buildRowShowtimes seedState rowB1)
     = [primeShowB1].
Proof.
  destruct (generated_shows_have_stable_ids seedState rowB1
              (mkFilm "F1" "Thunder Road" "" 124 18 20) (mkAud 1 "Aud 1")
              eq_refl eq_refl) as (_ & Hids & _ & Hprime).
  split; [exact Hids|]. split; [vm_compute; reflexivity|].
  apply Hprime; [discriminate | vm_compute; reflexivity].
Defined.

(** * Further properties: resolution *)

Lemma buildRowShowtimes_ext st st' row :
  generatorInputs st = generatorInputs st' ->
  buildRowShowtimes st row = buildRowShowtimes st' row.
Proof.
  unfold generatorInputs. intros [= Ha Hf _ _ Hfs Hls].
  unfold buildRowShowtimes, windowLast, filmById, audById.
  by rewrite Ha, Hf, Hfs, Hls.
Qed.

Lemma getAllShows_ext st st' :
  generatorInputs st = generatorInputs st' ->
  manualShows st = manualShows st' ->
  overrides st = overrides st' ->
  hiddenShows st = hiddenShows st' ->
  getAllShows st = getAllShows st'.
Proof.
  intros Hg Hm Ho Hh.
  assert (Hraw : rawShows st = rawShows st').
  { unfold rawShows. rewrite Hm.
    pose proof Hg as Hg'. injection Hg' as _ _ Hp He _ _. rewrite Hp, He. f_equal.
    apply list_bind_ext; [|done]. intros row. by apply buildRowShowtimes_ext. }
  assert (Hvis : visibleShows st = visibleShows st').
  { unfold visibleShows. by rewrite Hraw, Hh. }
  assert (Hres : forall r, resolveShow st r = resolveShow st' r).
  { intros r. injection Hg as Ha Hf _ _ _ _.
    unfold resolveShow, applyOverride, applyStart, applyAud, applyFilm, filmById, audById.
    by rewrite Ho, Ha, Hf. }
  unfold getAllShows. rewrite Hvis. by rewrite (mapM_ext _ _ _ Hres).
Qed.

Lemma getAllShows_save st : getAllShows (save st) = getAllShows st.
Proof.
  apply getAllShows_ext; unfold save; by destruct (truthyDate (currentDate st)).
Qed.

(** X4. [getAllShows] returns a list unless some show that is not hidden
    has an override with a start while the film that start's end would be
    computed from (the override's film when it names one, else the show's
    own) is missing from the catalog; in that case, and only then, it stops
    on the error.  With no start override in the state it always returns. *)
Theorem getAllShows_stops_exactly_on_missing_film (st : State) :
  (getAllShows st = None <->
   exists r ov s,
     r ∈ rawShows st /\ (s_id r ∉ hiddenShows st)
     /\ overrides st !! s_id r = Some ov /\ ov_start ov = Some s
     /\ filmById st (Some (default (s_filmId r) (truthyStr (ov_filmId ov)))) = None)
  /\ ((forall k ov, overrides st !! k = Some ov -> ov_start ov = None) ->
      is_Some (getAllShows st)).
Proof.
  assert (Hiff : getAllShows st = None <->
   exists r ov s,
     r ∈ rawShows st /\ (s_id r ∉ hiddenShows st)
     /\ overrides st !! s_id r = Some ov /\ ov_start ov = Some s
     /\ filmById st (Some (default (s_filmId r) (truthyStr (ov_filmId ov)))) = None).
  { rewrite getAllShows_None. unfold visibleShows. split.
    - intros (r & ov & s & [Hh Hr]%list_elem_of_filter & H). by exists r, ov, s.
    - intros (r & ov & s & Hr & Hh & H). exists r, ov, s.
      split; [by apply list_elem_of_filter | done]. }
  split; [exact Hiff|].
  intros Hno. destruct (getAllShows st) eqn:Hall; [by eexists|].
  destruct Hiff as [Hiff _].
  destruct (Hiff eq_refl) as (r & ov & s & _ & _ & Hov & Hs & _).
  rewrite (Hno _ _ Hov) in Hs. discriminate.
Qed.

(** X5. A hidden show never appears in the resolved list; every resolved
    show keeps the id of a generated or manual show that is not hidden, is
    that very show when no override is stored under its id, and the list is
    never longer than the list of shows before overrides. *)
Theorem resolved_shows_come_from_visible_shows (st : State) (shows : list Show) :
  getAllShows st = Some shows ->
  (forall u, u ∈ shows ->
     (s_id u ∉ hiddenShows st)
     /\ exists r, r ∈ rawShows st /\ s_id r = s_id u
                  /\ resolveShow st r = Some u
                  /\ (overrides st !! s_id u = None -> u = r))
  /\ (length shows <= length (rawShows st))%nat.
Proof.
  intros Hall. split.
  - intros u Hu.
    destruct (getAllShows_elem_of st shows u Hall Hu) as (r & Hvis & Hres).
    pose proof (resolveShow_id st r u Hres) as Hid.
    apply list_elem_of_filter in Hvis as [Hh Hr].
    split; [by rewrite Hid|]. exists r. repeat split; try done.
    intros Hov. unfold resolveShow in Hres. rewrite <- Hid, Hov in Hres. congruence.
  - apply getAllShows_inv in Hall as (mapped & Hm & ->).
    assert (Hd : forall seen l, (length (dedupe seen l) <= length l)%nat).
    { intros seen l. revert seen. induction l as [|x l IH]; intros seen; cbn; [lia|].
      destruct (decide _); cbn; [specialize (IH seen) | specialize (IH ({[showKey x]} ∪ seen))]; lia. }
    etransitivity; [apply Hd|].
    unfold sortByStart. rewrite stableSort_Permutation.
    rewrite <- (length_mapM _ _ _ Hm). unfold visibleShows. apply length_filter.
Qed.

Lemma resolved_shows_come_from_visible_shows_witness :
  exists shows, getAllShows doubledState = Some shows
                /\ (length shows <= length (rawShows doubledState))%nat.
Proof.
  eexists. split; [vm_compute; reflexivity|].
  refine (proj2 (resolved_shows_come_from_visible_shows doubledState _ _)).
  vm_compute. reflexivity.
Defined.

(** * Further properties: entry points and undo *)

Lemma workingSet_save st : workingSet (save st) = workingSet st.
Proof. unfold save. by destruct (truthyDate (currentDate st)). Qed.

Lemma generatorInputs_save st : generatorInputs (save st) = generatorInputs st.
Proof. unfold save. by destruct (truthyDate (currentDate st)). Qed.

Lemma getAllShows_workingSet st st' :
  generatorInputs st = generatorInputs st' -> workingSet st = workingSet st' ->
  getAllShows st = getAllShows st'.
Proof.
  intros Hg [= _ _ Hm Ho Hh _]. by apply getAllShows_ext.
Qed.

(** X6. Hiding a show of the resolved list ([updateShowStart] with the
    empty string) records one undo entry and takes the show out of the list;
    undoing at once brings the rows, manual shows, overrides, hidden flags
    and undo stack back to what they were, and with them the resolved
    list. *)
Theorem undo_restores_after_hide (st : State) (showId : string)
    (shows : list Show) (rec : Show) :
  getAllShows st = Some shows ->
  findShow showId shows = Some rec ->
  exists hidden restored,
    updateShowStart showId "" st = (hidden, Normal)
    /\ showId ∈ hiddenShows hidden
    /\ (exists shows', getAllShows hidden = Some shows'
                       /\ forall u, u ∈ shows' -> s_id u <> showId)
    /\ undoStack hidden = UHide showId false :: undoStack st
    /\ undo hidden = (restored, Normal)
    /\ workingSet restored = workingSet st
    /\ generatorInputs restored = generatorInputs st
    /\ getAllShows restored = Some shows.
Proof.
  intros Hall Hfind.
  destruct (found_show_facts st shows showId rec Hall Hfind) as (_ & Hhid & _).
  unfold updateShowStart. rewrite Hall, Hfind. cbn [String.eqb].
  rewrite bool_decide_eq_false_2 by done.
  eexists. eexists. split; [reflexivity|].
  split; [unfold save; destruct (truthyDate _); cbn; set_solver|].
  split.
  { rewrite getAllShows_save.
    set (st1 := setHiddenShows _ _).
    assert (Hvis : forall r, r ∈ visibleShows st1 ->
              r ∈ visibleShows st /\ s_id r <> showId).
    { intros r [Hh Hr]%list_elem_of_filter. split.
      - apply list_elem_of_filter. split; [|exact Hr].
        intros Hin. apply Hh. unfold st1. cbn. set_solver.
      - intros Hid. apply Hh. unfold st1. cbn. set_solver. }
    destruct (getAllShows st1) as [shows'|] eqn:Hall1.
    - exists shows'. split; [reflexivity|]. intros u Hu.
      destruct (getAllShows_elem_of st1 shows' u Hall1 Hu) as (r & Hr & Hres).
      rewrite (resolveShow_id _ _ _ Hres). by apply Hvis.
    - exfalso. apply getAllShows_None in Hall1 as (r & ov & s & Hr & Hov & Hs & Hf).
      assert (Hnone : getAllShows st = None); [|congruence].
      apply getAllShows_None. exists r, ov, s. split; [by apply Hvis|]. done. }
  split; [by rewrite undoStack_save|].
  unfold undo. rewrite undoStack_save. cbn [undoStack pushUndo setUndoStack setHiddenShows].
  split; [reflexivity|].
  assert (Hws : workingSet
    (save (unhideShow showId false
       (setUndoStack (undoStack st)
          (save (setHiddenShows
                   ({[showId]} ∪ hiddenShows (pushUndo (UHide showId false) st))
                   (pushUndo (UHide showId false) st)))))) = workingSet st).
  { rewrite workingSet_save. unfold unhideShow, workingSet, save.
    destruct (truthyDate _); cbn; repeat f_equal; set_solver. }
  assert (Hgi : generatorInputs
    (save (unhideShow showId false
       (setUndoStack (undoStack st)
          (save (setHiddenShows
                   ({[showId]} ∪ hiddenShows (pushUndo (UHide showId false) st))
                   (pushUndo (UHide showId false) st)))))) = generatorInputs st).
  { rewrite generatorInputs_save. unfold unhideShow, generatorInputs, save.
    by destruct (truthyDate _). }
  split; [exact Hws|]. split; [exact Hgi|].
  rewrite <- Hall. by apply getAllShows_workingSet.
Qed.

Lemma undo_restores_after_hide_witness :
  exists hidden restored,
    updateShowStart "PRB-B1:0" "" seedState = (hidden, Normal)
    /\ undo hidden = (restored, Normal)
    /\ workingSet restored = workingSet seedState
    /\ getAllShows restored = getAllShows seedState.
Proof.
  assert (H1 : exists shows, getAllShows seedState = Some shows
                             /\ findShow "PRB-B1:0" shows = Some primeShowB1).
  { eexists. split; vm_compute; reflexivity. }
  destruct H1 as (shows & H1 & H2).
  destruct (undo_restores_after_hide seedState "PRB-B1:0" shows primeShowB1 H1 H2)
    as (hidden & restored & Ha & _ & _ & _ & Hb & Hc & _ & Hd).
  exists hidden, restored. rewrite H1. by repeat split.
Defined.

Lemma list_find_snoc_fresh {A} (P : A -> Prop) `{!forall x, Decision (P x)} (l : list A) x :
  (forall y, y ∈ l -> ~ P y) -> P x ->
  list_find P (l ++ [x]) = Some (length l, x).
Proof.
  intros Hl Hx. apply list_find_Some. split; [|split; [done|]].
  - by rewrite lookup_app_r, Nat.sub_diag.
  - intros j y Hj Hlt. rewrite lookup_app_l in Hj by done.
    apply Hl. by eapply list_elem_of_lookup_2.
Qed.

Lemma delete_snoc_last {A} (l : list A) x : delete (length l) (l ++ [x]) = l.
Proof. induction l as [|y l IH]; [done|]. cbn. f_equal. exact IH. Qed.

(** X7. A manual show added to a row that has a film and an auditorium
    takes the row's auditorium and film, starts at the requested time and
    ends [runtime + trailer] minutes later; when its id is not already in
    use by a manual show, undoing at once removes exactly that show and
    brings the working schedule and the resolved list back. *)
Theorem undo_removes_added_manual_show (st : State) (newId rowId hm : string)
    (row : Row) (film : Film) (aud : Aud) :
  List.find (fun r => String.eqb (r_rowId r) rowId) (primeRows st ++ extraRows st) = Some row ->
  filmById st (r_filmId row) = Some film ->
  audById st (r_audId row) = Some aud ->
  (forall ms, ms ∈ manualShows st -> s_id ms <> newId) ->
  exists rec restored,
    manualShows (addManualShow newId rowId hm st) = manualShows st ++ [rec]
    /\ undoStack (addManualShow newId rowId hm st) = UManual rec :: undoStack st
    /\ s_id rec = newId /\ s_rowId rec = rowId /\ s_source rec = Manual
    /\ s_audId rec = a_id aud /\ s_filmId rec = f_id film
    /\ s_start rec = dtFromHM hm
    /\ s_end rec = dtFromHM hm + f_runtime film + f_trailer film
    /\ undo (addManualShow newId rowId hm st) = (restored, Normal)
    /\ workingSet restored = workingSet st
    /\ generatorInputs restored = generatorInputs st
    /\ getAllShows restored = getAllShows st.
Proof.
  intros Hrow Hf Ha Hfresh.
  unfold addManualShow. rewrite Hrow, Hf, Ha.
  set (rec := {| s_id := newId; s_rowId := rowId; s_offset := None;
                 s_audId := a_id aud; s_audName := a_name aud;
                 s_filmId := f_id film; s_filmTitle := displayTitle film;
                 s_start := dtFromHM hm; s_end := endOfMovie (dtFromHM hm) film;
                 s_runtime := f_runtime film; s_trailer := f_trailer film;
                 s_clean := f_clean film; s_cycle := cycleMinutes (Some film);
                 s_source := Manual |}).
  set (added := save (pushUndo (UManual rec) (setManualShows (manualShows st ++ [rec]) st))).
  assert (Hws : workingSet added
                = (primeRows st, extraRows st, manualShows st ++ [rec], overrides st,
                   hiddenShows st, UManual rec :: undoStack st)).
  { unfold added. by rewrite workingSet_save. }
  assert (Hgi : generatorInputs added = generatorInputs st).
  { unfold added. by rewrite generatorInputs_save. }
  pose proof Hws as Hws'. unfold workingSet in Hws'.
  injection Hws' as Hpr Her Hms Hov Hhs Hus.
  assert (Hfind : list_find (fun x => s_id x = s_id rec)
                    (manualShows (setUndoStack (undoStack st) added))
                  = Some (length (manualShows st), rec)).
  { cbn [manualShows setUndoStack]. rewrite Hms.
    apply list_find_snoc_fresh; [|done]. intros y Hy. by apply Hfresh. }
  exists rec.
  exists (save (setManualShows (manualShows st) (setUndoStack (undoStack st) added))).
  split; [exact Hms|]. split; [exact Hus|].
  do 6 (split; [reflexivity|]).
  split; [unfold rec, endOfMovie, addMins; cbn; lia|].
  assert (Hrest : workingSet
            (save (setManualShows (manualShows st) (setUndoStack (undoStack st) added)))
          = workingSet st).
  { rewrite workingSet_save. unfold workingSet. cbn. by rewrite Hpr, Her, Hov, Hhs. }
  assert (Hgi' : generatorInputs
            (save (setManualShows (manualShows st) (setUndoStack (undoStack st) added)))
          = generatorInputs st).
  { rewrite generatorInputs_save. rewrite <- Hgi. reflexivity. }
  split; [|split; [exact Hrest|split; [exact Hgi'|by apply getAllShows_workingSet]]].
  unfold undo. rewrite Hus. rewrite Hfind.
  cbn [manualShows setUndoStack]. rewrite Hms, delete_snoc_last. reflexivity.
Qed.

Lemma undo_removes_added_manual_show_witness :
  exists rec restored,
    manualShows (addManualShow "M-1" "PRB-B1" "13:00" seedState) = [rec]
    /\ s_start rec = 780
    /\ undo (addManualShow "M-1" "PRB-B1" "13:00" seedState) = (restored, Normal)
    /\ workingSet restored = workingSet seedState.
Proof.
  destruct (undo_removes_added_manual_show seedState "M-1" "PRB-B1" "13:00" rowB1
              (mkFilm "F1" "Thunder Road" "" 124 18 20) (mkAud 1 "Aud 1")
              eq_refl eq_refl eq_refl)
    as (rec & restored & H1 & _ & _ & _ & _ & _ & _ & H2 & _ & H3 & H4 & _).
  - intros ms Hms. by apply elem_of_nil in Hms.
  - exists rec, restored. split; [exact H1|]. split; [exact H2|]. split; [exact H3 | exact H4].
Defined.

Lemma overrides_save st : overrides (save st) = overrides st.
Proof. unfold save. by destruct (truthyDate (currentDate st)). Qed.

Lemma hiddenShows_save st : hiddenShows (save st) = hiddenShows st.
Proof. unfold save. by destruct (truthyDate (currentDate st)). Qed.

Lemma manualShows_save st : manualShows (save st) = manualShows st.
Proof. unfold save. by destruct (truthyDate (currentDate st)). Qed.

Lemma findShow_None_not_visible st shows showId :
  getAllShows st = Some shows ->
  (forall r, r ∈ rawShows st -> s_id r = showId -> showId ∈ hiddenShows st) ->
  findShow showId shows = None.
Proof.
  intros Hall Hno. destruct (findShow showId shows) as [rec|] eqn:Hfind; [|done].
  apply findShow_Some in Hfind as [Hin Hid].
  destruct (getAllShows_elem_of st shows rec Hall Hin) as (r & Hvis & Hres).
  apply resolveShow_id in Hres.
  apply list_elem_of_filter in Hvis as [Hh Hr].
  exfalso. apply Hh. rewrite <- Hres, Hid. apply (Hno r Hr). congruence.
Qed.

Lemma findShow_None_not_listed shows showId :
  (forall u, u ∈ shows -> s_id u <> showId) -> findShow showId shows = None.
Proof.
  intros Hno. destruct (findShow showId shows) as [rec|] eqn:Hfind; [|done].
  apply findShow_Some in Hfind as [Hin Hid]. by destruct (Hno rec Hin).
Qed.

(** X8. The entry points fail soft.  A show id that is not in the resolved
    list (no show carries it, every show carrying it is hidden, or the show
    was dropped as a duplicate) leaves the state untouched in
    [updateShowStart], [updateShowAud] and [updateShowFilm], and the call
    completes whenever [getAllShows] returns; a row id that no row carries,
    or whose row lacks a film or an auditorium in the catalog, leaves it
    untouched in [addManualShow]; and [undo] on an empty stack does
    nothing. *)
Theorem entry_points_ignore_what_they_cannot_find (st : State) (showId : string) :
  ((forall shows u, getAllShows st = Some shows -> u ∈ shows -> s_id u <> showId) ->
   (forall hm, fst (updateShowStart showId hm st) = st
               /\ (is_Some (getAllShows st) -> snd (updateShowStart showId hm st) = Normal))
   /\ (forall a, fst (updateShowAud showId a st) = st
                 /\ (is_Some (getAllShows st) -> snd (updateShowAud showId a st) = Normal))
   /\ (forall f, fst (updateShowFilm showId f st) = st
                 /\ (is_Some (getAllShows st) -> snd (updateShowFilm showId f st) = Normal)))
  /\ ((forall r, r ∈ rawShows st -> s_id r = showId -> showId ∈ hiddenShows st) ->
      forall shows u, getAllShows st = Some shows -> u ∈ shows -> s_id u <> showId)
  /\ (forall newId rowId hm,
        (forall row, row ∈ primeRows st ++ extraRows st -> r_rowId row <> rowId) ->
        addManualShow newId rowId hm st = st)
  /\ (forall newId rowId hm row,
        List.find (fun r => String.eqb (r_rowId r) rowId) (primeRows st ++ extraRows st)
        = Some row ->
        filmById st (r_filmId row) = None \/ audById st (r_audId row) = None ->
        addManualShow newId rowId hm st = st)
  /\ (undoStack st = [] -> undo st = (st, Normal)).
Proof.
  split; [|split; [|split; [|split]]].
  - intros Hno.
    destruct (getAllShows st) as [shows|] eqn:Hall.
    + pose proof (findShow_None_not_listed shows showId
                    (fun u => Hno shows u eq_refl)) as Hfind.
      repeat split; intros; unfold updateShowStart, updateShowAud, updateShowFilm;
        by rewrite Hall, Hfind.
    + repeat split; intros; unfold updateShowStart, updateShowAud, updateShowFilm;
        rewrite Hall; try done; by destruct H.
  - intros Hno shows u Hall Hu Hid.
    pose proof (findShow_None_not_visible st shows showId Hall Hno) as Hfind.
    unfold findShow in Hfind.
    pose proof (find_none _ _ Hfind u ltac:(by apply list_elem_of_In)) as Hne.
    cbv beta in Hne. rewrite Hid, String.eqb_refl in Hne. discriminate.
  - intros newId rowId hm Hno. unfold addManualShow.
    destruct (find _ _) as [row|] eqn:Hfind; [|done].
    apply find_some in Hfind as [Hin Heq]. apply String.eqb_eq in Heq.
    apply list_elem_of_In in Hin. by destruct (Hno row Hin).
  - intros newId rowId hm row Hfind Hmiss. unfold addManualShow. rewrite Hfind.
    destruct Hmiss as [-> | Ha]; [done|]. rewrite Ha. by destruct (filmById st _).
  - intros Hu. unfold undo. by rewrite Hu.
Qed.

(** The manual show M-2 of [doubledState] is visible but dropped as a
    duplicate of the prime show; editing it changes nothing. *)
Lemma entry_points_ignore_what_they_cannot_find_witness :
  fst (updateShowStart "M-2" "20:00" doubledState) = doubledState
  /\ "M-2" ∈ s_id <$> visibleShows doubledState
  /\ addManualShow "M-9" "EX-1" "13:00" seedState = seedState.
Proof.
  destruct (entry_points_ignore_what_they_cannot_find doubledState "M-2") as (H1 & _).
  destruct (entry_points_ignore_what_they_cannot_find seedState "") as (_ & _ & H2 & _).
  split; [|split].
  - assert (Hl : exists shows0, getAllShows doubledState = Some shows0
                                /\ Forall (fun u => s_id u <> "M-2") shows0).
    { eexists. split; [vm_compute; reflexivity|]. repeat constructor; discriminate. }
    destruct Hl as (shows0 & Hall0 & Hf).
    destruct H1 as (Hs & _).
    + intros shows u Hall Hu. rewrite Hall0 in Hall. injection Hall as <-.
      by eapply Forall_forall in Hf.
    + apply Hs.
  - apply (bool_decide_unpack _). vm_compute. exact I.
  - apply H2. intros row [->|Hin%elem_of_nil]%elem_of_cons; [discriminate | done].
Defined.

(** * A start edit and its undo *)

Lemma mapM_ext_in {A B} (f g : A -> option B) (l : list A) :
  (forall x, x ∈ l -> f x = g x) -> mapM f l = mapM g l.
Proof.
  induction l as [|x l IH]; intros H; [reflexivity|].
  cbn. rewrite (H x) by left. rewrite IH; [reflexivity|].
  intros y Hy. apply H. by right.
Qed.

(** Two states with the same catalog, rows, window, manual shows and hidden
    flags, whose overrides resolve every visible show alike, resolve to the
    same list. *)
Lemma getAllShows_resolve_ext st st' :
  generatorInputs st = generatorInputs st' ->
  manualShows st = manualShows st' ->
  hiddenShows st = hiddenShows st' ->
  (forall r, r ∈ visibleShows st -> resolveShow st r = resolveShow st' r) ->
  getAllShows st = getAllShows st'.
Proof.
  intros Hg Hm Hh Hres.
  assert (Hraw : rawShows st = rawShows st').
  { unfold rawShows. rewrite Hm.
    pose proof Hg as Hg'. injection Hg' as _ _ Hp He _ _. rewrite Hp, He. f_equal.
    apply list_bind_ext; [|done]. intros row. by apply buildRowShowtimes_ext. }
  assert (Hvis : visibleShows st = visibleShows st').
  { unfold visibleShows. by rewrite Hraw, Hh. }
  unfold getAllShows. rewrite <- Hvis. by rewrite (mapM_ext_in _ _ _ Hres).
Qed.

(** Resolution reads the state through its overrides and catalog only. *)
Lemma resolveShow_ext st st' r :
  generatorInputs st = generatorInputs st' ->
  overrides st !! s_id r = overrides st' !! s_id r ->
  resolveShow st r = resolveShow st' r.
Proof.
  intros Hg Ho. injection Hg as Ha Hf _ _ _ _.
  unfold resolveShow, applyOverride, applyStart, applyAud, applyFilm, filmById, audById.
  by rewrite Ho, Ha, Hf.
Qed.

(** A show resolved under an override that carries a start: it starts
    there and ends [runtime + trailer] of its film later. *)
Lemma resolveShow_with_start st r ov s u :
  overrides st !! s_id r = Some ov -> ov_start ov = Some s ->
  resolveShow st r = Some u ->
  s_start u = s
  /\ exists film, filmById st (Some (s_filmId u)) = Some film
                  /\ s_end u = s + f_runtime film + f_trailer film.
Proof.
  intros Hov Hs Hres.
  split; [by rewrite (resolveShow_start st r u ov Hres Hov), Hs|].
  unfold resolveShow in Hres. rewrite Hov in Hres.
  unfold applyOverride, applyStart in Hres. rewrite Hs in Hres.
  destruct (filmById st (Some (default (s_filmId r) (truthyStr (ov_filmId ov)))))
    as [film|] eqn:Hfilm; [|done].
  cbn in Hres. injection Hres as <-.
  unfold regroup, applyFilm.
  destruct (truthyStr (ov_filmId ov)) as [f|] eqn:Hf; cbn [default] in Hfilm.
  - destruct (String.eqb_spec f (s_filmId r)) as [->|Hne].
    + exists film. unfold applyAud.
      destruct (redirects r ov), (truthyZ (ov_audId ov)); cbn in *;
        (split; [done | unfold endOfMovie, addMins; lia]).
    + cbn in Hfilm. change (find _ (films st)) with (filmById st (Some f)) in Hfilm.
      rewrite Hfilm. exists film.
      pose proof (filmById_id st f film Hfilm) as Hfid.
      unfold applyAud.
      destruct (redirects r ov), (truthyZ (ov_audId ov)); cbn in *; rewrite Hfid;
        (split; [done | unfold endOfMovie, addMins; lia]).
  - exists film. unfold applyAud.
    destruct (redirects r ov), (truthyZ (ov_audId ov)); cbn in *;
      (split; [done | unfold endOfMovie, addMins; lia]).
Qed.

(** A show resolved under an override that carries a start and nothing
    else keeps its row, auditorium, film and source. *)
Lemma resolveShow_start_only st r s u :
  overrides st !! s_id r = Some {| ov_start := Some s; ov_audId := None; ov_filmId := None |} ->
  resolveShow st r = Some u ->
  s_rowId u = s_rowId r /\ s_source u = s_source r
  /\ s_audId u = s_audId r /\ s_filmId u = s_filmId r /\ s_offset u = s_offset r.
Proof.
  intros Hov Hres. unfold resolveShow in Hres. rewrite Hov in Hres.
  unfold applyOverride, applyStart in Hres. cbn in Hres.
  destruct (List.find _ _); [|done]. cbn in Hres. by injection Hres as <-.
Qed.

(** Putting the start of a show back where it is, on a show without an
    override whose end is [runtime + trailer] after its start, resolves to
    the show itself. *)
Lemma resolveShow_same_start st r film :
  overrides st !! s_id r
  = Some {| ov_start := Some (s_start r); ov_audId := None; ov_filmId := None |} ->
  filmById st (Some (s_filmId r)) = Some film ->
  s_end r = endOfMovie (s_start r) film ->
  resolveShow st r = Some r.
Proof.
  intros Hov Hfilm Hend. unfold resolveShow. rewrite Hov.
  unfold applyOverride, applyStart. cbn [ov_start ov_filmId truthyStr default].
  rewrite Hfilm. cbn. rewrite <- Hend. by destruct r.
Qed.

Lemma patchStart_twice s1 s2 o : patchStart s1 (Some (patchStart s2 o)) = patchStart s1 o.
Proof. by destruct o. Qed.

Lemma patchStart_same s o ov :
  o = Some ov -> ov_start ov = Some s -> patchStart s o = ov.
Proof. intros -> Hs. destruct ov. cbn in *. by subst. Qed.

(** X9. A start edit and its undo.  On a show of the resolved list,
    [updateShowStart] with a time completes, records one undo entry holding
    the start the show had, and writes the new start into the override
    stored under the show's id, leaving the other fields of that override,
    every other override, the hidden flags, the manual shows, the rows and
    the catalog alone.  Every show listed afterwards under that id starts at
    the requested time and ends [runtime + trailer] of its film later; if
    the show had no override before, it keeps its row, auditorium, film and
    source (the source does not become Override).  Shows with another id
    resolve as before.  [undo] then pops the entry and writes the previous
    start into that override without removing it: when the show already had
    a start override, the overrides and the resolved list are exactly as
    before the edit; when it had no override, an override holding the
    previous start stays behind, and the resolved list is as before the edit
    provided the show is the only one with its id and ends
    [runtime + trailer] of its catalog film after its start. *)
Theorem updateShowStart_takes_effect (st : State) (showId hm : string)
    (shows : list Show) (rec : Show) :
  getAllShows st = Some shows ->
  findShow showId shows = Some rec ->
  hm <> "" ->
  let st' := fst (updateShowStart showId hm st) in
  let st'' := fst (undo st') in
  (snd (updateShowStart showId hm st) = Normal
   /\ undoStack st' = UEdit showId (s_start rec) :: undoStack st
   /\ overrides st' = <[showId := patchStart (dtFromHM hm) (overrides st !! showId)]>
                        (overrides st)
   /\ hiddenShows st' = hiddenShows st /\ manualShows st' = manualShows st
   /\ generatorInputs st' = generatorInputs st)
  /\ (forall shows' u,
        getAllShows st' = Some shows' -> u ∈ shows' -> s_id u = showId ->
        s_start u = dtFromHM hm
        /\ (exists film, filmById st (Some (s_filmId u)) = Some film
                         /\ s_end u = dtFromHM hm + f_runtime film + f_trailer film)
        /\ (overrides st !! showId = None ->
            exists r, r ∈ rawShows st /\ s_id r = showId
                      /\ s_rowId u = s_rowId r /\ s_source u = s_source r
                      /\ s_audId u = s_audId r /\ s_filmId u = s_filmId r))
  /\ (forall r, s_id r <> showId -> resolveShow st' r = resolveShow st r)
  /\ (snd (undo st') = Normal
      /\ undoStack st'' = undoStack st
      /\ overrides st'' = <[showId := patchStart (s_start rec) (overrides st !! showId)]>
                            (overrides st)
      /\ hiddenShows st'' = hiddenShows st /\ manualShows st'' = manualShows st
      /\ generatorInputs st'' = generatorInputs st)
  /\ (is_Some (overrides st !! showId ≫= ov_start) ->
      workingSet st'' = workingSet st /\ getAllShows st'' = Some shows)
  /\ (overrides st !! showId = None ->
      overrides st'' !! showId
      = Some {| ov_start := Some (s_start rec); ov_audId := None; ov_filmId := None |}
      /\ ((forall r, r ∈ rawShows st -> s_id r = showId ->
             r = rec
             /\ exists film, filmById st (Some (s_filmId r)) = Some film
                             /\ s_end r = s_start r + f_runtime film + f_trailer film) ->
          getAllShows st'' = Some shows)).
Proof.
  intros Hall Hfind Hhm st' st''.
  destruct (found_show_facts st shows showId rec Hall Hfind) as (Hid & Hhid & Hprev & _).
  assert (Hst' : st' = save (setOverrides
                   (<[showId := patchStart (dtFromHM hm) (overrides st !! showId)]>
                      (overrides st))
                   (pushUndo (UEdit showId (s_start rec)) st))).
  { unfold st', updateShowStart. rewrite Hall, Hfind, Hprev.
    destruct (String.eqb_spec hm ""); [done|]. reflexivity. }
  assert (Hov' : overrides st'
                 = <[showId := patchStart (dtFromHM hm) (overrides st !! showId)]>
                     (overrides st)).
  { rewrite Hst', overrides_save. reflexivity. }
  assert (Hu' : undoStack st' = UEdit showId (s_start rec) :: undoStack st).
  { rewrite Hst', undoStack_save. reflexivity. }
  assert (Hh' : hiddenShows st' = hiddenShows st).
  { rewrite Hst', hiddenShows_save. reflexivity. }
  assert (Hm' : manualShows st' = manualShows st).
  { rewrite Hst', manualShows_save. reflexivity. }
  assert (Hg' : generatorInputs st' = generatorInputs st).
  { rewrite Hst', generatorInputs_save. reflexivity. }
  assert (Hst'' : st'' = save (revertOverride showId (s_start rec)
                                 (setUndoStack (undoStack st) st'))).
  { unfold st'', undo. rewrite Hu'. reflexivity. }
  assert (Hov'' : overrides st''
                  = <[showId := patchStart (s_start rec) (overrides st !! showId)]>
                      (overrides st)).
  { rewrite Hst'', overrides_save. unfold revertOverride.
    cbn [overrides setOverrides setUndoStack]. rewrite Hov'.
    rewrite lookup_insert_eq, patchStart_twice, insert_insert_eq. reflexivity. }
  assert (Hh'' : hiddenShows st'' = hiddenShows st).
  { rewrite Hst'', hiddenShows_save. cbn. exact Hh'. }
  assert (Hm'' : manualShows st'' = manualShows st).
  { rewrite Hst'', manualShows_save. cbn. exact Hm'. }
  assert (Hg'' : generatorInputs st'' = generatorInputs st).
  { rewrite Hst'', generatorInputs_save. unfold generatorInputs in *. cbn. exact Hg'. }
  assert (Hu'' : undoStack st'' = undoStack st).
  { rewrite Hst'', undoStack_save. reflexivity. }
  assert (Hraw' : rawShows st' = rawShows st).
  { unfold rawShows. rewrite Hm'.
    pose proof Hg' as Hgi. injection Hgi as _ _ Hp He _ _. rewrite Hp, He. f_equal.
    apply list_bind_ext; [|done]. intros row. by apply buildRowShowtimes_ext. }
  split; [|split; [|split; [|split; [|split]]]].
  - split; [|done]. unfold updateShowStart. rewrite Hall, Hfind.
    by destruct (String.eqb hm "").
  - intros shows' u Hall' Hu Huid.
    destruct (getAllShows_elem_of st' shows' u Hall' Hu) as (r & Hvis & Hres).
    pose proof (resolveShow_id _ r u Hres) as Hrid.
    assert (Hlk : overrides st' !! s_id r
                  = Some (patchStart (dtFromHM hm) (overrides st !! showId))).
    { rewrite Hov', <- Hrid, Huid. apply lookup_insert_eq. }
    assert (Hps : ov_start (patchStart (dtFromHM hm) (overrides st !! showId))
                  = Some (dtFromHM hm)) by (by destruct (overrides st !! showId)).
    destruct (resolveShow_with_start st' r _ _ u Hlk Hps Hres) as (Hs & film & Hfilm & Hend).
    split; [exact Hs|]. split.
    + exists film. split; [|exact Hend].
      injection Hg' as _ Hf _ _ _ _. unfold filmById in *. by rewrite <- Hf.
    + intros Hnone. rewrite Hnone in Hlk. cbn in Hlk.
      destruct (resolveShow_start_only st' r _ u Hlk Hres) as (? & ? & ? & ? & _).
      exists r. apply list_elem_of_filter in Hvis as [_ Hr]. rewrite Hraw' in Hr.
      repeat split; try done. congruence.
  - intros r Hr. apply resolveShow_ext; [exact Hg'|].
    rewrite Hov'. by rewrite lookup_insert_ne.
  - split; [|done]. unfold undo. by rewrite Hu'.
  - intros [s Hs].
    destruct (overrides st !! showId) as [ov|] eqn:Hov; [|done]. cbn in Hs.
    assert (Hsame : s = s_start rec).
    { unfold prevStartOf in Hprev. rewrite Hov in Hprev. cbn in Hprev.
      rewrite Hs in Hprev. cbn in Hprev. done. }
    assert (Hoveq : overrides st'' = overrides st).
    { rewrite Hov''. rewrite (patchStart_same (s_start rec) (Some ov) ov eq_refl)
        by congruence.
      by apply insert_id. }
    assert (Hws : workingSet st'' = workingSet st).
    { unfold workingSet. rewrite Hoveq, Hh'', Hm'', Hu''.
      injection Hg'' as _ _ Hp He _ _. by rewrite Hp, He. }
    split; [exact Hws|]. rewrite <- Hall. by apply getAllShows_workingSet.
  - intros Hnone. split.
    + rewrite Hov'', Hnone. cbn. apply lookup_insert_eq.
    + intros Honly. rewrite <- Hall. apply getAllShows_resolve_ext; try done.
      intros r [_ Hr]%list_elem_of_filter.
      assert (Hr' : r ∈ rawShows st).
      { unfold rawShows in *. rewrite Hm'' in Hr.
        pose proof Hg'' as Hgi. injection Hgi as _ _ Hp He _ _. rewrite Hp, He in Hr.
        erewrite list_bind_ext in Hr; [exact Hr| |done].
        intros row. by apply buildRowShowtimes_ext. }
      destruct (decide (s_id r = showId)) as [Hrid|Hrid].
      * destruct (Honly r Hr' Hrid) as (-> & film & Hfilm & Hend).
        transitivity (Some rec).
        -- apply (resolveShow_same_start st'' rec film).
           ++ rewrite Hov'', Hrid, Hnone. cbn. apply lookup_insert_eq.
           ++ injection Hg'' as _ Hf _ _ _ _. unfold filmById in *. by rewrite Hf.
           ++ unfold endOfMovie, addMins. lia.
        -- unfold resolveShow. by rewrite Hrid, Hnone.
      * apply resolveShow_ext; [done|]. rewrite Hov''. by rewrite lookup_insert_ne.
Qed.

Lemma updateShowStart_takes_effect_witness :
  (exists shows', getAllShows (fst (updateShowStart "PRB-B1:0" "19:30" seedState)) = Some shows'
                  /\ (s_start <$> findShow "PRB-B1:0" shows') = Some 1170
                  /\ (s_end <$> findShow "PRB-B1:0" shows') = Some 1312
                  /\ (s_source <$> findShow "PRB-B1:0" shows') = Some Prime)
  /\ getAllShows (fst (undo (fst (updateShowStart "PRB-B1:0" "19:30" seedState))))
     = getAllShows seedState
  /\ overrides (fst (undo (fst (updateShowStart "PRB-B1:0" "19:30" seedState))))
       !! "PRB-B1:0"
     = Some {| ov_start := Some 1140; ov_audId := None; ov_filmId := None |}.
Proof.
  assert (H1 : exists shows, getAllShows seedState = Some shows
                             /\ findShow "PRB-B1:0" shows = Some primeShowB1).
  { eexists. split; vm_compute; reflexivity. }
  destruct H1 as (shows & H1 & H2).
  assert (H3 : exists shows' u,
            getAllShows (fst (updateShowStart "PRB-B1:0" "19:30" seedState)) = Some shows'
            /\ findShow "PRB-B1:0" shows' = Some u).
  { do 2 eexists. split; vm_compute; reflexivity. }
  destruct H3 as (shows' & u & H3 & H4).
  assert (Hhm : "19:30" <> "") by discriminate.
  destruct (updateShowStart_takes_effect seedState "PRB-B1:0" "19:30" shows primeShowB1
              H1 H2 Hhm)
    as (_ & Hlisted & _ & _ & _ & Hundo).
  assert (Hnone : overrides seedState !! "PRB-B1:0" = None) by reflexivity.
  destruct (Hundo Hnone) as [Hleft Hback].
  split; [|split].
  - exists shows'. split; [exact H3|]. rewrite H4. cbn [fmap option_fmap option_map].
    pose proof H4 as H4'. apply findShow_Some in H4' as [Hin Hid].
    destruct (Hlisted shows' u H3 Hin Hid) as (Hs & (film & Hfilm & Hend) & Hkeep).
    destruct (Hkeep Hnone) as (r & Hr & Hrid & _ & Hsrc & _ & Hfid).
    assert (Hraw : forallb (fun r => bool_decide (s_source r = Prime /\ s_filmId r = "F1"))
                     (rawShows seedState) = true) by (vm_compute; reflexivity).
    rewrite forallb_forall in Hraw.
    assert (HrIn : In r (rawShows seedState)) by (apply list_elem_of_In; exact Hr).
    destruct (bool_decide_unpack _ (Is_true_true_2 _ (Hraw r HrIn))) as [Hp Hf1].
    rewrite Hfid, Hf1 in Hfilm. vm_compute in Hfilm. injection Hfilm as <-.
    rewrite Hs, Hend, Hsrc, Hp. repeat split.
  - rewrite H1. apply Hback. intros r Hr Hrid.
    assert (Hraw : forallb (fun r => bool_decide (s_id r = "PRB-B1:0" -> r = primeShowB1))
                     (rawShows seedState) = true) by (vm_compute; reflexivity).
    rewrite forallb_forall in Hraw.
    assert (HrIn : In r (rawShows seedState)) by (apply list_elem_of_In; exact Hr).
    rewrite (bool_decide_unpack _ (Is_true_true_2 _ (Hraw r HrIn)) Hrid).
    split; [reflexivity|]. eexists. split; reflexivity.
  - exact Hleft.
Defined.

Ltac keeps_inputs :=
  repeat first
    [ progress cbn [fst]
    | rewrite generatorInputs_save
    | reflexivity
    | case_match ].

Lemma generatorInputs_updateShowStart showId hm st :
  generatorInputs (fst (updateShowStart showId hm st)) = generatorInputs st.
Proof. unfold updateShowStart. keeps_inputs. Qed.

Lemma generatorInputs_updateShowAud showId a st :
  generatorInputs (fst (updateShowAud showId a st)) = generatorInputs st.
Proof. unfold updateShowAud, updateAudOverride. keeps_inputs. Qed.

Lemma generatorInputs_updateShowFilm showId f st :
  generatorInputs (fst (updateShowFilm showId f st)) = generatorInputs st.
Proof. unfold updateShowFilm, updateFilmOverride. keeps_inputs. Qed.

Lemma generatorInputs_addManualShow newId rowId hm st :
  generatorInputs (addManualShow newId rowId hm st) = generatorInputs st.
Proof. unfold addManualShow. keeps_inputs. Qed.

Lemma generatorInputs_undo st :
  generatorInputs (fst (undo st)) = generatorInputs st.
Proof.
  unfold undo, undoMoveAud, undoEditFilm, dropFilmOverride, revertOverride, unhideShow.
  keeps_inputs.
Qed.

(** X10. No edit touches the generator: [updateShowStart], [updateShowAud],
    [updateShowFilm], [addManualShow] and [undo] leave the catalog, the rows
    and the operating window as they were, whatever their arguments and
    however they end, so every row generates the same shows afterwards. *)
Theorem edits_never_change_the_generator (st : State) (row : Row)
    (showId hm newId rowId : string) (a : option Z) (f : option string) :
  let after := [ fst (updateShowStart showId hm st);
                 fst (updateShowAud showId a st);
                 fst (updateShowFilm showId f st);
                 addManualShow newId rowId hm st;
                 fst (undo st) ] in
  Forall (fun st' => generatorInputs st' = generatorInputs st
                     /\ buildRowShowtimes st' row = buildRowShowtimes st row) after.
Proof.
  intros after.
  assert (H : Forall (fun st' => generatorInputs st' = generatorInputs st) after).
  { repeat constructor.
    - apply generatorInputs_updateShowStart.
    - apply generatorInputs_updateShowAud.
    - apply generatorInputs_updateShowFilm.
    - apply generatorInputs_addManualShow.
    - apply generatorInputs_undo. }
  eapply Forall_impl; [exact H|]. intros st' Hst'. split; [done|].
  by apply buildRowShowtimes_ext.
Qed.

(** * Further properties: the snapshot store *)

(** X11. Retention pruning keeps at most fourteen dates, namely the latest
    ones: the pruned store has [min (size, 14)] entries, every entry it
    keeps is an entry of the store unchanged, every deleted date is strictly
    earlier (as a string) than every date kept, and a store of fourteen
    dates or fewer is left as it is. *)
Theorem pruneOldSchedules_keeps_the_latest (m : gmap string Snapshot) :
  size (pruneOldSchedules m) = Nat.min (size m) retention
  /\ (forall k v, pruneOldSchedules m !! k = Some v -> m !! k = Some v)
  /\ (forall k k',
        is_Some (m !! k) -> pruneOldSchedules m !! k = None ->
        is_Some (pruneOldSchedules m !! k') ->
        String.leb k k' = true /\ k <> k')
  /\ ((size m <= retention)%nat -> pruneOldSchedules m = m).
Proof.
  destruct (Nat.le_gt_cases (size m) retention) as [Hle|Hgt].
  { rewrite pruneOldSchedules_small by done.
    split; [lia|]. split; [done|]. split; [|done].
    intros k k' [v Hv] Hn. congruence. }
  unfold pruneOldSchedules.
  rewrite length_fmap, length_map_to_list.
  destruct (Nat.leb_spec (size m) retention) as [|_]; [lia|].
  set (keys := (map_to_list m).*1).
  set (sorted := stableSort String.leb keys).
  set (n := (size m - retention)%nat).
  assert (Hperm : sorted ≡ₚ keys) by apply stableSort_Permutation.
  assert (Hnd : NoDup sorted) by (rewrite Hperm; apply NoDup_fst_map_to_list).
  assert (Hkeys : forall k, k ∈ sorted <-> is_Some (m !! k)).
  { intros k. rewrite Hperm. unfold keys. rewrite list_elem_of_fmap. split.
    - intros ([k0 v] & -> & Hkv). apply elem_of_map_to_list in Hkv. by exists v.
    - intros [v Hv]. exists (k, v). split; [done|]. by apply elem_of_map_to_list. }
  assert (Hlen : length sorted = size m).
  { rewrite Hperm. unfold keys. by rewrite length_fmap, length_map_to_list. }
  assert (Hsplit : sorted = take n sorted ++ drop n sorted) by (symmetry; apply take_drop).
  assert (Hndt : NoDup (take n sorted)).
  { rewrite Hsplit in Hnd. by apply NoDup_app in Hnd as [? _]. }
  assert (Hint : forall j, j ∈ take n sorted -> is_Some (m !! j)).
  { intros j Hj. apply Hkeys. rewrite Hsplit. apply elem_of_app. by left. }
  split; [|split; [|split]].
  - rewrite size_foldr_delete by done. rewrite length_take, Hlen. unfold n. lia.
  - intros k v Hkv. destruct (decide (k ∈ take n sorted)) as [Hin|Hnin].
    + by rewrite lookup_foldr_delete in Hkv.
    + by rewrite lookup_foldr_delete_notin in Hkv.
  - intros k k' Hk Hdel [v' Hkept].
    assert (Hkin : k ∈ take n sorted).
    { destruct (decide (k ∈ take n sorted)) as [|Hnin]; [done|].
      rewrite lookup_foldr_delete_notin in Hdel by done. destruct Hk; congruence. }
    assert (Hk'nin : k' ∉ take n sorted).
    { intros Hin. by rewrite lookup_foldr_delete in Hkept. }
    assert (Hk'in : k' ∈ drop n sorted).
    { rewrite lookup_foldr_delete_notin in Hkept by done.
      assert (Hs : k' ∈ sorted) by (apply Hkeys; by eexists).
      rewrite Hsplit in Hs. apply elem_of_app in Hs as [|]; done. }
    split; [|congruence].
    pose proof (sortedKeys_sorted keys) as Hsorted. fold sorted in Hsorted.
    rewrite Hsplit in Hsorted.
    by apply (StronglySorted_app_le _ _ _ Hsorted).
  - lia.
Qed.

(** X12. [listDates] returns exactly the dates that have a stored snapshot,
    each once, in ascending order. *)
Theorem listDates_sorted_stored_dates (st : State) :
  (forall d, d ∈ listDates st <-> is_Some (scheduleByDate st !! d))
  /\ NoDup (listDates st)
  /\ StronglySorted (fun a b => String.leb a b = true) (listDates st)
  /\ length (listDates st) = size (scheduleByDate st).
Proof.
  unfold listDates. split; [|split; [|split]].
  - intros d. rewrite elem_of_stableSort, list_elem_of_fmap. split.
    + intros ([k0 v] & -> & Hkv). apply elem_of_map_to_list in Hkv. by exists v.
    + intros [v Hv]. exists (d, v). split; [done|]. by apply elem_of_map_to_list.
  - rewrite stableSort_Permutation. apply NoDup_fst_map_to_list.
  - apply sortedKeys_sorted.
  - by rewrite stableSort_Permutation, length_fmap, length_map_to_list.
Qed.

Lemma workingSet_saveCurrentSchedule st :
  workingSet (saveCurrentSchedule st) = workingSet st.
Proof. unfold saveCurrentSchedule. by destruct (truthyDate (currentDate st)). Qed.

Lemma generatorInputs_saveCurrentSchedule st :
  generatorInputs (saveCurrentSchedule st) = generatorInputs st.
Proof. unfold saveCurrentSchedule. by destruct (truthyDate (currentDate st)). Qed.

Lemma currentDate_save st : currentDate (save st) = currentDate st.
Proof. unfold save. by destruct (truthyDate (currentDate st)). Qed.

(** X13. Copying never touches the schedule that is open: whatever the
    source and the targets are, [copySchedule] leaves the rows, manual
    shows, overrides, hidden flags, undo stack, catalog, window and current
    date of the working state as they were, so the resolved list is the
    same; and with no targets it changes nothing at all. *)
Theorem copySchedule_leaves_the_open_schedule (st : State) (fromDate : option string)
    (targetDates : list string) :
  workingSet (copySchedule fromDate targetDates st) = workingSet st
  /\ generatorInputs (copySchedule fromDate targetDates st) = generatorInputs st
  /\ currentDate (copySchedule fromDate targetDates st) = currentDate st
  /\ getAllShows (copySchedule fromDate targetDates st) = getAllShows st
  /\ copySchedule fromDate [] st = st.
Proof.
  assert (H : workingSet (copySchedule fromDate targetDates st) = workingSet st
              /\ generatorInputs (copySchedule fromDate targetDates st) = generatorInputs st
              /\ currentDate (copySchedule fromDate targetDates st) = currentDate st).
  { unfold copySchedule. destruct targetDates as [|t ts]; [done|].
    destruct (match truthyDate fromDate with
              | Some d => Some d
              | None => truthyDate (currentDate st)
              end) as [sourceDate|]; [|done].
    destruct (scheduleByDate (saveCurrentSchedule st) !! sourceDate) as [srcSched|].
    - rewrite workingSet_save, generatorInputs_save, currentDate_save.
      pose proof (workingSet_saveCurrentSchedule st).
      pose proof (generatorInputs_saveCurrentSchedule st).
      pose proof (currentDate_saveCurrentSchedule st). done.
    - by rewrite workingSet_saveCurrentSchedule, generatorInputs_saveCurrentSchedule,
        currentDate_saveCurrentSchedule. }
  destruct H as (Hw & Hg & Hc). repeat split; try done.
  by apply getAllShows_workingSet.
Qed.







(** * Further properties: the analyzer and the prime page *)

Lemma length_gapIssues name l : (length (gapIssues name l) <= Nat.pred (length l))%nat.
Proof.
  induction l as [|cur [|next l] IH]; [cbn; lia | cbn; lia |].
  change (gapIssues name (cur :: next :: l))
    with (gapIssue name cur next ++ gapIssues name (next :: l)).
  rewrite length_app. cbn [length Nat.pred] in *.
  assert ((length (gapIssue name cur next) <= 1)%nat).
  { unfold gapIssue. destruct (_ <=? _); cbn; lia. }
  lia.
Qed.

Lemma length_issuesForAud w a slots :
  (length (issuesForAud w a slots) <= length slots)%nat.
Proof.
  unfold issuesForAud.
  pose proof (Permutation_length (sortSlots_Permutation slots)) as Hlen.
  destruct (sortSlots slots) as [|first l] eqn:Hs; [cbn; lia|].
  rewrite length_app.
  pose proof (length_gapIssues (groupName a first) (first :: l)) as Hg.
  assert ((length (lateIssue (groupName a first) w first) <= 1)%nat).
  { unfold lateIssue. destruct (_ <=? _); cbn; lia. }
  cbn [length Nat.pred] in *. lia.
Qed.

Lemma length_filter_split {A} (P : A -> Prop) `{!forall x, Decision (P x)} (l : list A) :
  (length (filter P l) + length (filter (fun x => ~ P x) l) = length l)%nat.
Proof.
  induction l as [|x l IH]; [done|].
  destruct (decide (P x)).
  - rewrite filter_cons_True, (filter_cons_False (fun x => ~ P x)) by tauto. cbn. lia.
  - rewrite filter_cons_False, (filter_cons_True (fun x => ~ P x)) by tauto. cbn. lia.
Qed.

Lemma filter_other_aud (shows : list Show) (a k : Z) :
  k <> a ->
  filter (fun rec => s_audId rec = k) (filter (fun rec => ~ s_audId rec = a) shows)
  = filter (fun rec => s_audId rec = k) shows.
Proof.
  intros Hk. induction shows as [|s shows IH]; [done|].
  destruct (decide (s_audId s = a)) as [Ha|Ha].
  - rewrite (filter_cons_False (fun rec => ~ s_audId rec = a)) by tauto.
    rewrite (filter_cons_False (fun rec => s_audId rec = k)) by congruence. exact IH.
  - rewrite (filter_cons_True (fun rec => ~ s_audId rec = a)) by tauto.
    destruct (decide (s_audId s = k)).
    + rewrite !(filter_cons_True (fun rec => s_audId rec = k)) by done. by rewrite IH.
    + rewrite !(filter_cons_False (fun rec => s_audId rec = k)) by done. exact IH.
Qed.

Lemma list_bind_ext_in {A B} (f g : A -> list B) (l : list A) :
  (forall x, x ∈ l -> f x = g x) -> l ≫= f = l ≫= g.
Proof.
  induction l as [|x l IH]; intros H; [done|].
  rewrite !bind_cons, (H x) by left. f_equal. apply IH. intros y Hy. apply H. by right.
Qed.

Lemma groups_fit_in_shows (w : Z) (keys : list Z) (shows : list Show) :
  NoDup keys ->
  (length (keys ≫= fun a => issuesForAud w a (slotsOfAud shows a)) <= length shows)%nat.
Proof.
  intros Hnd. revert shows. induction Hnd as [|a ks Ha Hks IH]; intros shows; [cbn; lia|].
  rewrite bind_cons, length_app.
  pose proof (length_issuesForAud w a (slotsOfAud shows a)) as H1.
  unfold slotsOfAud in H1 at 2. rewrite length_fmap in H1.
  pose proof (length_filter_split (fun rec => s_audId rec = a) shows) as H2.
  specialize (IH (filter (fun rec => ~ s_audId rec = a) shows)).
  pose proof (length_filter (fun rec => ~ s_audId rec = a) shows) as H3.
  rewrite (list_bind_ext_in _
             (fun k => issuesForAud w k
                (slotsOfAud (filter (fun rec => ~ s_audId rec = a) shows) k))).
  - lia.
  - intros k Hk. unfold slotsOfAud. rewrite filter_other_aud; [done|].
    intros ->. done.
Qed.

(** X16. The analyzer reports at most one issue per show that has an
    auditorium (at most one late opening and one gap per consecutive pair in
    each auditorium), never reports a wait below its thresholds (every issue
    has at least 45 minutes, a Late one at least 105, a HugeGap one at least
    90, a Gap one fewer than 90), and reports nothing for an empty list. *)
Theorem analyzer_reports_are_bounded (windowStartRaw : Z) (shows : list Show) :
  (length (analyze windowStartRaw shows)
   <= length (filter (fun rec => s_audId rec <> 0%Z) shows))%nat
  /\ (forall iss, iss ∈ analyze windowStartRaw shows ->
        45 <= i_minutes iss
        /\ (i_type iss = Late -> 105 <= i_minutes iss)
        /\ (i_type iss = HugeGap -> 90 <= i_minutes iss)
        /\ (i_type iss = Gap -> i_minutes iss < 90))
  /\ analyze windowStartRaw [] = [].
Proof.
  split; [|split; [|reflexivity]].
  - unfold analyze. rewrite sortIssues_Permutation.
    set (shows' := filter (fun rec => s_audId rec <> 0) shows).
    etransitivity; [|apply (groups_fit_in_shows windowStartRaw (audKeys shows) shows'),
                       NoDup_audKeys].
    apply Nat.eq_le_incl. f_equal. apply list_bind_ext_in.
    intros a Ha. apply elem_of_audKeys in Ha as [Ha _].
    unfold slotsOfAud, shows'. f_equal. f_equal.
    clear -Ha. induction shows as [|s shows IH]; [done|].
    destruct (decide (s_audId s = 0)) as [H0|H0].
    + rewrite (filter_cons_False (fun rec => s_audId rec <> 0)) by tauto.
      rewrite (filter_cons_False (fun rec => s_audId rec = a)) by congruence. exact IH.
    + rewrite (filter_cons_True (fun rec => s_audId rec <> 0)) by done.
      destruct (decide (s_audId s = a)).
      * rewrite !(filter_cons_True (fun rec => s_audId rec = a)) by done. by rewrite IH.
      * rewrite !(filter_cons_False (fun rec => s_audId rec = a)) by done. exact IH.
  - intros iss Hin. unfold analyze in Hin. rewrite sortIssues_Permutation in Hin.
    apply list_elem_of_bind in Hin as (a & Hin & _).
    apply elem_of_issuesForAud in Hin as (first & _ & [[Hl ->]|H]).
    + cbn. repeat split; try done; lia.
    + destruct H as (i & cur & next & _ & _ & Hg & ->). cbn.
      unfold GAP_HUGE_MIN. destruct (Z.leb_spec 90 (gapMinutes cur next));
        repeat split; try done; lia.
Qed.

Lemma stepBack_spec fuel c first t :
  0 < c ->
  stepBack fuel c first t
  = (fun i => t - i * c)
      <$> seqZ 0 (Z.min (Z.of_nat fuel) (Z.max 0 ((t - first) / c + 1))).
Proof.
  intros Hc. revert t. induction fuel as [|k IH]; intros t.
  { cbn [stepBack]. rewrite seqZ_nil by lia. reflexivity. }
  cbn [stepBack]. destruct (Z.leb_spec first t) as [Hle|Hlt].
  - assert (Hq : 0 <= (t - first) / c) by (apply Z.div_pos; lia).
    assert (Hd : (t - c - first) / c = (t - first) / c - 1).
    { replace (t - c - first) with (t - first + (-1) * c) by lia.
      rewrite Z.div_add by lia. lia. }
    rewrite IH, Hd.
    replace (Z.min (Z.of_nat (S k)) (Z.max 0 ((t - first) / c + 1)))
      with (Z.succ (Z.min (Z.of_nat k) (Z.max 0 ((t - first) / c - 1 + 1)))) by lia.
    set (m := Z.min (Z.of_nat k) (Z.max 0 ((t - first) / c - 1 + 1))).
    rewrite (seqZ_cons 0 (Z.succ m)) by lia.
    rewrite Z.pred_succ. cbn [fmap list_fmap]. f_equal; [lia|].
    change (Z.succ 0) with (1 + 0).
    rewrite <- (fmap_add_seqZ 1 0 m), <- list_fmap_compose.
    apply list_fmap_ext. intros _ i _. cbn. lia.
  - assert (Hq : (t - first) / c < 0) by (apply Z.div_lt_upper_bound; lia).
    rewrite seqZ_nil by lia. reflexivity.
Qed.

Lemma stepForward_spec fuel c last t :
  0 < c ->
  stepForward fuel c last t
  = (fun i => t + i * c)
      <$> seqZ 0 (Z.min (Z.of_nat fuel) (Z.max 0 ((last - t) / c + 1))).
Proof.
  intros Hc. revert t. induction fuel as [|k IH]; intros t.
  { cbn [stepForward]. rewrite seqZ_nil by lia. reflexivity. }
  cbn [stepForward]. destruct (Z.leb_spec t last) as [Hle|Hlt].
  - assert (Hq : 0 <= (last - t) / c) by (apply Z.div_pos; lia).
    assert (Hd : (last - (t + c)) / c = (last - t) / c - 1).
    { replace (last - (t + c)) with (last - t + (-1) * c) by lia.
      rewrite Z.div_add by lia. lia. }
    rewrite IH, Hd.
    replace (Z.min (Z.of_nat (S k)) (Z.max 0 ((last - t) / c + 1)))
      with (Z.succ (Z.min (Z.of_nat k) (Z.max 0 ((last - t) / c - 1 + 1)))) by lia.
    set (m := Z.min (Z.of_nat k) (Z.max 0 ((last - t) / c - 1 + 1))).
    rewrite (seqZ_cons 0 (Z.succ m)) by lia.
    rewrite Z.pred_succ. cbn [fmap list_fmap]. f_equal; [lia|].
    change (Z.succ 0) with (1 + 0).
    rewrite <- (fmap_add_seqZ 1 0 m), <- list_fmap_compose.
    apply list_fmap_ext. intros _ i _. cbn. lia.
  - assert (Hq : (last - t) / c < 0) by (apply Z.div_lt_upper_bound; lia).
    rewrite seqZ_nil by lia. reflexivity.
Qed.

Lemma renderPreTimes_spec c p first :
  0 < c ->
  renderPreTimes c p first
  = (fun i => p - i * c) <$> seqZ 1 (Z.min 50 (Z.max 0 ((p - first) / c))).
Proof.
  intros Hc. unfold renderPreTimes. rewrite stepBack_spec by done.
  assert (Hd : (p - c - first) / c + 1 = (p - first) / c).
  { replace (p - c - first) with (p - first + (-1) * c) by lia.
    rewrite Z.div_add by lia. lia. }
  rewrite Hd. change (Z.of_nat 50) with 50.
  change (seqZ 1) with (seqZ (1 + 0)).
  rewrite <- (fmap_add_seqZ 1 0), <- list_fmap_compose.
  apply list_fmap_ext. intros _ i _. cbn. lia.
Qed.

Lemma renderPostTimes_spec c p last :
  0 < c ->
  renderPostTimes c p last
  = (fun i => p + i * c) <$> seqZ 1 (Z.min 50 (Z.max 0 ((last - p) / c))).
Proof.
  intros Hc. unfold renderPostTimes. rewrite stepForward_spec by done.
  assert (Hd : (last - (p + c)) / c + 1 = (last - p) / c).
  { replace (last - (p + c)) with (last - p + (-1) * c) by lia.
    rewrite Z.div_add by lia. lia. }
  rewrite Hd. change (Z.of_nat 50) with 50.
  change (seqZ 1) with (seqZ (1 + 0)).
  rewrite <- (fmap_add_seqZ 1 0), <- list_fmap_compose.
  apply list_fmap_ext. intros _ i _. cbn. lia.
Qed.



(** * The cells of the prime page *)

Lemma to12_mod d : to12 d = to12 (d mod 1440).
Proof.
  unfold to12, getHours, getMinutes. rewrite Zmod_mod.
  rewrite <- (Z.mod_mod_divide d 1440 60) at 1; [reflexivity|].
  exists 24. reflexivity.
Qed.

Lemma to12_table :
  let tbl := (fun d => (d, to12 d)) <$> seqZ 0 1440 in
  forallb (fun a => forallb (fun b => implb (String.eqb a.2 b.2) (a.1 =? b.1)) tbl) tbl
  = true.
Proof. vm_compute. reflexivity. Qed.

Lemma to12_inj_day x y :
  0 <= x < 1440 -> 0 <= y < 1440 -> to12 x = to12 y -> x = y.
Proof.
  intros Hx Hy Heq. pose proof to12_table as Ht. cbv zeta in Ht.
  rewrite forallb_forall in Ht.
  assert (Hin : forall d, 0 <= d < 1440 ->
            In (d, to12 d) ((fun d => (d, to12 d)) <$> seqZ 0 1440)).
  { intros d Hd. apply list_elem_of_In, list_elem_of_fmap.
    exists d. split; [reflexivity|]. apply elem_of_seqZ. lia. }
  specialize (Ht _ (Hin x Hx)). rewrite forallb_forall in Ht.
  specialize (Ht _ (Hin y Hy)). cbn [fst snd] in Ht.
  rewrite Heq, String.eqb_refl in Ht. cbn in Ht. lia.
Qed.

Lemma to12_inj_window x y :
  to12 x = to12 y -> - 1440 < x - y < 1440 -> x = y.
Proof.
  intros Heq Hd. rewrite (to12_mod x), (to12_mod y) in Heq.
  apply to12_inj_day in Heq; [|apply Z.mod_pos_bound; lia ..].
  pose proof (Z.div_mod x 1440). pose proof (Z.div_mod y 1440). lia.
Qed.

Lemma uniqLabels_distinct times :
  NoDup (to12 <$> times) -> uniqLabels times = to12 <$> times.
Proof.
  unfold uniqLabels.
  enough (forall acc, NoDup (acc ++ (to12 <$> times)) ->
            foldl (fun uniq date =>
                     let label := to12 date in
                     if bool_decide (label ∈ uniq) then uniq else uniq ++ [label])
                  acc times = acc ++ (to12 <$> times)) as H.
  { intros Hnd. apply (H []). exact Hnd. }
  induction times as [|t times IH]; intros acc Hnd; cbn [foldl fmap list_fmap].
  { by rewrite app_nil_r. }
  cbn in Hnd. cbv zeta.
  rewrite bool_decide_eq_false_2.
  2:{ apply NoDup_app in Hnd as (_ & Hd & _). intros Hin. apply (Hd _ Hin). left. }
  rewrite IH; rewrite <- app_assoc; [reflexivity|exact Hnd].
Qed.

Section SortedInput.
Context {A : Type} (leb : A -> A -> bool).

Lemma insertSorted_last x l :
  Forall (fun y => leb x y = false) l -> insertSorted leb x l = l ++ [x].
Proof.
  induction 1 as [|y l Hy _ IH]; cbn; [reflexivity|].
  by rewrite Hy, IH.
Qed.

Lemma stableSort_descending l :
  StronglySorted (fun a b => leb a b = false) l -> stableSort leb l = reverse l.
Proof.
  induction 1 as [|x l _ IH Hx]; [reflexivity|].
  change (stableSort leb (x :: l)) with (insertSorted leb x (stableSort leb l)).
  rewrite IH, reverse_cons. apply insertSorted_last.
  apply Forall_forall. intros y Hy. rewrite elem_of_reverse in Hy.
  rewrite Forall_forall in Hx. by apply Hx.
Qed.

Lemma stableSort_ascending l :
  StronglySorted (fun a b => leb a b = true) l -> stableSort leb l = l.
Proof.
  induction 1 as [|x l _ IH Hx]; [reflexivity|].
  change (stableSort leb (x :: l)) with (insertSorted leb x (stableSort leb l)).
  rewrite IH. destruct Hx as [|y l Hy _]; cbn; [reflexivity|]. by rewrite Hy.
Qed.
End SortedInput.

Lemma take_seqZ (k : nat) m n : take k (seqZ m n) = seqZ m (Z.min (Z.of_nat k) n).
Proof.
  unfold seqZ. rewrite <- fmap_take, take_seq. do 2 f_equal. lia.
Qed.

Lemma lastEight_reverse {A} (l : list A) : lastEight (reverse l) = reverse (take 8 l).
Proof.
  unfold lastEight. rewrite drop_reverse, length_reverse. f_equal.
  destruct (Nat.le_gt_cases (length l) 8).
  - rewrite !take_ge by lia. reflexivity.
  - f_equal. lia.
Qed.

Lemma lastEight_fmap {A B} (f : A -> B) (l : list A) :
  lastEight (f <$> l) = f <$> lastEight l.
Proof. unfold lastEight. by rewrite fmap_drop, length_fmap. Qed.

Lemma length_lastEight {A} (l : list A) : (length (lastEight l) <= 8)%nat.
Proof. unfold lastEight. rewrite length_drop. lia. Qed.

Lemma length_firstEight {A} (l : list A) : (length (firstEight l) <= 8)%nat.
Proof. unfold firstEight. rewrite length_take. lia. Qed.

Lemma length_preCells st row : length (preCells st row) = 8%nat.
Proof.
  unfold preCells. destruct (rowIsSet row); [|apply length_replicate].
  cbv zeta. destruct (_ <? _); [|apply length_replicate].
  rewrite length_app, length_replicate, length_fmap.
  pose proof (length_lastEight
    (uniqLabels (sortTimes (renderPreTimes (cycleMinutes (filmById st (r_filmId row)))
       (dtFromHM (r_primeHM row)) (dtFromHM (firstShowHM st)))))). lia.
Qed.

Lemma length_postCells st row : length (postCells st row) = 8%nat.
Proof.
  unfold postCells. destruct (rowIsSet row); [|apply length_replicate].
  cbv zeta. destruct (_ <? _); [|apply length_replicate].
  rewrite length_app, length_replicate, length_fmap.
  pose proof (length_firstEight
    (uniqLabels (sortTimes (renderPostTimes (cycleMinutes (filmById st (r_filmId row)))
       (dtFromHM (r_primeHM row)) (windowLast st))))). lia.
Qed.

Lemma dtFromHM_range hm : 0 <= dtFromHM hm <= 1439.
Proof. unfold dtFromHM. destruct (matchHM hm) as [[H M]|]; lia. Qed.

Lemma preShowsIn_starts st row film aud :
  filmById st (r_filmId row) = Some film ->
  audById st (r_audId row) = Some aud ->
  r_primeHM row <> "" ->
  0 < cycleMinutes (Some film) ->
  s_start <$> preShowsIn (dtFromHM (r_primeHM row)) (buildRowShowtimes st row)
  = reverse ((fun i => dtFromHM (r_primeHM row) - i * cycleMinutes (Some film))
               <$> seqZ 1 ((dtFromHM (r_primeHM row) - dtFromHM (firstShowHM st))
                           / cycleMinutes (Some film))).
Proof.
  intros Hf Ha Hp Hc.
  rewrite (buildRowShowtimes_unfold st row film aud Hf Ha Hp Hc).
  set (c := cycleMinutes (Some film)) in *. set (p := dtFromHM (r_primeHM row)).
  set (first := dtFromHM (firstShowHM st)). set (last := windowLast st).
  unfold diffMins, preShowsIn.
  pose proof (preShows_before row film aud first p c ((p - first) / c) Hc) as Hpre.
  pose proof (postShows_after row film aud last p c ((last - p) / c) Hc) as Hpost.
  rewrite !filter_app.
  rewrite (filter_none _ [_]) by (repeat constructor; cbn; lia).
  rewrite (filter_none _ (postShows _ _ _ _ _ _ _)).
  2:{ eapply Forall_impl; [exact Hpost|]. cbn. intros; lia. }
  rewrite !app_nil_r, filter_all by exact Hpre.
  rewrite preShows_starts, filter_all.
  2:{ apply Forall_forall. intros i Hi%elem_of_countDown.
      pose proof (Z.mul_div_le (p - first) c Hc). nia. }
  unfold countDown. by rewrite fmap_reverse.
Qed.

Lemma postShowsIn_starts st row film aud :
  filmById st (r_filmId row) = Some film ->
  audById st (r_audId row) = Some aud ->
  r_primeHM row <> "" ->
  0 < cycleMinutes (Some film) ->
  s_start <$> postShowsIn (dtFromHM (r_primeHM row)) (buildRowShowtimes st row)
  = (fun i => dtFromHM (r_primeHM row) + i * cycleMinutes (Some film))
      <$> seqZ 1 ((windowLast st - dtFromHM (r_primeHM row)) / cycleMinutes (Some film)).
Proof.
  intros Hf Ha Hp Hc.
  rewrite (buildRowShowtimes_unfold st row film aud Hf Ha Hp Hc).
  set (c := cycleMinutes (Some film)) in *. set (p := dtFromHM (r_primeHM row)).
  set (first := dtFromHM (firstShowHM st)). set (last := windowLast st).
  unfold diffMins, postShowsIn.
  pose proof (preShows_before row film aud first p c ((p - first) / c) Hc) as Hpre.
  pose proof (postShows_after row film aud last p c ((last - p) / c) Hc) as Hpost.
  rewrite !filter_app.
  rewrite (filter_none _ [_]) by (repeat constructor; cbn; lia).
  rewrite (filter_none _ (preShows _ _ _ _ _ _ _)).
  2:{ eapply Forall_impl; [exact Hpre|]. cbn. intros; lia. }
  cbn [app]. rewrite filter_all by exact Hpost.
  rewrite postShows_starts, filter_all; [reflexivity|].
  apply Forall_forall. intros i Hi%elem_of_seqZ.
  pose proof (Z.mul_div_le (last - p) c Hc). nia.
Qed.

Lemma seqZ_min_cap m (k : Z) n :
  seqZ m (Z.min k (Z.min 50 (Z.max 0 n))) = seqZ m (Z.min k n) \/ 50 < k.
Proof.
  destruct (Z_le_gt_dec k 50); [left|right; lia].
  destruct (Z_le_gt_dec n 0).
  - rewrite !seqZ_nil by lia. reflexivity.
  - f_equal. lia.
Qed.

(** X18. The sixteen time cells of a prime-page row show the generator's
    shows.  Each side always has eight cells.  For a row with a film id, an
    auditorium id and a prime time, whose film and auditorium are in the
    catalog and whose cycle is positive, the eight cells before the prime
    column are blanks followed by the 12-hour labels of the generated
    pre-shows nearest to the prime (the last eight at most, in time order);
    the eight cells after it are the labels of the first eight generated
    post-shows followed by blanks, provided the post-shows span less than a
    day (the window ends less than 24 hours and one cycle after the prime),
    so that no two of them share a label. *)
Theorem prime_page_cells_show_generated_times (st : State) (row : Row)
    (film : Film) (aud : Aud) :
  filmById st (r_filmId row) = Some film ->
  audById st (r_audId row) = Some aud ->
  rowIsSet row = true ->
  let c := cycleMinutes (Some film) in
  0 < c ->
  let p := dtFromHM (r_primeHM row) in
  let pre := preShowsIn p (buildRowShowtimes st row) in
  let post := postShowsIn p (buildRowShowtimes st row) in
  let label := fun s => Some (to12 (s_start s)) in
  preCells st row
  = replicate (8 - length (lastEight pre)) None ++ (label <$> lastEight pre)
  /\ (windowLast st - p < 1440 + c ->
      postCells st row
      = (label <$> firstEight post) ++ replicate (8 - length (firstEight post)) None)
  /\ length (preCells st row) = 8%nat
  /\ length (postCells st row) = 8%nat.
Proof.
  intros Hf Ha Hset c Hc p pre post label.
  assert (Hp : r_primeHM row <> "").
  { unfold rowIsSet in Hset.
    destruct (truthyStr (r_filmId row)), (truthyZ (r_audId row)); try discriminate.
    intros E. rewrite E in Hset. discriminate. }
  pose proof (dtFromHM_range (r_primeHM row)) as Hpr. fold p in Hpr.
  pose proof (dtFromHM_range (firstShowHM st)) as Hfr.
  set (first := dtFromHM (firstShowHM st)) in *.
  split; [|split; [|split; [apply length_preCells | apply length_postCells]]].
  - unfold preCells. rewrite Hset, Hf. cbv zeta. fold c p first.
    destruct (Z.ltb_spec 0 c) as [_|]; [|lia].
    pose proof (renderPreTimes_spec c p first Hc) as HR.
    set (n := Z.min 50 (Z.max 0 ((p - first) / c))) in HR.
    assert (Hsort : sortTimes (renderPreTimes c p first)
                    = reverse (renderPreTimes c p first)).
    { apply stableSort_descending. rewrite HR.
      apply (StronglySorted_fmap _ (fun a b => a < b)).
      - intros x y Hxy. apply Z.leb_gt. nia.
      - unfold seqZ. apply (StronglySorted_fmap _ (fun a b => (a < b)%nat)).
        + intros x y Hxy. lia.
        + generalize 0%nat. induction (Z.to_nat n) as [|k IH]; intros s; cbn.
          * constructor.
          * constructor; [apply IH|]. apply Forall_forall.
            intros y Hy%elem_of_seq. lia. }
    assert (Hnd : NoDup (to12 <$> reverse (renderPreTimes c p first))).
    { apply NoDup_fmap_2_strong.
      - intros x y Hx Hy Hxy. rewrite elem_of_reverse in Hx, Hy.
        rewrite HR in Hx, Hy.
        apply list_elem_of_fmap in Hx as (i & -> & Hi%elem_of_seqZ).
        apply list_elem_of_fmap in Hy as (j & -> & Hj%elem_of_seqZ).
        pose proof (Z.mul_div_le (p - first) c Hc).
        apply to12_inj_window; [exact Hxy|]. subst n. nia.
      - rewrite reverse_Permutation, HR.
        apply NoDup_fmap_2_strong; [|apply NoDup_seqZ].
        intros x y _ _ Hxy. nia. }
    rewrite Hsort, (uniqLabels_distinct _ Hnd).
    assert (Hsel : lastEight (to12 <$> reverse (renderPreTimes c p first))
                   = to12 <$> (s_start <$> lastEight pre)).
    { rewrite lastEight_fmap. f_equal. rewrite <- lastEight_fmap.
      subst pre. unfold p, c. rewrite (preShowsIn_starts st row film aud Hf Ha Hp Hc).
      fold c p first. rewrite !lastEight_reverse. f_equal.
      rewrite HR, <- !fmap_take, !take_seqZ. f_equal. subst n.
      destruct (seqZ_min_cap 1 (Z.of_nat 8) ((p - first) / c)) as [E|E]; [exact E|lia]. }
    rewrite Hsel, !length_fmap, <- !list_fmap_compose. reflexivity.
  - intros Hspan. unfold postCells. rewrite Hset, Hf. cbv zeta. fold c p.
    destruct (Z.ltb_spec 0 c) as [_|]; [|lia].
    set (last := windowLast st) in *.
    pose proof (renderPostTimes_spec c p last Hc) as HR.
    set (n := Z.min 50 (Z.max 0 ((last - p) / c))) in HR.
    assert (Hsort : sortTimes (renderPostTimes c p last) = renderPostTimes c p last).
    { apply stableSort_ascending. rewrite HR.
      apply (StronglySorted_fmap _ (fun a b => a < b)).
      - intros x y Hxy. apply Z.leb_le. nia.
      - unfold seqZ. apply (StronglySorted_fmap _ (fun a b => (a < b)%nat)).
        + intros x y Hxy. lia.
        + generalize 0%nat. induction (Z.to_nat n) as [|k IH]; intros s; cbn.
          * constructor.
          * constructor; [apply IH|]. apply Forall_forall.
            intros y Hy%elem_of_seq. lia. }
    assert (Hnd : NoDup (to12 <$> renderPostTimes c p last)).
    { apply NoDup_fmap_2_strong.
      - intros x y Hx Hy Hxy. rewrite HR in Hx, Hy.
        apply list_elem_of_fmap in Hx as (i & -> & Hi%elem_of_seqZ).
        apply list_elem_of_fmap in Hy as (j & -> & Hj%elem_of_seqZ).
        pose proof (Z.mul_div_le (last - p) c Hc).
        apply to12_inj_window; [exact Hxy|]. subst n. nia.
      - rewrite HR. apply NoDup_fmap_2_strong; [|apply NoDup_seqZ].
        intros x y _ _ Hxy. nia. }
    rewrite Hsort, (uniqLabels_distinct _ Hnd).
    assert (Hsel : firstEight (to12 <$> renderPostTimes c p last)
                   = to12 <$> (s_start <$> firstEight post)).
    { unfold firstEight. rewrite <- fmap_take. f_equal. rewrite fmap_take.
      subst post. unfold p, c. rewrite (postShowsIn_starts st row film aud Hf Ha Hp Hc).
      fold c p last.
      rewrite HR, <- !fmap_take, !take_seqZ. f_equal. subst n.
      destruct (seqZ_min_cap 1 (Z.of_nat 8) ((last - p) / c)) as [E|E]; [exact E|lia]. }
    rewrite Hsel, !length_fmap, <- !list_fmap_compose. reflexivity.
Qed.

Lemma prime_page_cells_show_generated_times_witness :
  preCells seedState rowB1
  = [None; None; None; None;
     Some "8:00am"; Some "10:45am"; Some "1:30pm"; Some "4:15pm"]
  /\ postCells seedState rowB1
     = [Some "9:45pm"; None; None; None; None; None; None; None].
Proof.
  assert (Hc : 0 < cycleMinutes (Some (mkFilm "F1" "Thunder Road" "" 124 18 20)))
    by (vm_compute; reflexivity).
  destruct (prime_page_cells_show_generated_times seedState rowB1
              (mkFilm "F1" "Thunder Road" "" 124 18 20) (mkAud 1 "Aud 1")
              eq_refl eq_refl eq_refl Hc) as (Hpre & Hpost & _).
  split.
  - rewrite Hpre. vm_compute. reflexivity.
  - rewrite Hpost; [vm_compute; reflexivity|]. vm_compute. reflexivity.
Defined.

(** * The start-time options *)

Lemma dtFromHM_hmFromDate d : dtFromHM (hmFromDate d) = d mod 1440.
Proof.
  rewrite hmFromDate_mod.
  pose proof (Z.mod_pos_bound d 1440 ltac:(lia)) as Hb.
  pose proof dtFromHM_hmFromDate_day as Hall.
  rewrite forallb_forall in Hall.
  apply Z.eqb_eq, Hall, list_elem_of_In, elem_of_seqZ. lia.
Qed.

Lemma hmFromDate_inj_window x y :
  hmFromDate x = hmFromDate y -> - 1440 < x - y < 1440 -> x = y.
Proof.
  intros Heq Hd. apply (f_equal dtFromHM) in Heq.
  rewrite !dtFromHM_hmFromDate in Heq.
  pose proof (Z.div_mod x 1440). pose proof (Z.div_mod y 1440). lia.
Qed.

Lemma elem_of_uniqueStrings l x : x ∈ uniqueStrings l <-> x ∈ l.
Proof.
  induction l as [|y l IH]; cbn; [done|].
  rewrite !elem_of_cons, list_elem_of_filter, IH.
  destruct (decide (x = y)); naive_solver.
Qed.

Lemma NoDup_uniqueStrings l : NoDup (uniqueStrings l).
Proof.
  induction l as [|y l IH]; cbn; constructor.
  - rewrite list_elem_of_filter. naive_solver.
  - by apply NoDup_filter.
Qed.

Lemma uniqueStrings_NoDup l : NoDup l -> uniqueStrings l = l.
Proof.
  induction 1 as [|x l Hx _ IH]; cbn; [reflexivity|].
  rewrite IH. f_equal. apply filter_all, Forall_forall. intros y Hy ->. done.
Qed.

Lemma elem_of_optionOffsets m :
  m ∈ optionOffsets <-> -90 <= m <= 90 /\ m mod 5 = 0.
Proof.
  unfold optionOffsets. rewrite list_elem_of_fmap. split.
  - intros (j & -> & Hj%elem_of_seqZ). split; [lia|].
    replace (-90 + 5 * j) with ((j - 18) * 5) by lia. apply Z.mod_mul. lia.
  - intros [Hm Hmod]. exists ((m + 90) / 5).
    apply Z.mod_divide in Hmod as [q ->]; [|lia].
    replace (q * 5 + 90) with ((q + 18) * 5) by lia.
    rewrite Z.div_mul by lia. split; [lia|]. apply elem_of_seqZ. lia.
Qed.

Lemma optionsAround_opts st start :
  omap (fun m =>
          let t := addMins start m in
          if (t <? dtFromHM (firstShowHM st)) || (windowLast st <? t)
          then None else Some (hmFromDate t))
       optionOffsets
  = (fun m => hmFromDate (start + m))
      <$> filter (fun m => dtFromHM (firstShowHM st) <= start + m <= windowLast st)
                 optionOffsets.
Proof.
  rewrite <- (list_fmap_id (omap _ optionOffsets)).
  apply omap_filter_fmap; intros m _ Hm; unfold addMins; cbv zeta.
  - eexists. split; [|reflexivity].
    destruct (Z.ltb_spec (start + m) (dtFromHM (firstShowHM st))); [lia|].
    destruct (Z.ltb_spec (windowLast st) (start + m)); [lia|]. reflexivity.
  - destruct (Z.ltb_spec (start + m) (dtFromHM (firstShowHM st))); [reflexivity|].
    destruct (Z.ltb_spec (windowLast st) (start + m)); [reflexivity|]. lia.
Qed.

(** X19. [optionsAround(start)] offers exactly the times from 90 minutes
    before to 90 minutes after [start], in steps of five minutes, that lie
    inside the operating window, each as its 24-hour [HH:MM]; the options
    are in ascending string order without repetition, no two offered times
    share an option (so there are as many options as offsets inside the
    window, 37 at most), and the start itself is offered whenever it lies
    inside the window. *)
Theorem optionsAround_offers_window_times (st : State) (start : Z) :
  let first := dtFromHM (firstShowHM st) in
  let last := windowLast st in
  (forall o, o ∈ optionsAround st start <->
     exists m, (-90 <= m <= 90 /\ m mod 5 = 0)
               /\ first <= start + m <= last /\ o = hmFromDate (start + m))
  /\ NoDup (optionsAround st start)
  /\ StronglySorted (fun a b => String.leb a b = true) (optionsAround st start)
  /\ length (optionsAround st start)
     = length (filter (fun m => first <= start + m <= last) optionOffsets)
  /\ (length (optionsAround st start) <= 37)%nat
  /\ (first <= start <= last -> hmFromDate start ∈ optionsAround st start).
Proof.
  intros first last.
  assert (Hmem : forall o, o ∈ optionsAround st start <->
     exists m, (-90 <= m <= 90 /\ m mod 5 = 0)
               /\ first <= start + m <= last /\ o = hmFromDate (start + m)).
  { intros o. unfold optionsAround. cbv zeta.
    rewrite elem_of_stableSort, elem_of_uniqueStrings, optionsAround_opts,
      list_elem_of_fmap.
    fold first last. split.
    - intros (m & -> & [Hw Hm%elem_of_optionOffsets]%list_elem_of_filter).
      exists m. done.
    - intros (m & Hm & Hw & ->). exists m. split; [done|].
      apply list_elem_of_filter. split; [done|]. by apply elem_of_optionOffsets. }
  assert (Hlen : length (optionsAround st start)
                 = length (filter (fun m => first <= start + m <= last) optionOffsets)).
  { unfold optionsAround. cbv zeta.
    rewrite (Permutation_length (stableSort_Permutation _ _)), optionsAround_opts.
    fold first last. rewrite uniqueStrings_NoDup, length_fmap; [reflexivity|].
    apply NoDup_fmap_2_strong.
    - intros x y [_ Hx%elem_of_optionOffsets]%list_elem_of_filter
               [_ Hy%elem_of_optionOffsets]%list_elem_of_filter Heq.
      apply hmFromDate_inj_window in Heq; lia.
    - apply NoDup_filter. unfold optionOffsets.
      apply NoDup_fmap_2_strong; [|apply NoDup_seqZ]. intros; lia. }
  split; [exact Hmem|]. split; [|split; [|split; [exact Hlen|split]]].
  - unfold optionsAround. cbv zeta. rewrite stableSort_Permutation.
    apply NoDup_uniqueStrings.
  - apply sortedKeys_sorted.
  - rewrite Hlen.
    etransitivity; [apply length_filter|]. unfold optionOffsets.
    rewrite length_fmap, length_seqZ. lia.
  - intros Hw. apply Hmem. exists 0. rewrite Z.add_0_r. done.
Qed.
